(** * PDF to Markdown pipelines: a shallow embedding and its properties

    The development follows the two scripts of the repository:

    - [pdf_to_markdown_with_image_descriptions.py]: the regular-expression
      helpers, the context window builder and the image splicing loop;
    - [pdf_to_markdown_full_ocr.py]: the image size capper and the page
      orchestrator.

    Python [str] values are sequences of Unicode code points, Python [int]
    values are [Z], exceptions are values of [exn], and PyMuPDF, Pillow, the
    model endpoint and the float operations are interfaces (type classes)
    whose calls are recorded in a log.  Progress messages ([print]) and the
    fixed keyword arguments of the model call are left out. *)

From Stdlib Require Import List ZArith NArith Lia Bool String Ascii.
From Stdlib Require Import DecimalString.
From Equations Require Import Equations.
From Equations.Prop Require Import Logic.
Import ListNotations.

Local Open Scope string_scope.
Local Open Scope list_scope.
Local Open Scope Z_scope.

(* ===================================================================== *)
(** ** Python strings *)
(* ===================================================================== *)

Module PyStr.

(** A character is a Unicode code point; [len] counts code points. *)
Definition char := N.
Definition str := list char.

Definition lit (s : string) : str :=
  List.map N_of_ascii (list_ascii_of_string s).

Definition NL : char := 10%N.
Definition ELLIPSIS : char := 8230%N.     (* U+2026 *)

Definition len (s : str) : Z := Z.of_nat (List.length s).

Definition char_of (a : string) : char :=
  match a with
  | String c _ => N_of_ascii c
  | EmptyString => 0%N
  end.

Definition in_range (lo hi c : char) : bool :=
  (N.leb lo c && N.leb c hi)%bool.

(** [str.isspace] on one code point, which is also the class [\s] of a
    Unicode pattern. *)
Definition isspace (c : char) : bool :=
  (in_range 9 13 c || in_range 28 32 c || N.eqb c 133 || N.eqb c 160
   || N.eqb c 5760 || in_range 8192 8202 c || N.eqb c 8232 || N.eqb c 8233
   || N.eqb c 8239 || N.eqb c 8287 || N.eqb c 12288)%bool%N.

Fixpoint lstrip (s : str) : str :=
  match s with
  | c :: s' => if isspace c then lstrip s' else s
  | [] => []
  end.

Definition rstrip (s : str) : str := rev (lstrip (rev s)).

Definition strip (s : str) : str := rstrip (lstrip s).

(** Index normalisation of a slice bound: negative bounds count from the
    end, and every bound is clamped to [0, len]. *)
Definition clamp_index (n i : Z) : Z :=
  if i <? 0 then Z.max 0 (i + n) else Z.min i n.

(** [s[lo:hi]] *)
Definition slice (s : str) (lo hi : Z) : str :=
  let a := clamp_index (len s) lo in
  let b := clamp_index (len s) hi in
  firstn (Z.to_nat (b - a)) (skipn (Z.to_nat a) s).

(** [s[lo:]] *)
Definition slice_from (s : str) (lo : Z) : str :=
  skipn (Z.to_nat (clamp_index (len s) lo)) s.

(** [s[:hi]] *)
Definition slice_to (s : str) (hi : Z) : str :=
  firstn (Z.to_nat (clamp_index (len s) hi)) s.

(** [sep.join(parts)] *)
Fixpoint join (sep : str) (parts : list str) : str :=
  match parts with
  | [] => []
  | [p] => p
  | p :: ps => p ++ sep ++ join sep ps
  end.

(** The line boundaries of [str.splitlines]. *)
Definition is_linebreak (c : char) : bool :=
  (in_range 10 13 c || in_range 28 30 c || N.eqb c 133
   || N.eqb c 8232 || N.eqb c 8233)%bool%N.

(** [s.splitlines()]; [cur] holds the current line, reversed.  A carriage
    return followed by a line feed is one boundary, and a final boundary
    does not open an empty last line. *)
Fixpoint splitlines_from (s : str) (cur : str) : list str :=
  match s with
  | [] => match cur with [] => [] | _ :: _ => [rev cur] end
  | c :: s' =>
      if is_linebreak c then
        rev cur ::
        match s' with
        | d :: s'' =>
            if (N.eqb c 13 && N.eqb d 10)%bool
            then splitlines_from s'' []
            else splitlines_from s' []
        | [] => splitlines_from s' []
        end
      else splitlines_from s' (c :: cur)
  end.

Definition splitlines (s : str) : list str := splitlines_from s [].

(** [str(n)] for an int. *)
Definition str_of_int (n : Z) : str :=
  lit (NilZero.string_of_int (Z.to_int n)).

Fixpoint starts_with (p s : str) : bool :=
  match p, s with
  | [], _ => true
  | a :: p', b :: s' => (N.eqb a b && starts_with p' s')%bool
  | _ :: _, [] => false
  end.

(** [needle in s] *)
Fixpoint contains (needle s : str) : bool :=
  match s with
  | [] => starts_with needle []
  | _ :: s' => (starts_with needle s || contains needle s')%bool
  end.

(** [s.replace(old, new)] for a non-empty [old]: occurrences are replaced
    from left to right and do not overlap.  [skip] counts the characters of
    the occurrence being replaced that are still to be dropped. *)
Fixpoint replace_from (old new s : str) (skip : nat) : str :=
  match s with
  | [] => []
  | c :: s' =>
      match skip with
      | S k => replace_from old new s' k
      | O =>
          if starts_with old s
          then new ++ replace_from old new s' (Nat.pred (List.length old))
          else c :: replace_from old new s' 0
      end
  end.

Definition replace (s old new : str) : str := replace_from old new s 0.

End PyStr.

Import PyStr.

(** [replace] shortens a string that contains [old] when [new] is shorter
    than [old]; the blank-line loop terminates by this. *)
Lemma starts_with_length p s :
  starts_with p s = true -> (List.length p <= List.length s)%nat.
Proof.
  revert s; induction p as [|a p IH]; intros [|b s]; simpl; try lia.
  intros H. apply andb_prop in H as [_ H]. apply IH in H. lia.
Qed.

Lemma replace_from_length old new s skip :
  (List.length new <= List.length old)%nat ->
  (List.length (replace_from old new s skip) + Nat.min skip (List.length s)
   <= List.length s)%nat.
Proof.
  intros Hle. revert skip.
  induction s as [|c s IH]; intros skip; simpl.
  - lia.
  - destruct skip as [|k].
    + destruct (starts_with old (c :: s)) eqn:E.
      * apply starts_with_length in E. simpl in E.
        specialize (IH (Nat.pred (List.length old))).
        rewrite length_app. lia.
      * specialize (IH 0%nat). simpl. lia.
    + specialize (IH k). lia.
Qed.

Lemma replace_shrinks old new s :
  (List.length new < List.length old)%nat ->
  old <> [] ->
  contains old s = true ->
  (List.length (replace s old new) < List.length s)%nat.
Proof.
  intros Hlt Hne. unfold replace.
  induction s as [|c s IH]; intros Hc; cbn [contains] in Hc;
    cbn [replace_from].
  - destruct old; [congruence | discriminate].
  - destruct (starts_with old (c :: s)) eqn:E.
    + pose proof (starts_with_length _ _ E) as HL. cbn [List.length] in HL.
      pose proof (replace_from_length old new s
                    (Nat.pred (List.length old)) ltac:(lia)).
      rewrite length_app. cbn [List.length]. lia.
    + cbn [orb] in Hc. apply IH in Hc. cbn [List.length]. lia.
Qed.

(* ===================================================================== *)
(** ** The part of [re] that the scripts use *)
(* ===================================================================== *)

Module Re.

(** One-character atoms: a literal, a (possibly negated) set of ranges, and
    the class [\s]. *)
Inductive atom :=
| ALit (c : char)
| ASet (negated : bool) (ranges : list (char * char))
| ASpace.

(** A pattern is a sequence of items: one character, a greedy star over
    one character, an alternation of literal words, and the two ends of
    capture group 1.  [a+] is written [One a; Star a]. *)
Inductive item :=
| One (a : atom)
| Star (a : atom)
| Alt (words : list str)
| GOpen
| GClose.

Definition pattern := list item.

Definition atom_ok (a : atom) (c : char) : bool :=
  match a with
  | ALit d => N.eqb c d
  | ASet neg rs => xorb neg (existsb (fun r => in_range (fst r) (snd r) c) rs)
  | ASpace => isspace c
  end.

Definition literal (s : string) : pattern :=
  List.map (fun c => One (ALit c)) (lit s).

Definition plus (a : atom) : pattern := [One a; Star a].

(** Backtracking matcher anchored at the head of [s].  [k] counts the
    characters consumed so far, [g] holds the offsets of group 1.  A star is
    greedy: it first tries to take one more character and falls back to the
    rest of the pattern.  An alternation tries its words in order. *)
Fixpoint match_here (p : pattern) (s : str) (k : nat) (g : nat * nat)
  : option (nat * (nat * nat)) :=
  match p with
  | [] => Some (k, g)
  | One a :: p' =>
      match s with
      | c :: s' => if atom_ok a c then match_here p' s' (S k) g else None
      | [] => None
      end
  | Star a :: p' =>
      (fix star (s : str) (k : nat) {struct s} :=
         match s with
         | c :: s' =>
             if atom_ok a c then
               match star s' (S k) with
               | Some r => Some r
               | None => match_here p' s k g
               end
             else match_here p' s k g
         | [] => match_here p' s k g
         end) s k
  | Alt ws :: p' =>
      (fix alt (ws : list str) :=
         match ws with
         | [] => None
         | w :: ws' =>
             if starts_with w s then
               match match_here p' (skipn (List.length w) s)
                                (k + List.length w) g with
               | Some r => Some r
               | None => alt ws'
               end
             else alt ws'
         end) ws
  | GOpen :: p' => match_here p' s k (k, snd g)
  | GClose :: p' => match_here p' s k (fst g, k)
  end.

(** [pattern.match(s)]: length of the match at the head of [s] and the
    offsets of group 1. *)
Definition match_at (p : pattern) (s : str) : option (nat * (nat * nat)) :=
  match_here p s 0%nat (0%nat, 0%nat).

(** A match object: [start()], [end()] and the span of group 1. *)
Record rmatch := mk_match {
  m_start : Z;
  m_end : Z;
  m_group1 : Z * Z
}.

(** [pattern.finditer(s)]: non-overlapping matches from left to right.  The
    patterns of the scripts never match the empty string, so only non-empty
    matches are reported; after a match of length [S n] the next [n]
    characters are skipped. *)
Fixpoint scan (p : pattern) (s : str) (pos skip : nat) : list rmatch :=
  match s with
  | [] => []
  | _ :: s' =>
      match skip with
      | S k => scan p s' (S pos) k
      | O =>
          match match_at p s with
          | Some (S n, (go, gc)) =>
              mk_match (Z.of_nat pos) (Z.of_nat (pos + S n))
                       (Z.of_nat (pos + go), Z.of_nat (pos + gc))
              :: scan p s' (S pos) n
          | _ => scan p s' (S pos) 0%nat
          end
      end
  end.

Definition finditer (p : pattern) (s : str) : list rmatch :=
  scan p s 0%nat 0%nat.

(** [pattern.sub(repl, s)] with a constant replacement. *)
Fixpoint sub_from (p : pattern) (repl s : str) (skip : nat) : str :=
  match s with
  | [] => []
  | c :: s' =>
      match skip with
      | S k => sub_from p repl s' k
      | O =>
          match match_at p s with
          | Some (S n, _) => repl ++ sub_from p repl s' n
          | _ => c :: sub_from p repl s' 0%nat
          end
      end
  end.

Definition sub (p : pattern) (repl s : str) : str := sub_from p repl s 0%nat.

(** [re.sub] for a pattern anchored with [^] (no MULTILINE flag): only a
    match at the start of the text is replaced. *)
Definition sub_at_start (p : pattern) (repl s : str) : str :=
  match match_at p s with
  | Some (n, _) => repl ++ skipn n s
  | None => s
  end.

(** [pattern.search(s) is not None] *)
Fixpoint search (p : pattern) (s : str) : bool :=
  match s with
  | [] => false
  | _ :: s' =>
      match match_at p s with
      | Some (S _, _) => true
      | _ => search p s'
      end
  end.

End Re.

Import Re.

(* ===================================================================== *)
(** ** pdf_to_markdown_with_image_descriptions.py: context helpers *)
(* ===================================================================== *)

(** Ranges and single characters of a set, written as in the pattern. *)
Definition ranges (rs : list (string * string)) : list (char * char) :=
  List.map (fun r => (char_of (fst r), char_of (snd r))) rs.

Definition chars (s : string) : list (char * char) :=
  List.map (fun a => (N_of_ascii a, N_of_ascii a)) (list_ascii_of_string s).

Definition CR : char := 13%N.

(** [!\[[^\]]*\]\((data:image\/[a-zA-Z0-9.+-]+;base64,[A-Za-z0-9+/=\r\n]+)\)]
    The DOTALL flag changes nothing: the pattern has no dot. *)
Definition IMAGE_DATAURI_PATTERN : pattern :=
  literal "![" ++ [Star (ASet true (chars "]"))] ++ literal "](" ++
  [GOpen] ++ literal "data:image/" ++
  plus (ASet false
          (ranges [("a", "z"); ("A", "Z"); ("0", "9")] ++ chars ".+-"))
  ++ literal ";base64," ++
  plus (ASet false
          (ranges [("A", "Z"); ("a", "z"); ("0", "9")] ++ chars "+/="
           ++ [(CR, CR); (NL, NL)]))
  ++ [GClose] ++ literal ")".

(** [!\[[^\]]*\]\([^)]+\)] *)
Definition IMAGE_LINK_PATTERN : pattern :=
  literal "![" ++ [Star (ASet true (chars "]"))] ++ literal "](" ++
  plus (ASet true (chars ")")) ++ literal ")".

(** [\s+] *)
Definition WHITESPACE_PATTERN : pattern := plus ASpace.

Definition strip_images_from_text (text : str) : str :=
  let text := sub IMAGE_DATAURI_PATTERN (lit "[Image]") text in
  let text := sub IMAGE_LINK_PATTERN (lit "[ImageRef]") text in
  text.

Definition collapse_whitespace (text : str) : str :=
  strip (sub WHITESPACE_PATTERN (lit " ") text).

Section ContextWindow.

(** The three environment-configured sizes. *)
Variables CONTEXT_BEFORE_CHARS CONTEXT_AFTER_CHARS MAX_CONTEXT_CHARS : Z.

Definition build_surrounding_context (markdown : str) (start_idx end_idx : Z)
  : str :=
  let before :=
    slice markdown (Z.max 0 (start_idx - CONTEXT_BEFORE_CHARS)) start_idx in
  let after :=
    slice markdown end_idx
          (Z.min (len markdown) (end_idx + CONTEXT_AFTER_CHARS)) in
  let before := strip_images_from_text before in
  let after := strip_images_from_text after in
  let context := before ++ lit " [IMAGE LOCATION] " ++ after in
  let context := collapse_whitespace context in
  if len context >? MAX_CONTEXT_CHARS
  then slice_to context MAX_CONTEXT_CHARS ++ [ELLIPSIS]
  else context.

End ContextWindow.

(* ===================================================================== *)
(** ** Effects: exceptions, the call log and the state monad *)
(* ===================================================================== *)

Module Eff.

(** Exceptions, all of them instances of [Exception].  [LibraryError] stands
    for whatever PyMuPDF, Pillow or the model client raise. *)
Inductive exn :=
| ValueError (msg : str)
| RuntimeError (msg : str)
| UnboundLocalError (name : str)
| ZeroDivisionError
| TypeError (msg : str)
| LibraryError (code : N).

Inductive outcome (A : Type) :=
| Ok (a : A)
| Raise (e : exn).
Arguments Ok {A} a.
Arguments Raise {A} e.

(** Calls that leave the process. *)
Inductive event :=
| EvClient
| EvOpen (path : str)
| EvClose
| EvLoadPage (index : Z)
| EvRasterize (dpi : Z)
| EvSave (format : str) (quality : option Z)
| EvResize (w h : Z)
| EvChat (text : str).

(** The state a run threads: the calls made so far and the [sections] list
    of the orchestrator, which keeps what was appended when an exception
    unwinds. *)
Record state := mk_state {
  events : list event;
  sections : list str
}.

Definition M (A : Type) : Type := state -> state * outcome A.

Definition ret {A} (a : A) : M A := fun st => (st, Ok a).

Definition raise {A} (e : exn) : M A := fun st => (st, Raise e).

Definition bind {A B} (m : M A) (f : A -> M B) : M B :=
  fun st =>
    match m st with
    | (st', Ok a) => f a st'
    | (st', Raise e) => (st', Raise e)
    end.

(** [try: m except Exception as e: h e] *)
Definition try_except {A} (m : M A) (h : exn -> M A) : M A :=
  fun st =>
    match m st with
    | (st', Ok a) => (st', Ok a)
    | (st', Raise e) => h e st'
    end.

(** The state after some more calls. *)
Definition logged (st : state) (evs : list event) : state :=
  mk_state (events st ++ evs) (sections st).

Definition emit (ev : event) : M unit :=
  fun st => (logged st [ev], Ok tt).

(** An external call: logged, then answered by the environment. *)
Definition call {A} (ev : event) (answer : outcome A) : M A :=
  fun st => (logged st [ev], answer).

(** An external call whose answer may depend on the calls made before. *)
Definition call_hist {A} (ev : event) (answer : list event -> outcome A)
  : M A :=
  fun st => (logged st [ev], answer (events st)).

Definition get_sections : M (list str) := fun st => (st, Ok (sections st)).

Definition set_sections (l : list str) : M unit :=
  fun st => (mk_state (events st) l, Ok tt).

(** [sections.append(x)] *)
Definition append_section (x : str) : M unit :=
  fun st => (mk_state (events st) (sections st ++ [x]), Ok tt).

(** [for x in xs: body x] *)
Fixpoint for_each {A} (xs : list A) (body : A -> M unit) : M unit :=
  match xs with
  | [] => ret tt
  | x :: xs' => bind (body x) (fun _ => for_each xs' body)
  end.

Definition init : state := mk_state [] [].

End Eff.

Import Eff.

Notation "x <- m ;; k" := (bind m (fun x => k))
  (at level 61, m at next level, right associativity).
Notation "m ;;; k" := (bind m (fun _ => k))
  (at level 61, right associativity).

(** [range(lo, hi)] *)
Definition py_range (lo hi : Z) : list Z :=
  List.map (fun k => lo + Z.of_nat k) (seq 0 (Z.to_nat (hi - lo))).

(** [range(start, stop, -step)] for a positive [step]. *)
Definition py_range_down (start stop step : Z) : list Z :=
  let n := if start >? stop then (start - stop - 1) / step + 1 else 0 in
  List.map (fun k => start - step * Z.of_nat k) (seq 0 (Z.to_nat n)).

(* ===================================================================== *)
(** ** pdf_to_markdown_full_ocr.py *)
(* ===================================================================== *)

(** [while "\n\n\n" in s: s = s.replace("\n\n\n", "\n\n")] *)
Equations? collapse_blank_lines (s : str) : str
  by wf (List.length s) lt :=
  collapse_blank_lines s with inspect (contains [NL; NL; NL] s) => {
    | exist _ true H =>
        collapse_blank_lines (replace s [NL; NL; NL] [NL; NL]);
    | exist _ false _ => s }.
Proof.
  apply replace_shrinks; [simpl; lia | discriminate | exact H].
Qed.

Definition RENDER_DPI : Z := 280.
Definition MAX_IMAGE_BYTES : Z := 20 * 1024 ^ 2.
Definition JPEG_QUALITY_START : Z := 85.
Definition MIN_JPEG_QUALITY : Z := 35.
Definition DOWNSCALE_FLOOR_PX : Z := 720.
Definition ADD_PAGE_HEADINGS : bool := true.

Definition bytes := list Byte.byte.

Definition blen (b : bytes) : Z := Z.of_nat (List.length b).

(** The float operations of the downscale step, kept abstract: true
    division of two ints, [x ** 0.5], [max(x, 0.2)], [int * float] and
    [int(x)]. *)
Class PyFloat := {
  float : Type;
  truediv : Z -> Z -> float;
  pow_half : float -> float;
  fmax : float -> float -> float;
  f_0_2 : float;
  mul_int : Z -> float -> float;
  trunc : float -> Z
}.

(** A Pillow image: mode, size and pixel data. *)
Record image (pixels : Type) := mk_image {
  mode : str;
  width : Z;
  height : Z;
  data : pixels
}.
Arguments mk_image {pixels}.
Arguments mode {pixels}.
Arguments width {pixels}.
Arguments height {pixels}.
Arguments data {pixels}.

(** Pillow: pasting onto a white RGB canvas (with or without the alpha band
    as mask), [convert("RGB")], [save] as PNG and as JPEG at a quality, and
    [resize]. *)
Class Pillow := {
  pixels : Type;
  paste_on_white : bool -> image pixels -> pixels;
  convert_rgb : image pixels -> pixels;
  save_png : image pixels -> outcome bytes;
  save_jpeg : image pixels -> Z -> outcome bytes;
  resize_lanczos : image pixels -> Z -> Z -> outcome (image pixels)
}.

(** PyMuPDF: the document handle and page rasterisation. *)
Class PyMuPDF {PIL : Pillow} := {
  doc : Type;
  page : Type;
  fitz_open : str -> outcome doc;
  page_count : doc -> Z;
  load_page : doc -> Z -> outcome page;
  rasterize : page -> Z -> outcome (image pixels)
}.

(** The model client.  An answer may depend on the calls made before, and
    its content may be [None]. *)
Class ModelClient := {
  client : Type;
  make_client : str -> outcome client;
  chat_create :
    list event -> client -> str -> str -> str -> outcome (option str)
}.

(** What the script reads from its environment and its fixed texts:
    the endpoint variable, the two prompts and [base64.b64encode]. *)
Class Ambient := {
  PROJECT_ENDPOINT : option str;
  SYSTEM_PROMPT : str;
  USER_INSTRUCTION : str;
  b64encode : bytes -> str
}.

Definition IMAGE_WORDS : list str := [lit "image"; lit "Image"; lit "IMAGE"].

(** [^\s*(image|Image|IMAGE)\s*:], tried at the start of a line. *)
Definition IMAGE_PREFIX_PATTERN : pattern :=
  [Star ASpace; GOpen; Alt IMAGE_WORDS; GClose; Star ASpace]
  ++ literal ":".

(** [^\s*(?:image|Image|IMAGE)\s*:\s*] *)
Definition IMAGE_PREFIX_STRIP_PATTERN : pattern :=
  [Star ASpace; Alt IMAGE_WORDS; Star ASpace] ++ literal ":"
  ++ [Star ASpace].

Definition normalize_line (line : str) : str :=
  match match_at IMAGE_PREFIX_PATTERN line with
  | Some _ =>
      let rest := sub_at_start IMAGE_PREFIX_STRIP_PATTERN [] line in
      lit "IMAGE: " ++ rest
  | None => line
  end.

Definition normalize_image_prefixes (md : str) : str :=
  strip (join [NL] (List.map normalize_line (splitlines md))).

Section FullOcr.

Context {F : PyFloat} {PIL : Pillow} {PDF : PyMuPDF} {LLM : ModelClient}
        {AMB : Ambient}.

Definition str_eqb (a b : str) : bool :=
  if list_eq_dec N.eq_dec a b then true else false.

Definition mode_in (m : str) (ms : list string) : bool :=
  existsb (fun x => str_eqb m (lit x)) ms.

(** The image the function returns.  For the modes RGBA, LA, P and RGB the
    source never calls [convert]; for any other mode it returns
    [img.convert("RGB")], which Pillow refuses with [ValueError] for a mode
    it cannot convert (for instance "La"): [convert_rgb] stands for the
    result of a conversion that succeeds. *)
Definition _ensure_rgb (img : image pixels) : image pixels :=
  if mode_in (mode img) ["RGBA"; "LA"; "P"] then
    mk_image (lit "RGB") (width img) (height img)
             (paste_on_white (mode_in (mode img) ["RGBA"; "LA"]) img)
  else if negb (str_eqb (mode img) (lit "RGB")) then
    mk_image (lit "RGB") (width img) (height img) (convert_rgb img)
  else img.

Definition save (img : image pixels) (format : string) (quality : option Z)
  : M bytes :=
  call (EvSave (lit format) quality)
       (match quality with
        | None => save_png img
        | Some q => save_jpeg img q
        end).

(** How the quality loop ends: by [return], or by running out of qualities
    with [data] bound to the last payload (or not bound at all). *)
Inductive loop_exit :=
| Returned (payload : bytes)
| Exhausted (last : option bytes).

Fixpoint jpeg_quality_loop (jpeg_img : image pixels) (max_bytes : Z)
         (qs : list Z) (last : option bytes) : M loop_exit :=
  match qs with
  | [] => ret (Exhausted last)
  | q :: qs' =>
      payload <- save jpeg_img "JPEG" (Some q) ;;
      if blen payload <=? max_bytes then ret (Returned payload)
      else jpeg_quality_loop jpeg_img max_bytes qs' (Some payload)
  end.

(** [max((max_bytes / last_len) ** 0.5, 0.2)] *)
Definition downscale_factor (max_bytes last_len : Z) : float :=
  fmax (pow_half (truediv max_bytes last_len)) f_0_2.

Definition image_bytes_with_size_cap (pil_img : image pixels)
           (max_bytes q_start q_min downscale_floor_px : Z)
  : M (bytes * str) :=
  (* 1) PNG first *)
  png_data <- save pil_img "PNG" None ;;
  if blen png_data <=? max_bytes then ret (png_data, lit "image/png") else
  (* 2) JPEG qualities *)
  let jpeg_img := _ensure_rgb pil_img in
  r <- jpeg_quality_loop jpeg_img max_bytes
         (py_range_down q_start (q_min - 1) 10) None ;;
  match r with
  | Returned payload => ret (payload, lit "image/jpeg")
  | Exhausted None => raise (UnboundLocalError (lit "data"))
  | Exhausted (Some last) =>
      (* 3) one downscale *)
      let last_len := blen last in
      if last_len =? 0 then raise ZeroDivisionError
      else if max_bytes <? 0 then
        (* a negative float to the power 0.5 is a complex number *)
        raise (TypeError (lit "'>' not supported between instances of 'float' and 'complex'"))
      else
        let scale := downscale_factor max_bytes last_len in
        let new_w :=
          Z.max downscale_floor_px (trunc (mul_int (width jpeg_img) scale)) in
        let new_h :=
          Z.max downscale_floor_px (trunc (mul_int (height jpeg_img) scale)) in
        resized <- call (EvResize new_w new_h)
                        (resize_lanczos jpeg_img new_w new_h) ;;
        payload <- save resized "JPEG" (Some (Z.max 70 q_min)) ;;
        ret (payload, lit "image/jpeg")
  end.

Definition page_to_capped_data_url (pg : page) (dpi : Z)
  : M (str * (Z * Z)) :=
  pil_img <- call (EvRasterize dpi) (rasterize pg dpi) ;;
  r <- image_bytes_with_size_cap pil_img MAX_IMAGE_BYTES JPEG_QUALITY_START
         MIN_JPEG_QUALITY DOWNSCALE_FLOOR_PX ;;
  let '(blob, mime) := r in
  let b64 := b64encode blob in
  ret (lit "data:" ++ mime ++ lit ";base64," ++ b64,
       (width pil_img, height pil_img)).

Definition get_openai_client : M client :=
  match PROJECT_ENDPOINT with
  | None | Some [] =>
      raise (RuntimeError
               (lit "PROJECT_ENDPOINT env var is required but missing."))
  | Some endpoint => call EvClient (make_client endpoint)
  end.

Definition extract_page_markdown (cl : client) (data_url : str)
           (page_num : Z) : M str :=
  let text :=
    USER_INSTRUCTION ++ lit " (Page " ++ str_of_int page_num ++ lit ")" in
  answer <- call_hist (EvChat text)
              (fun h => chat_create h cl SYSTEM_PROMPT text data_url) ;;
  let content :=
    strip (match answer with Some c => c | None => [] end) in
  ret (normalize_image_prefixes content).

Definition page_heading (page_num : Z) : str :=
  lit "## Page " ++ str_of_int page_num.

Definition page_placeholder (page_num : Z) : str :=
  page_heading page_num ++ [NL; NL] ++
  lit "_Error extracting this page. Try lowering DPI or tokens and re-run._".

(** The [try] block of the page loop for index [i]. *)
Definition page_attempt (cl : client) (d : doc) (add_page_headings : bool)
           (i : Z) : M unit :=
  let page_num := i + 1 in
  pg <- call (EvLoadPage i) (load_page d i) ;;
  r <- page_to_capped_data_url pg RENDER_DPI ;;
  md <- extract_page_markdown cl (fst r) page_num ;;
  let md :=
    if add_page_headings
    then strip (page_heading page_num ++ [NL; NL] ++ md)
    else md in
  append_section md.

(** The body of the page loop: the [try] block and its handler. *)
Definition process_page (cl : client) (d : doc) (add_page_headings : bool)
           (i : Z) : M unit :=
  let page_num := i + 1 in
  try_except
    (page_attempt cl d add_page_headings i)
    (fun _ => append_section (page_placeholder page_num)).

Definition invalid_range_message (s e total : Z) : str :=
  lit "Invalid page range: start=" ++ str_of_int s ++ lit " end=" ++
  str_of_int e ++ lit " (total=" ++ str_of_int total ++ lit ")".

Definition clamp_start (start : option Z) : Z :=
  match start with None => 1 | Some st => Z.max 1 st end.

Definition clamp_end (end_ : option Z) (total : Z) : Z :=
  match end_ with None => total | Some en => Z.min en total end.

Definition pdf_to_markdown_full_vision (pdf_path : str)
           (start end_ : option Z) (add_page_headings : bool) : M str :=
  cl <- get_openai_client ;;
  d <- call (EvOpen pdf_path) (fitz_open pdf_path) ;;
  let total := page_count d in
  let s := clamp_start start in
  let e := clamp_end end_ total in
  if s >? e then
    emit EvClose ;;;
    raise (ValueError (invalid_range_message s e total))
  else
    set_sections [] ;;;
    for_each (py_range (s - 1) e) (process_page cl d add_page_headings) ;;;
    emit EvClose ;;;
    secs <- get_sections ;;
    let final_md := strip (join [NL; NL] secs) in
    ret (collapse_blank_lines final_md).

End FullOcr.

(* ===================================================================== *)
(** ** pdf_to_markdown_with_image_descriptions.py: the splicing loop *)
(* ===================================================================== *)

Section ImageDescriptions.

Variables CONTEXT_BEFORE_CHARS CONTEXT_AFTER_CHARS MAX_CONTEXT_CHARS : Z.

Context {LLM : ModelClient}.
Variable DESCRIBE_PROMPT : str.

(** The image type extracted from the URL is only printed. *)
Definition describe_image (cl : client) (data_url surrounding_context : str)
  : M str :=
  let text := lit "Surrounding context: " ++ surrounding_context in
  answer <- call_hist (EvChat text)
              (fun h => chat_create h cl DESCRIBE_PROMPT text data_url) ;;
  ret (strip (match answer with Some c => c | None => [] end)).

Definition UNAVAILABLE_BLOCK : str :=
  lit "> Image: [description unavailable]" ++ [NL; NL].

Definition image_block (desc : str) : str :=
  match desc with
  | [] => UNAVAILABLE_BLOCK
  | _ :: _ => lit "> Image: " ++ desc ++ [NL; NL]
  end.

(** The [for] loop over the matches; [parts] and [last] are its locals. *)
Fixpoint replace_loop (markdown : str) (cl : option client)
         (ms : list rmatch) (parts : list str) (last : Z)
  : M (list str * Z) :=
  match ms with
  | [] => ret (parts, last)
  | m :: ms' =>
      let parts := parts ++ [slice markdown last (m_start m)] in
      let data_url :=
        slice markdown (fst (m_group1 m)) (snd (m_group1 m)) in
      let context :=
        build_surrounding_context CONTEXT_BEFORE_CHARS CONTEXT_AFTER_CHARS
          MAX_CONTEXT_CHARS markdown (m_start m) (m_end m) in
      desc <- match cl with
              | Some c =>
                  try_except (describe_image c data_url context)
                             (fun _ => ret [])
              | None => ret []
              end ;;
      let parts := parts ++ [image_block desc] in
      replace_loop markdown cl ms' parts (m_end m)
  end.

Definition replace_images_with_text (markdown : str) (cl : option client)
  : M str :=
  let all_matches := finditer IMAGE_DATAURI_PATTERN markdown in
  match all_matches with
  | [] => ret markdown
  | _ :: _ =>
      r <- replace_loop markdown cl all_matches [] 0 ;;
      ret (List.concat (fst r ++ [slice_from markdown (snd r)]))
  end.

End ImageDescriptions.

(* ===================================================================== *)
(** ** pdf_to_markdown_with_image_descriptions.py: the pipeline *)
(* ===================================================================== *)

(** pymupdf4llm: [to_markdown(path, embed_images=True, write_images=False)]. *)
Class PyMuPDF4LLM := {
  to_markdown : str -> outcome str
}.

Section ImagePipeline.

Context {LLM : ModelClient} {AMB : Ambient} {P4 : PyMuPDF4LLM}.
Variables CONTEXT_BEFORE_CHARS CONTEXT_AFTER_CHARS MAX_CONTEXT_CHARS : Z.
Variable DESCRIBE_PROMPT : str.

(** The conversion opens the document itself; it is logged as an open. *)
Definition convert_pdf_to_markdown (pdf_path : str) : M str :=
  call (EvOpen pdf_path) (to_markdown pdf_path).

(** [get_openai_client] of this script is the one of the other script, up
    to a progress message. *)
Definition pdf_to_markdown_with_image_text (pdf_path : str) : M str :=
  md <- convert_pdf_to_markdown pdf_path ;;
  cl <- try_except (c <- get_openai_client ;; ret (Some c))
                   (fun _ => ret None) ;;
  replace_images_with_text CONTEXT_BEFORE_CHARS CONTEXT_AFTER_CHARS
    MAX_CONTEXT_CHARS DESCRIBE_PROMPT md cl.

End ImagePipeline.

(* ===================================================================== *)
(** ** The two command lines *)
(* ===================================================================== *)

(** [os.path] and the output file. *)
Class OsFiles := {
  isfile : str -> bool;
  abspath : str -> str;
  splitext : str -> str * str;
  dirname : str -> str;
  basename : str -> str;
  path_join : str -> str -> str;
  write_text : str -> str -> outcome unit
}.

(** How [main] ends: [sys.exit(code)], the output file written, or an
    exception nobody catches. *)
Inductive finish :=
| Exit (code : Z)
| Written (path content : str)
| Uncaught (e : exn).

(** The parsed arguments of pdf_to_markdown_full_ocr.py. *)
Record vision_args := mk_vision_args {
  va_input_pdf : str;
  va_output : option str;
  va_start : option Z;
  va_end : option Z;
  va_no_page_headings : bool
}.

(** The parsed arguments of pdf_to_markdown_with_image_descriptions.py. *)
Record describe_args := mk_describe_args {
  da_input_pdf : str;
  da_output : option str
}.

Section CommandLines.

Context {F : PyFloat} {PIL : Pillow} {PDF : PyMuPDF} {LLM : ModelClient}
        {AMB : Ambient} {P4 : PyMuPDF4LLM} {OS : OsFiles}.
Variables CONTEXT_BEFORE_CHARS CONTEXT_AFTER_CHARS MAX_CONTEXT_CHARS : Z.
Variable DESCRIBE_PROMPT : str.

(** [args.output or <default>]: an empty string counts as missing. *)
Definition output_or (output : option str) (default : str) : str :=
  match output with
  | Some (c :: o) => c :: o
  | Some [] | None => default
  end.

Definition write_output (path content : str) (st : state)
  : state * finish :=
  match write_text path content with
  | Ok _ => (st, Written path content)
  | Raise e => (st, Uncaught e)
  end.

(** [main] of pdf_to_markdown_full_ocr.py *)
Definition vision_main (args : vision_args) (st : state) : state * finish :=
  let input_pdf := va_input_pdf args in
  if negb (isfile input_pdf) then (st, Exit 1)
  else
    let output_path :=
      output_or (va_output args)
                (fst (splitext (abspath input_pdf)) ++ lit "_vision.md") in
    match pdf_to_markdown_full_vision input_pdf (va_start args)
            (va_end args) (negb (va_no_page_headings args)) st with
    | (st', Raise _) => (st', Exit 2)
    | (st', Ok final_md) => write_output output_path final_md st'
    end.

(** [main] of pdf_to_markdown_with_image_descriptions.py *)
Definition describe_main (args : describe_args) (st : state)
  : state * finish :=
  let input_pdf := da_input_pdf args in
  if negb (isfile input_pdf) then (st, Exit 1)
  else
    let output_path :=
      match da_output args with
      | Some (c :: o) => c :: o
      | Some [] | None =>
          let folder := dirname (abspath input_pdf) in
          let stem := fst (splitext (basename input_pdf)) in
          path_join folder (stem ++ lit ".md")
      end in
    match pdf_to_markdown_with_image_text CONTEXT_BEFORE_CHARS
            CONTEXT_AFTER_CHARS MAX_CONTEXT_CHARS DESCRIBE_PROMPT
            input_pdf st with
    | (st', Raise e) => (st', Uncaught e)
    | (st', Ok result_md) => write_output output_path result_md st'
    end.

End CommandLines.

(* ===================================================================== *)
(** * Vocabulary of the statements *)
(* ===================================================================== *)

(** ** Call logs *)

(** The event of a JPEG save at quality [q]. *)
Definition jpeg_event (q : Z) : event := EvSave (lit "JPEG") (Some q).

Definition is_resize (ev : event) : bool :=
  match ev with EvResize _ _ => true | _ => false end.

(** The number of resize calls in a log. *)
Definition resize_count (evs : list event) : nat :=
  List.length (filter is_resize evs).

(** A computation that only makes external calls: whatever its outcome, the
    [sections] list is untouched. *)
Definition logs_only {A} (m : M A) : Prop :=
  forall st, exists evs, fst (m st) = logged st evs.

(** ** Matches and splicing *)

(** No non-empty match starts at the head of [s]. *)
Definition no_match_at (p : pattern) (s : str) : Prop :=
  forall n g, match_at p s <> Some (S n, g).

(** The text assembled from the gaps between matches and one block per
    match, by the positions of the matches. *)
Fixpoint splice_blocks (w : str) (ms : list rmatch) (blocks : list str)
         (last : Z) : str :=
  match ms, blocks with
  | m :: ms', b :: bs =>
      slice w last (m_start m) ++ b ++ splice_blocks w ms' bs (m_end m)
  | _, _ => slice_from w last
  end.

(** The same text read off the input from left to right: a character where
    no match starts is kept, a match is replaced by a block satisfying [B]
    and reading resumes after it. *)
Inductive spliced (p : pattern) (B : str -> Prop) : str -> str -> Prop :=
| spliced_nil : spliced p B [] []
| spliced_keep c s out :
    no_match_at p (c :: s) ->
    spliced p B s out ->
    spliced p B (c :: s) (c :: out)
| spliced_match s n g b out :
    match_at p s = Some (S n, g) ->
    B b ->
    spliced p B (skipn (S n) s) out ->
    spliced p B s (b ++ out).

(** What replaces an image: the quoted description, or the fixed block when
    there is none. *)
Definition is_image_block (b : str) : Prop :=
  b = UNAVAILABLE_BLOCK \/
  exists desc, desc <> [] /\ b = lit "> Image: " ++ desc ++ [NL; NL].

(** A character that no atom of the pattern accepts. *)
Definition rejects (x : char) (p : pattern) : bool :=
  forallb (fun it =>
             match it with
             | One a | Star a => negb (atom_ok a x)
             | Alt ws => forallb (fun w => negb (existsb (N.eqb x) w)) ws
             | GOpen | GClose => true
             end) p.

(** ** The shape of the data-URI pattern *)

Definition BANG : char := char_of "!".
Definition LBRACKET : char := char_of "[".
Definition RBRACKET : char := char_of "]".
Definition NOT_RBRACKET : atom := ASet true (chars "]").

(** What follows the closing bracket of the alt text. *)
Definition DATAURI_TAIL : pattern := skipn 4 IMAGE_DATAURI_PATTERN.

(** What follows the opening "![" of a marker. *)
Definition ALT_REST : pattern :=
  Star NOT_RBRACKET :: One (ALit RBRACKET) :: DATAURI_TAIL.

(** What stripping does to a window: the first pass replaces exactly the
    matches of the data-URI pattern that [finditer] reports, and every
    marker of the window lies inside one of them; the second pass replaces
    exactly the matches of the image-link pattern in the result of the
    first, and every place where that pattern matches lies in one of
    them. *)
Definition window_cleaned (text : str) : Prop :=
  let marked := sub IMAGE_DATAURI_PATTERN (lit "[Image]") text in
  marked
  = splice_blocks text (finditer IMAGE_DATAURI_PATTERN text)
      (List.map (fun _ => lit "[Image]")
                (finditer IMAGE_DATAURI_PATTERN text)) 0 /\
  (forall k n g,
      match_at IMAGE_DATAURI_PATTERN (skipn k text) = Some (S n, g) ->
      exists m,
        In m (finditer IMAGE_DATAURI_PATTERN text) /\
        m_start m <= Z.of_nat k /\ Z.of_nat (k + S n) <= m_end m) /\
  strip_images_from_text text
  = splice_blocks marked (finditer IMAGE_LINK_PATTERN marked)
      (List.map (fun _ => lit "[ImageRef]")
                (finditer IMAGE_LINK_PATTERN marked)) 0 /\
  (forall k n g,
      match_at IMAGE_LINK_PATTERN (skipn k marked) = Some (S n, g) ->
      exists m,
        In m (finditer IMAGE_LINK_PATTERN marked) /\
        m_start m <= Z.of_nat k < m_end m).

(** ** The capper and the page loop *)

Section Vocabulary.

Context {F : PyFloat} {PIL : Pillow} {PDF : PyMuPDF} {LLM : ModelClient}
        {AMB : Ambient}.

(** The value of [data] after the quality loop has gone through [qs]
    without returning. *)
Fixpoint last_payload (img : image pixels) (qs : list Z)
         (last : option bytes) : option bytes :=
  match qs with
  | [] => last
  | q :: qs' =>
      last_payload img qs'
        (match save_jpeg img q with Ok d => Some d | Raise _ => None end)
  end.

(** The fragment of a page whose [try] block completes. *)
Definition page_fragment (add_page_headings : bool) (page_num : Z)
           (md : str) : str :=
  if add_page_headings
  then strip (page_heading page_num ++ [NL; NL] ++ md)
  else md.

(** What the page loop does, page by page: a page whose [try] block raises
    contributes the placeholder, a page whose [try] block completes
    contributes the fragment that block appended; the next page starts from
    the state the previous one left. *)
Inductive pages_run (cl : client) (d : doc) (h : bool)
  : list Z -> state -> list str -> state -> Prop :=
| pages_done st :
    pages_run cl d h [] st [] st
| pages_failed i rest st st_r e frags st' :
    page_attempt cl d h i st = (st_r, Raise e) ->
    sections st_r = sections st ->
    pages_run cl d h rest
              (mk_state (events st_r)
                        (sections st_r ++ [page_placeholder (i + 1)]))
              frags st' ->
    pages_run cl d h (i :: rest) st (page_placeholder (i + 1) :: frags) st'
| pages_ok i rest st st_r md frags st' :
    page_attempt cl d h i st = (st_r, Ok tt) ->
    sections st_r = sections st ++ [page_fragment h (i + 1) md] ->
    pages_run cl d h rest st_r frags st' ->
    pages_run cl d h (i :: rest) st (page_fragment h (i + 1) md :: frags) st'.

End Vocabulary.

(** ** Logs, whitespace and prompts *)

(** A computation whose new log entries all satisfy [P], whatever its
    outcome and whatever it does to [sections]. *)
Definition emits {A} (P : event -> Prop) (m : M A) : Prop :=
  forall st, exists evs,
    events (fst (m st)) = events st ++ evs /\ Forall P evs.

(** The calls that the work on page index [i] may make: loading that page,
    rasterising, encoding, resizing and asking the model; never the client
    set-up, an open or a close. *)
Definition page_event (i : Z) (ev : event) : Prop :=
  match ev with
  | EvLoadPage j => j = i
  | EvRasterize _ | EvSave _ _ | EvResize _ _ | EvChat _ => True
  | EvClient | EvOpen _ | EvClose => False
  end.

(** The calls made for a page after it is loaded. *)
Definition later_event (ev : event) : Prop :=
  match ev with
  | EvRasterize _ | EvSave _ _ | EvResize _ _ | EvChat _ => True
  | EvLoadPage _ | EvClient | EvOpen _ | EvClose => False
  end.

(** The page indices of the load calls of a log, in the order of the log. *)
Fixpoint loaded_pages (evs : list event) : list Z :=
  match evs with
  | [] => []
  | EvLoadPage i :: evs' => i :: loaded_pages evs'
  | _ :: evs' => loaded_pages evs'
  end.

Definition SPACE : char := 32%N.

(** Every whitespace character is a plain space and is followed by a
    character that is not whitespace, or by nothing. *)
Fixpoint single_spaced (s : str) : Prop :=
  match s with
  | [] => True
  | c :: s' =>
      (isspace c = true ->
       c = SPACE /\
       match s' with d :: _ => isspace d = false | [] => True end) /\
      single_spaced s'
  end.

(** No whitespace at either end: stripping changes nothing. *)
Definition trimmed (s : str) : Prop := lstrip s = s /\ rstrip s = s.

(** The call that asks the model about the image matched by [m]. *)
Definition chat_event (before after max : Z) (markdown : str) (m : rmatch)
  : event :=
  EvChat (lit "Surrounding context: "
          ++ build_surrounding_context before after max markdown
               (m_start m) (m_end m)).

(** A pattern without its group marks. *)
Fixpoint ungroup (p : pattern) : pattern :=
  match p with
  | [] => []
  | GOpen :: p' | GClose :: p' => ungroup p'
  | it :: p' => it :: ungroup p'
  end.

(** The prefix pattern without its group, which is also the stripping
    pattern without its last star. *)
Definition IMAGE_PREFIX_CORE : pattern :=
  [Star ASpace; Alt IMAGE_WORDS; Star ASpace] ++ literal ":".

Section Descriptions.

Context {LLM : ModelClient}.
Variables CONTEXT_BEFORE_CHARS CONTEXT_AFTER_CHARS MAX_CONTEXT_CHARS : Z.
Variable DESCRIBE_PROMPT : str.
Variable markdown : str.
Variable cl : client.

(** The description kept for the image matched by [m] when the calls made
    before are [hist]: the stripped answer, or nothing when the call
    raises or has no content. *)
Definition answer_text (hist : list event) (m : rmatch) : str :=
  let data_url := slice markdown (fst (m_group1 m)) (snd (m_group1 m)) in
  let context :=
    build_surrounding_context CONTEXT_BEFORE_CHARS CONTEXT_AFTER_CHARS
      MAX_CONTEXT_CHARS markdown (m_start m) (m_end m) in
  match chat_create hist cl DESCRIBE_PROMPT
          (lit "Surrounding context: " ++ context) data_url with
  | Ok (Some a) => strip a
  | Ok None => strip []
  | Raise _ => []
  end.

(** The blocks that replace the images of [ms], asked one after the
    other. *)
Fixpoint described (hist : list event) (ms : list rmatch) : list str :=
  match ms with
  | [] => []
  | m :: ms' =>
      image_block (answer_text hist m)
      :: described
           (hist ++ [chat_event CONTEXT_BEFORE_CHARS CONTEXT_AFTER_CHARS
                                MAX_CONTEXT_CHARS markdown m])
           ms'
  end.

End Descriptions.

(* ===================================================================== *)
(** * A small environment and sample inputs *)
(* ===================================================================== *)

(** A stand-in environment on which the scripts can be run: floats in
    millionths, images whose encodings have a size computed from their
    dimensions, a document of four pages whose second page cannot be loaded,
    and a model that always answers " image : Some text ". *)
Module Demo.

Definition fixed_point : PyFloat := {|
  float := Z;
  truediv := fun a b => a * 1000000 / b;
  pow_half := fun x => Z.sqrt (x * 1000000);
  fmax := Z.max;
  f_0_2 := 200000;
  mul_int := fun n x => n * x;
  trunc := fun x => x / 1000000
|}.

Definition zeros (n : Z) : bytes := List.repeat Byte.x00 (Z.to_nat n).

Definition pillow : Pillow := {|
  pixels := unit;
  paste_on_white := fun _ _ => tt;
  convert_rgb := fun _ => tt;
  save_png := fun img => Ok (zeros (width img * height img));
  save_jpeg := fun img q => Ok (zeros (width img * height img * q / 100));
  resize_lanczos := fun img w h => Ok (mk_image (mode img) w h tt)
|}.

Definition pymupdf : @PyMuPDF pillow := {|
  doc := Z;
  page := Z;
  fitz_open := fun _ => Ok 4;
  page_count := fun d => d;
  load_page := fun d i => if i =? 1 then Raise (LibraryError 1) else Ok i;
  rasterize := fun _ _ =>
    Ok (mk_image (lit "RGB") 10 10 tt : image (@pixels pillow))
|}.

Definition model : ModelClient := {|
  client := unit;
  make_client := fun _ => Ok tt;
  chat_create := fun _ _ _ _ _ => Ok (Some (lit " image : Some text "))
|}.

Definition ambient : Ambient := {|
  PROJECT_ENDPOINT := Some (lit "https://example.invalid");
  SYSTEM_PROMPT := lit "system";
  USER_INSTRUCTION := lit "user";
  b64encode := fun _ => lit "AAAA"
|}.

Definition small : image unit := mk_image (lit "RGB") 2 2 tt.
Definition large : image unit := mk_image (lit "RGB") 10 10 tt.

Definition cap :=
  @image_bytes_with_size_cap fixed_point pillow.

Definition run_full_vision :=
  @pdf_to_markdown_full_vision fixed_point pillow pymupdf model ambient.

Definition replace_images :=
  @replace_images_with_text 400 400 1000 model (lit "describe").

End Demo.

Definition sample_path : str := lit "doc.pdf".

(** [s * n] *)
Definition rep (n : nat) (s : str) : str := List.concat (List.repeat s n).

Definition sample_marker : str := lit "![a](data:image/png;base64,AAAA)".

(** A marker between two runs of 67 short image links. *)
Definition crowded_markdown : str :=
  rep 67 (lit "![](x)") ++ sample_marker ++ rep 67 (lit "![](x)").

(** An image link after "!" and before a parenthesised data URI, then a
    marker. *)
Definition reformed_markdown : str :=
  lit "!![a](u)(data:image/png;base64,BBBB) " ++ sample_marker.

(** Further stand-ins: a missing endpoint, a model whose answers are
    blank, a document that cannot be opened, a converter whose text holds one
    embedded image, one that fails, and a file system that holds the sample
    document and refuses to write to one path. *)
Module Sample.

Definition no_endpoint : Ambient := {|
  PROJECT_ENDPOINT := None;
  SYSTEM_PROMPT := lit "system";
  USER_INSTRUCTION := lit "user";
  b64encode := fun _ => lit "AAAA"
|}.

Definition blank_model : ModelClient := {|
  client := unit;
  make_client := fun _ => Ok tt;
  chat_create := fun _ _ _ _ _ => Ok (Some (lit "  "))
|}.

Definition no_document : @PyMuPDF Demo.pillow := {|
  doc := Z;
  page := Z;
  fitz_open := fun _ => Raise (LibraryError 2);
  page_count := fun d => d;
  load_page := fun _ i => Ok i;
  rasterize := fun _ _ =>
    Ok (mk_image (lit "RGB") 10 10 tt : image (@pixels Demo.pillow))
|}.

(** An image with an alpha band. *)
Definition alpha_image : image (@pixels Demo.pillow) :=
  mk_image (lit "RGBA") 3 2 tt.

Definition converted : str := lit "Intro " ++ sample_marker ++ lit " end".

Definition converter : PyMuPDF4LLM := {|
  to_markdown := fun _ => Ok converted
|}.

Definition no_converter : PyMuPDF4LLM := {|
  to_markdown := fun _ => Raise (LibraryError 4)
|}.

Definition files : OsFiles := {|
  isfile := fun p => str_eqb p sample_path;
  abspath := fun p => lit "/work/" ++ p;
  splitext := fun p =>
    (firstn (List.length p - 4) p, skipn (List.length p - 4) p);
  dirname := fun _ => lit "/work";
  basename := fun p => p;
  path_join := fun a b => a ++ lit "/" ++ b;
  write_text := fun path _ =>
    if str_eqb path (lit "/readonly.md") then Raise (LibraryError 3)
    else Ok tt
|}.

Definition vision_main :=
  @vision_main Demo.fixed_point Demo.pillow Demo.pymupdf Demo.model
    Demo.ambient files.

Definition image_pipeline :=
  @pdf_to_markdown_with_image_text Demo.model Demo.ambient converter
    400 400 1000 (lit "describe").

Definition describe_main :=
  @describe_main Demo.model Demo.ambient converter files
    400 400 1000 (lit "describe").

End Sample.

(* ===================================================================== *)
(** * Properties *)
(* ===================================================================== *)

(** ** The blank-line normalisation pass *)

Lemma collapse_blank_lines_clean (s : str) :
  contains [NL; NL; NL] (collapse_blank_lines s) = false.
Proof.
  funelim (collapse_blank_lines s).
  - assumption.
  - assumption.
Qed.

Lemma collapse_blank_lines_fixed (s : str) :
  contains [NL; NL; NL] s = false -> collapse_blank_lines s = s.
Proof.
  intros Hc. funelim (collapse_blank_lines s).
  - congruence.
  - reflexivity.
Qed.

(** C6: the blank-line normalisation pass is idempotent: running the loop
    on its own result changes nothing. *)
Theorem collapse_blank_lines_idempotent (s : str) :
  collapse_blank_lines (collapse_blank_lines s) = collapse_blank_lines s.
Proof.
  apply collapse_blank_lines_fixed, collapse_blank_lines_clean.
Qed.

Example collapse_blank_lines_five :
  collapse_blank_lines (lit "a" ++ [NL; NL; NL; NL; NL] ++ lit "b")
  = lit "a" ++ [NL; NL] ++ lit "b".
Proof. reflexivity. Qed.

(** ** The image size capper *)

Section CapperProperties.

Context {F : PyFloat} {PIL : Pillow}.

Lemma logged_nil st : logged st [] = st.
Proof. destruct st; unfold logged; simpl. now rewrite app_nil_r. Qed.

Lemma logged_logged st a b : logged (logged st a) b = logged st (a ++ b).
Proof. unfold logged; simpl. now rewrite app_assoc. Qed.

Lemma resize_count_jpeg qs : resize_count (List.map jpeg_event qs) = 0%nat.
Proof. induction qs; simpl; auto. Qed.

Lemma ensure_rgb_size (img : image pixels) :
  width (_ensure_rgb img) = width img /\
  height (_ensure_rgb img) = height img.
Proof.
  unfold _ensure_rgb.
  destruct (mode_in _ _); [now simpl|].
  destruct (negb _); now simpl.
Qed.

(** The quality loop only makes JPEG saves, for a prefix of the qualities,
    and a payload it returns fits the budget. *)
Lemma jpeg_quality_loop_run img max_bytes qs last st st' r :
  jpeg_quality_loop img max_bytes qs last st = (st', r) ->
  exists tried,
    st' = logged st (List.map jpeg_event tried) /\
    (forall payload, r = Ok (Returned payload) -> blen payload <= max_bytes).
Proof.
  revert last st. induction qs as [|q qs IH]; intros last st; simpl.
  - unfold ret. intros [= <- <-]. exists []. rewrite logged_nil.
    split; [reflexivity | discriminate].
  - unfold bind, save, call. change (EvSave _ _) with (jpeg_event q).
    destruct (save_jpeg img q) as [payload|e].
    + destruct (blen payload <=? max_bytes) eqn:E.
      * unfold ret. intros [= <- <-]. exists [q]. split; [reflexivity|].
        intros p [= <-]. now apply Z.leb_le.
      * intros H. apply IH in H as (tried & -> & Hp).
        exists (q :: tried). rewrite logged_logged. split; [reflexivity | exact Hp].
    + intros [= <- <-]. exists [q]. split; [reflexivity | discriminate].
Qed.

(** When every quality gives a payload over budget the loop tries them all
    and leaves [data] bound to the last payload. *)
Lemma jpeg_quality_loop_exhausted img max_bytes qs last st :
  Forall (fun q => exists d, save_jpeg img q = Ok d /\ max_bytes < blen d) qs ->
  jpeg_quality_loop img max_bytes qs last st
  = (logged st (List.map jpeg_event qs),
     Ok (Exhausted (last_payload img qs last))).
Proof.
  intros Hall. revert last st.
  induction Hall as [|q qs (d & Hd & Hover) _ IH]; intros last st; simpl.
  - unfold ret. now rewrite logged_nil.
  - unfold bind, save, call. change (EvSave _ _) with (jpeg_event q).
    rewrite Hd. replace (blen d <=? max_bytes) with false by (symmetry; apply Z.leb_gt; lia).
    rewrite IH, logged_logged. reflexivity.
Qed.

Lemma last_payload_last img qs last d :
  qs <> [] ->
  save_jpeg img (List.last qs 0) = Ok d ->
  last_payload img qs last = Some d.
Proof.
  revert last. induction qs as [|q qs IH]; intros last Hne Hd; [congruence|].
  destruct qs as [|q' qs].
  - simpl in *. now rewrite Hd.
  - exact (IH (match save_jpeg img q with Ok d0 => Some d0 | Raise _ => None end)
               ltac:(discriminate) Hd).
Qed.

Lemma py_range_down_nonempty start stop step :
  0 < step -> stop < start -> py_range_down start stop step <> [].
Proof.
  intros Hs Hlt. unfold py_range_down.
  replace (start >? stop) with true by (symmetry; apply Z.gtb_lt; lia).
  assert (0 <= (start - stop - 1) / step) by (apply Z.div_pos; lia).
  destruct (Z.to_nat ((start - stop - 1) / step + 1)) eqn:E; [lia|].
  discriminate.
Qed.

Lemma resize_count_app a b :
  resize_count (a ++ b) = (resize_count a + resize_count b)%nat.
Proof. unfold resize_count. now rewrite filter_app, length_app. Qed.

Lemma resize_count_cons ev l :
  resize_count (ev :: l)
  = ((if is_resize ev then 1 else 0) + resize_count l)%nat.
Proof. unfold resize_count. simpl. now destruct (is_resize ev). Qed.

Ltac count_resizes :=
  repeat rewrite ?resize_count_cons, ?resize_count_app, ?resize_count_jpeg;
  reflexivity.

(** C1: a payload the capper returns fits the budget, unless it is the
    result of the final downscale-and-re-encode step; the lossless step and
    the quality steps (the runs without a resize) never return a payload
    over budget. *)
Theorem cap_within_budget_or_downscaled
        (img : image pixels) (max_bytes q_start q_min floor : Z)
        (st st' : state) (payload : bytes) (mime : str) :
  image_bytes_with_size_cap img max_bytes q_start q_min floor st
  = (st', Ok (payload, mime)) ->
  exists evs,
    st' = logged st evs /\
    ((resize_count evs = 0%nat /\ blen payload <= max_bytes) \/
     (exists pre w h resized,
         evs = pre ++ [EvResize w h; jpeg_event (Z.max 70 q_min)] /\
         resize_count pre = 0%nat /\
         resize_lanczos (_ensure_rgb img) w h = Ok resized /\
         save_jpeg resized (Z.max 70 q_min) = Ok payload)).
Proof.
  unfold image_bytes_with_size_cap, bind at 1, save at 1, call.
  destruct (save_png img) as [png|e]; [|discriminate].
  destruct (blen png <=? max_bytes) eqn:Epng.
  - unfold ret. intros [= <- <- <-]. eexists; split; [reflexivity|].
    left. split; [reflexivity | now apply Z.leb_le].
  - unfold bind at 1.
    destruct (jpeg_quality_loop _ _ _ _ _) as [st1 r] eqn:Eloop.
    apply jpeg_quality_loop_run in Eloop as (tried & -> & Hfit).
    rewrite logged_logged.
    destruct r as [[p | [last|]] | e]; try discriminate.
    + unfold ret. intros [= <- <- <-]. eexists; split; [reflexivity|].
      left. split.
      * count_resizes.
      * now apply Hfit.
    + destruct (blen last =? 0); [discriminate|].
      destruct (max_bytes <? 0); [discriminate|].
      unfold bind at 1, call.
      destruct (resize_lanczos _ _ _) as [resized|e] eqn:Er; [|discriminate].
      unfold bind, save, call, ret. rewrite logged_logged.
      destruct (save_jpeg resized _) as [p|e] eqn:Es; [|discriminate].
      rewrite logged_logged.
      intros [= <- <- <-]. eexists; split; [reflexivity|].
      right.
      exists ([EvSave (lit "PNG") None] ++ List.map jpeg_event tried).
      eexists _, _, resized. split; [|split; [|split]].
      * rewrite <- !app_assoc. reflexivity.
      * count_resizes.
      * exact Er.
      * exact Es.
Qed.

(** C2: when the PNG encoding fits the budget the capper returns exactly
    that encoding, tagged image/png, and the PNG save is the only call it
    makes. *)
Theorem cap_returns_lossless_when_it_fits
        (img : image pixels) (max_bytes q_start q_min floor : Z)
        (st : state) (png : bytes) :
  save_png img = Ok png ->
  blen png <= max_bytes ->
  image_bytes_with_size_cap img max_bytes q_start q_min floor st
  = (logged st [EvSave (lit "PNG") None], Ok (png, lit "image/png")).
Proof.
  intros Hpng Hfit.
  unfold image_bytes_with_size_cap, bind, save, call. rewrite Hpng.
  apply Z.leb_le in Hfit. rewrite Hfit. reflexivity.
Qed.

(** C7: when the PNG and every JPEG quality are over budget, the capper
    resizes exactly once.  The scale factor is the square root of the
    budget divided by the size of the last JPEG payload, clamped below at
    0.2: [max((max_bytes / last_len) ** 0.5, 0.2)]; the width and the
    height asked for are [max(floor, int(edge * scale))], both at least the
    floor; the resized image is encoded once more at quality
    [max(70, q_min)]. *)
Theorem cap_downscales_once_above_floor
        (img : image pixels) (max_bytes q_start q_min floor : Z)
        (st : state) (png last : bytes) :
  0 <= max_bytes ->
  q_min <= q_start ->
  save_png img = Ok png ->
  max_bytes < blen png ->
  Forall (fun q => exists d, save_jpeg (_ensure_rgb img) q = Ok d /\
                             max_bytes < blen d)
         (py_range_down q_start (q_min - 1) 10) ->
  save_jpeg (_ensure_rgb img)
            (List.last (py_range_down q_start (q_min - 1) 10) 0) = Ok last ->
  let scale := fmax (pow_half (truediv max_bytes (blen last))) f_0_2 in
  let new_w := Z.max floor (trunc (mul_int (width img) scale)) in
  let new_h := Z.max floor (trunc (mul_int (height img) scale)) in
  let tried :=
    EvSave (lit "PNG") None
    :: List.map jpeg_event (py_range_down q_start (q_min - 1) 10)
    ++ [EvResize new_w new_h] in
  floor <= new_w /\ floor <= new_h /\
  exists evs,
    resize_count evs = 1%nat /\
    image_bytes_with_size_cap img max_bytes q_start q_min floor st
    = (logged st evs,
       match resize_lanczos (_ensure_rgb img) new_w new_h with
       | Ok resized =>
           match save_jpeg resized (Z.max 70 q_min) with
           | Ok payload => Ok (payload, lit "image/jpeg")
           | Raise e => Raise e
           end
       | Raise e => Raise e
       end) /\
    evs = match resize_lanczos (_ensure_rgb img) new_w new_h with
          | Ok _ => tried ++ [jpeg_event (Z.max 70 q_min)]
          | Raise _ => tried
          end.
Proof.
  intros Hmax Hq Hpng Hover Hall Hlast scale new_w new_h tried.
  split; [apply Z.le_max_l | split; [apply Z.le_max_l|]].
  assert (Hcount : resize_count tried = 1%nat).
  { unfold tried. count_resizes. }
  exists (match resize_lanczos (_ensure_rgb img) new_w new_h with
          | Ok _ => tried ++ [jpeg_event (Z.max 70 q_min)]
          | Raise _ => tried
          end).
  split; [|split; [|reflexivity]].
  { destruct (resize_lanczos _ _ _); [|exact Hcount].
    rewrite resize_count_app, Hcount. reflexivity. }
  unfold image_bytes_with_size_cap, bind at 1, save at 1, call.
  rewrite Hpng.
  replace (blen png <=? max_bytes) with false by (symmetry; apply Z.leb_gt; lia).
  unfold bind at 1.
  rewrite (jpeg_quality_loop_exhausted _ _ _ _ _ Hall), logged_logged.
  rewrite (last_payload_last _ _ _ last
             (py_range_down_nonempty q_start (q_min - 1) 10
                ltac:(lia) ltac:(lia)) Hlast).
  assert (Hlen : max_bytes < blen last).
  { pose proof (py_range_down_nonempty q_start (q_min - 1) 10
                  ltac:(lia) ltac:(lia)) as Hne.
    apply exists_last in Hne as (front & q & Heq).
    rewrite Heq in Hall, Hlast. rewrite last_last in Hlast.
    apply Forall_app in Hall as [_ Hq'].
    inversion Hq' as [|? ? (d & Hd & Hd') _]; subst.
    congruence. }
  replace (blen last =? 0) with false by (symmetry; apply Z.eqb_neq; lia).
  replace (max_bytes <? 0) with false by (symmetry; apply Z.ltb_ge; lia).
  destruct (ensure_rgb_size img) as [Hw Hh].
  unfold bind at 1, call. rewrite Hw, Hh.
  unfold downscale_factor. fold scale. fold new_w new_h.
  rewrite logged_logged.
  destruct (resize_lanczos (_ensure_rgb img) new_w new_h) as [resized|e].
  - unfold bind, save, call, ret. rewrite logged_logged.
    unfold tried. simpl. rewrite <- !app_assoc. simpl.
    destruct (save_jpeg resized _); reflexivity.
  - unfold tried. reflexivity.
Qed.

End CapperProperties.

(** ** The page orchestrator *)

Section OrchestratorProperties.

Context {F : PyFloat} {PIL : Pillow} {PDF : PyMuPDF} {LLM : ModelClient}
        {AMB : Ambient}.

Lemma logs_only_ret {A} (a : A) : logs_only (ret a).
Proof. intros st. exists []. simpl. now rewrite logged_nil. Qed.

Lemma logs_only_raise {A} e : logs_only (@raise A e).
Proof. intros st. exists []. simpl. now rewrite logged_nil. Qed.

Lemma logs_only_call {A} ev (ans : outcome A) : logs_only (call ev ans).
Proof. intros st. now exists [ev]. Qed.

Lemma logs_only_call_hist {A} ev (ans : list event -> outcome A) :
  logs_only (call_hist ev ans).
Proof. intros st. now exists [ev]. Qed.

Lemma logs_only_bind {A B} (m : M A) (f : A -> M B) :
  logs_only m -> (forall a, logs_only (f a)) -> logs_only (bind m f).
Proof.
  intros Hm Hf st. unfold bind.
  destruct (Hm st) as [evs Hevs].
  destruct (m st) as [st1 [a|e]]; simpl in Hevs; subst st1.
  - destruct (Hf a (logged st evs)) as [evs' Hevs'].
    exists (evs ++ evs'). now rewrite Hevs', logged_logged.
  - now exists evs.
Qed.

Lemma logs_only_jpeg_quality_loop img max_bytes qs last :
  logs_only (jpeg_quality_loop img max_bytes qs last).
Proof.
  revert last. induction qs as [|q qs IH]; intros last; simpl.
  - apply logs_only_ret.
  - apply logs_only_bind; [apply logs_only_call|].
    intros payload. destruct (_ <=? _); [apply logs_only_ret | apply IH].
Qed.

Lemma logs_only_cap img max_bytes q_start q_min floor :
  logs_only (image_bytes_with_size_cap img max_bytes q_start q_min floor).
Proof.
  unfold image_bytes_with_size_cap.
  apply logs_only_bind; [apply logs_only_call|]. intros png.
  destruct (_ <=? _); [apply logs_only_ret|].
  apply logs_only_bind; [apply logs_only_jpeg_quality_loop|].
  intros [p | [last|]]; [apply logs_only_ret | | apply logs_only_raise].
  destruct (_ =? _); [apply logs_only_raise|].
  destruct (_ <? _); [apply logs_only_raise|].
  apply logs_only_bind; [apply logs_only_call|]. intros resized.
  apply logs_only_bind; [apply logs_only_call|]. intros payload.
  apply logs_only_ret.
Qed.

Lemma logs_only_page_to_capped_data_url pg dpi :
  logs_only (page_to_capped_data_url pg dpi).
Proof.
  unfold page_to_capped_data_url.
  apply logs_only_bind; [apply logs_only_call|]. intros img.
  apply logs_only_bind; [apply logs_only_cap|]. intros [blob mime].
  apply logs_only_ret.
Qed.

Lemma logs_only_extract_page_markdown cl url n :
  logs_only (extract_page_markdown cl url n).
Proof.
  unfold extract_page_markdown.
  apply logs_only_bind; [apply logs_only_call_hist|]. intros answer.
  apply logs_only_ret.
Qed.

(** The [try] block either appends one fragment as its last step, or raises
    with [sections] as it found it. *)
Lemma page_attempt_run cl d h i st :
  exists evs,
    (exists md,
        page_attempt cl d h i st
        = (mk_state (events st ++ evs)
                    (sections st ++ [page_fragment h (i + 1) md]), Ok tt))
    \/ (exists e, page_attempt cl d h i st = (logged st evs, Raise e)).
Proof.
  unfold page_attempt.
  set (m := (pg <- call (EvLoadPage i) (load_page d i) ;;
             r <- page_to_capped_data_url pg RENDER_DPI ;;
             extract_page_markdown cl (fst r) (i + 1))).
  assert (Hm : logs_only m).
  { apply logs_only_bind; [apply logs_only_call|]. intros pg.
    apply logs_only_bind; [apply logs_only_page_to_capped_data_url|].
    intros r. apply logs_only_extract_page_markdown. }
  assert (Heq : forall k : str -> M unit,
             (pg <- call (EvLoadPage i) (load_page d i) ;;
              r <- page_to_capped_data_url pg RENDER_DPI ;;
              md <- extract_page_markdown cl (fst r) (i + 1) ;; k md) st
             = (md <- m ;; k md) st).
  { intros k. unfold m, bind.
    destruct (call _ _ st) as [st1 [pg|e]]; [|reflexivity].
    destruct (page_to_capped_data_url _ _ st1) as [st2 [r|e]]; [|reflexivity].
    reflexivity. }
  rewrite Heq. unfold bind.
  destruct (Hm st) as [evs Hevs]. exists evs.
  destruct (m st) as [st1 [md|e]]; simpl in Hevs; subst st1.
  - left. exists md. reflexivity.
  - right. exists e. reflexivity.
Qed.

Lemma page_loop_run cl d h pages st :
  exists frags st',
    for_each pages (process_page cl d h) st = (st', Ok tt) /\
    pages_run cl d h pages st frags st' /\
    sections st' = sections st ++ frags.
Proof.
  revert st. induction pages as [|i pages IH]; intros st.
  - exists [], st. simpl. rewrite app_nil_r. repeat split. constructor.
  - cbn [for_each]. unfold bind, process_page, try_except.
    destruct (page_attempt_run cl d h i st) as [evs [[md Hok] | [e Hraise]]].
    + rewrite Hok.
      destruct (IH (mk_state (events st ++ evs)
                             (sections st ++ [page_fragment h (i + 1) md])))
        as (frags & st' & Hrun & Hpages & Hsec).
      exists (page_fragment h (i + 1) md :: frags), st'.
      split; [exact Hrun | split].
      * eapply pages_ok; [exact Hok | reflexivity | exact Hpages].
      * rewrite Hsec. simpl. now rewrite <- app_assoc.
    + rewrite Hraise. unfold append_section. cbn [events sections logged].
      destruct (IH (mk_state (events st ++ evs)
                             (sections st ++ [page_placeholder (i + 1)])))
        as (frags & st' & Hrun & Hpages & Hsec).
      exists (page_placeholder (i + 1) :: frags), st'.
      split; [exact Hrun | split].
      * eapply pages_failed; [exact Hraise | reflexivity | exact Hpages].
      * rewrite Hsec. simpl. now rewrite <- app_assoc.
Qed.

Lemma pages_run_length cl d h pages st frags st' :
  pages_run cl d h pages st frags st' ->
  List.length frags = List.length pages.
Proof. induction 1; simpl; congruence. Qed.

Lemma py_range_length lo hi :
  List.length (py_range lo hi) = Z.to_nat (hi - lo).
Proof. unfold py_range. now rewrite length_map, length_seq. Qed.

(** The run of the orchestrator once the client and the document are there:
    an empty range closes the document and raises; otherwise the loop runs
    over the pages, the document is closed and the text is assembled. *)
Lemma full_vision_run path start end_ h st st1 cl d :
  get_openai_client st = (st1, Ok cl) ->
  fitz_open path = Ok d ->
  let s := clamp_start start in
  let e := clamp_end end_ (page_count d) in
  (e < s ->
   pdf_to_markdown_full_vision path start end_ h st
   = (logged st1 [EvOpen path; EvClose],
      Raise (ValueError (invalid_range_message s e (page_count d))))) /\
  (s <= e ->
   exists frags st2,
     pages_run cl d h (py_range (s - 1) e)
               (mk_state (events st1 ++ [EvOpen path]) []) frags st2 /\
     sections st2 = frags /\
     pdf_to_markdown_full_vision path start end_ h st
     = (logged st2 [EvClose],
        Ok (collapse_blank_lines (strip (join [NL; NL] frags))))).
Proof.
  intros Hcl Hopen s e.
  assert (Hstep :
    pdf_to_markdown_full_vision path start end_ h st
    = (if s >? e then
         emit EvClose ;;;
         raise (ValueError (invalid_range_message s e (page_count d)))
       else
         set_sections [] ;;;
         for_each (py_range (s - 1) e) (process_page cl d h) ;;;
         emit EvClose ;;;
         secs <- get_sections ;;
         ret (collapse_blank_lines (strip (join [NL; NL] secs))))
        (logged st1 [EvOpen path])).
  { unfold pdf_to_markdown_full_vision, bind at 1. rewrite Hcl.
    unfold bind at 1, call. rewrite Hopen. reflexivity. }
  rewrite Hstep. clear Hstep.
  split; intros Hse.
  - replace (s >? e) with true by (symmetry; apply Z.gtb_lt; lia).
    unfold bind, emit, raise. rewrite logged_logged. reflexivity.
  - replace (s >? e) with false
      by (rewrite Z.gtb_ltb; symmetry; apply Z.ltb_ge; lia).
    unfold bind at 1, set_sections. cbn [events sections logged].
    unfold bind at 1.
    destruct (page_loop_run cl d h (py_range (s - 1) e)
                (mk_state (events st1 ++ [EvOpen path]) []))
      as (frags & st2 & Hrun & Hpages & Hsec).
    rewrite Hrun. simpl in Hsec.
    exists frags, st2. split; [exact Hpages | split; [exact Hsec|]].
    unfold bind, emit, get_sections, ret. cbn [sections logged].
    now rewrite Hsec.
Qed.

Lemma pages_run_shape cl d h pages st frags st' :
  pages_run cl d h pages st frags st' ->
  Forall2 (fun i frag =>
             frag = page_placeholder (i + 1) \/
             exists md, frag = page_fragment h (i + 1) md)
          pages frags.
Proof.
  induction 1; constructor; eauto.
Qed.

(** C5: with the client and the document at hand and a non-empty range,
    the run returns the assembled text of exactly one fragment per requested
    page, in page order; a page whose [try] block raises (loading,
    rendering, encoding or the model call) contributes the placeholder of
    its page number, and the loop goes on with the next page
    ([pages_run]). *)
Theorem full_vision_one_fragment_per_page
        (path : str) (start end_ : option Z) (h : bool)
        (st st1 : state) (cl : client) (d : doc) :
  get_openai_client st = (st1, Ok cl) ->
  fitz_open path = Ok d ->
  clamp_start start <= clamp_end end_ (page_count d) ->
  let s := clamp_start start in
  let e := clamp_end end_ (page_count d) in
  exists frags st2,
    pdf_to_markdown_full_vision path start end_ h st
    = (logged st2 [EvClose],
       Ok (collapse_blank_lines (strip (join [NL; NL] frags)))) /\
    sections st2 = frags /\
    List.length frags = Z.to_nat (e - s + 1) /\
    pages_run cl d h (py_range (s - 1) e)
              (mk_state (events st1 ++ [EvOpen path]) []) frags st2 /\
    Forall2 (fun i frag =>
               frag = page_placeholder (i + 1) \/
               exists md, frag = page_fragment h (i + 1) md)
            (py_range (s - 1) e) frags.
Proof.
  intros Hcl Hopen Hse s e.
  destruct (full_vision_run path start end_ h st st1 cl d Hcl Hopen)
    as [_ Hrun].
  destruct (Hrun Hse) as (frags & st2 & Hpages & Hsec & Heq).
  exists frags, st2. repeat split; try assumption.
  - rewrite (pages_run_length _ _ _ _ _ _ _ Hpages), py_range_length.
    f_equal. fold s e. lia.
  - eapply pages_run_shape; eassumption.
Qed.

(** C9: when the clamped start exceeds the clamped end the run closes the
    document and raises [ValueError] without touching a page; otherwise it
    returns a text, whatever the pages raise. *)
Theorem full_vision_empty_range_aborts
        (path : str) (start end_ : option Z) (h : bool)
        (st st1 : state) (cl : client) (d : doc) :
  get_openai_client st = (st1, Ok cl) ->
  fitz_open path = Ok d ->
  let s := clamp_start start in
  let e := clamp_end end_ (page_count d) in
  (e < s ->
   pdf_to_markdown_full_vision path start end_ h st
   = (logged st1 [EvOpen path; EvClose],
      Raise (ValueError (invalid_range_message s e (page_count d))))) /\
  (s <= e ->
   exists st' md,
     pdf_to_markdown_full_vision path start end_ h st = (st', Ok md)).
Proof.
  intros Hcl Hopen s e.
  destruct (full_vision_run path start end_ h st st1 cl d Hcl Hopen)
    as [Hbad Hgood].
  split; [exact Hbad|].
  intros Hse. destruct (Hgood Hse) as (frags & st2 & _ & _ & Heq).
  eauto.
Qed.

Lemma lstrip_keeps_tail a c b :
  isspace c = false -> exists a', lstrip (a ++ c :: b) = a' ++ c :: b.
Proof.
  intros Hc. induction a as [|x a IH]; simpl.
  - rewrite Hc. now exists [].
  - destruct (isspace x); [exact IH|]. now exists (x :: a).
Qed.

Lemma strip_keeps_prefix c p c' r :
  isspace c = false -> isspace c' = false ->
  exists t, strip ((c :: p) ++ c' :: r) = (c :: p) ++ c' :: t.
Proof.
  intros Hc Hc'. unfold strip. cbn [app lstrip]. rewrite Hc.
  unfold rstrip.
  change (c :: p ++ c' :: r) with ((c :: p) ++ [c'] ++ r).
  rewrite !rev_app_distr. cbn [rev app]. rewrite <- app_assoc. cbn [app].
  destruct (lstrip_keeps_tail (rev r) c' (rev p ++ [c]) Hc') as [a' ->].
  exists (rev a'). rewrite rev_app_distr. cbn [rev].
  rewrite rev_app_distr, rev_involutive. cbn [rev app].
  rewrite <- !app_assoc. reflexivity.
Qed.

Lemma starts_with_app p t : starts_with p (p ++ t) = true.
Proof. induction p; simpl; [reflexivity|]. now rewrite N.eqb_refl. Qed.

Lemma heading_starts_fragment (n : Z) (frag : str) (c c' : char) (p : str) :
  page_heading n = (c :: p) ++ [c'] ->
  isspace c = false -> isspace c' = false ->
  (frag = page_placeholder n \/ exists md, frag = page_fragment true n md) ->
  starts_with (page_heading n) frag = true.
Proof.
  intros Hh Hc Hc' [-> | [md ->]].
  - unfold page_placeholder. apply starts_with_app.
  - unfold page_fragment. rewrite Hh.
    rewrite <- app_assoc. cbn [app].
    destruct (strip_keeps_prefix c p c' ([NL; NL] ++ md) Hc Hc') as [t Ht].
    cbn [app] in Ht. rewrite Ht.
    change (c :: p ++ c' :: t) with ((c :: p) ++ [c'] ++ t).
    rewrite app_assoc. apply starts_with_app.
Qed.

(** C8: for a document of four pages with start 2 and end 3 and page
    headings enabled, the run assembles exactly two fragments; the first
    begins with the heading of page 2 and the second with the heading of
    page 3. *)
Theorem full_vision_pages_two_to_three
        (path : str) (st st1 : state) (cl : client) (d : doc) :
  get_openai_client st = (st1, Ok cl) ->
  fitz_open path = Ok d ->
  page_count d = 4 ->
  exists f2 f3 st2,
    pdf_to_markdown_full_vision path (Some 2) (Some 3) true st
    = (logged st2 [EvClose],
       Ok (collapse_blank_lines (strip (join [NL; NL] [f2; f3])))) /\
    sections st2 = [f2; f3] /\
    starts_with (lit "## Page 2") f2 = true /\
    starts_with (lit "## Page 3") f3 = true.
Proof.
  intros Hcl Hopen Hcount.
  destruct (full_vision_run path (Some 2) (Some 3) true st st1 cl d Hcl Hopen)
    as [_ Hrun].
  rewrite Hcount in Hrun. cbv zeta in Hrun.
  destruct (Hrun ltac:(vm_compute; discriminate))
    as (frags & st2 & Hpages & Hsec & Heq).
  apply pages_run_shape in Hpages.
  change (py_range (clamp_start (Some 2) - 1) (clamp_end (Some 3) 4))
    with [1; 2] in Hpages.
  revert Hsec Heq.
  inversion Hpages as [|i f2 tl fs H2 Hrest]; subst.
  inversion Hrest as [|i f3 tl fs' H3 Hnil]; subst.
  inversion Hnil; subst. intros Hsec Heq.
  exists f2, f3, st2. split; [exact Heq | split; [exact Hsec | split]].
  - apply (heading_starts_fragment 2 f2 (char_of "#") (char_of "2")
                                   (lit "# Page "));
      [reflexivity | reflexivity | reflexivity | exact H2].
  - apply (heading_starts_fragment 3 f3 (char_of "#") (char_of "3")
                                   (lit "# Page "));
      [reflexivity | reflexivity | reflexivity | exact H3].
Qed.

End OrchestratorProperties.

(** ** The matcher and the scan *)

Section RegexProperties.

Lemma match_here_star_nil a p k g :
  match_here (Star a :: p) [] k g = match_here p [] k g.
Proof. reflexivity. Qed.

Lemma match_here_star_cons a p c s k g :
  match_here (Star a :: p) (c :: s) k g
  = if atom_ok a c then
      match match_here (Star a :: p) s (S k) g with
      | Some r => Some r
      | None => match_here p (c :: s) k g
      end
    else match_here p (c :: s) k g.
Proof. reflexivity. Qed.

Lemma match_here_alt_nil p s k g :
  match_here (Alt [] :: p) s k g = None.
Proof. reflexivity. Qed.

Lemma match_here_alt_cons w ws p s k g :
  match_here (Alt (w :: ws) :: p) s k g
  = if starts_with w s then
      match match_here p (skipn (List.length w) s)
                       (k + List.length w) g with
      | Some r => Some r
      | None => match_here (Alt ws :: p) s k g
      end
    else match_here (Alt ws :: p) s k g.
Proof. reflexivity. Qed.

Lemma starts_with_split w s :
  starts_with w s = true -> s = w ++ skipn (List.length w) s.
Proof.
  revert s. induction w as [|a w IH]; intros [|b s]; simpl;
    try reflexivity; try discriminate.
  intros H. apply andb_prop in H as [Hab H].
  apply N.eqb_eq in Hab. subst b. f_equal. now apply IH.
Qed.

(** A match consumes a prefix of the text. *)
Lemma match_here_bound p s k g n g' :
  match_here p s k g = Some (n, g') ->
  (k <= n <= k + List.length s)%nat.
Proof.
  revert s k g. induction p as [|it p IH]; intros s k g.
  - simpl. intros [= <- <-]. lia.
  - destruct it as [a | a | ws | | ].
    + destruct s as [|c s]; simpl; [discriminate|].
      destruct (atom_ok a c); [|discriminate].
      intros H. apply IH in H. simpl. lia.
    + revert k. induction s as [|c s IHs]; intros k.
      * rewrite match_here_star_nil. apply IH.
      * rewrite match_here_star_cons.
        destruct (atom_ok a c).
        -- destruct (match_here (Star a :: p) s (S k) g) as [r|] eqn:E.
           ++ intros [= ->]. apply IHs in E. simpl. lia.
           ++ apply IH.
        -- apply IH.
    + induction ws as [|w ws IHws].
      * rewrite match_here_alt_nil. discriminate.
      * rewrite match_here_alt_cons.
        destruct (starts_with w s) eqn:Ew; [|exact IHws].
        destruct (match_here p _ _ g) as [r|] eqn:E; [|exact IHws].
        intros [= ->]. apply IH in E.
        apply starts_with_length in Ew.
        rewrite length_skipn in E. lia.
    + simpl. apply IH.
    + simpl. apply IH.
Qed.

Lemma match_at_bound p s n g :
  match_at p s = Some (n, g) -> (n <= List.length s)%nat.
Proof. intros H. apply match_here_bound in H. lia. Qed.

(** Skipping the rest of a match is the same as resuming the scan after
    it. *)
Lemma scan_skip p s pos skip :
  scan p s pos skip = scan p (skipn skip s) (pos + skip) 0.
Proof.
  revert pos skip. induction s as [|c s IH]; intros pos skip.
  - now rewrite skipn_nil.
  - destruct skip as [|k].
    + now rewrite Nat.add_0_r.
    + cbn [scan skipn]. rewrite IH. f_equal. lia.
Qed.

Lemma sub_from_skip p repl s skip :
  sub_from p repl s skip = sub_from p repl (skipn skip s) 0.
Proof.
  revert skip. induction s as [|c s IH]; intros skip.
  - now rewrite skipn_nil.
  - destruct skip as [|k]; [reflexivity|]. cbn [sub_from skipn]. apply IH.
Qed.

(** The scan at a position with nothing to skip. *)
Lemma scan_match p c s pos n go gc :
  match_at p (c :: s) = Some (S n, (go, gc)) ->
  scan p (c :: s) pos 0
  = mk_match (Z.of_nat pos) (Z.of_nat (pos + S n))
             (Z.of_nat (pos + go), Z.of_nat (pos + gc))
    :: scan p (skipn (S n) (c :: s)) (pos + S n) 0.
Proof.
  intros H. cbn [scan]. rewrite H, scan_skip. cbn [skipn].
  do 2 f_equal. lia.
Qed.

Lemma scan_no_match p c s pos :
  no_match_at p (c :: s) ->
  scan p (c :: s) pos 0 = scan p s (S pos) 0.
Proof.
  intros H. cbn [scan].
  destruct (match_at p (c :: s)) as [[[|n] [go gc]]|] eqn:E; try reflexivity.
  now apply H in E.
Qed.

Lemma match_at_cases p s :
  (exists n g, match_at p s = Some (S n, g)) \/ no_match_at p s.
Proof.
  destruct (match_at p s) as [[[|n] g]|] eqn:E.
  - right. intros n g'. congruence.
  - left. eauto.
  - right. intros n g'. congruence.
Qed.

(** Matches of a scan start at or after the scan position, are not empty
    and end inside the text. *)
Lemma scan_spans p s pos :
  Forall (fun m => Z.of_nat pos <= m_start m < m_end m /\
                   m_end m <= Z.of_nat (pos + List.length s))
         (scan p s pos 0).
Proof.
  remember (List.length s) as sz eqn:Hlen.
  revert s pos Hlen.
  induction sz as [sz IH] using lt_wf_ind; intros s pos Hlen.
  destruct s as [|c s]; [constructor|].
  destruct (match_at_cases p (c :: s)) as [(n & [go gc] & Hm) | Hno].
  - rewrite (scan_match _ _ _ _ _ _ _ Hm).
    pose proof (match_at_bound _ _ _ _ Hm) as Hb. simpl in Hb, Hlen.
    constructor.
    + cbn [m_start m_end]. lia.
    + assert (Hl : List.length (skipn (S n) (c :: s)) = (sz - S n)%nat).
      { rewrite length_skipn. simpl. lia. }
      eapply Forall_impl;
        [| apply (IH (sz - S n)%nat ltac:(lia) _ (pos + S n)%nat
                     (eq_sym Hl))].
      intros m. cbn beta. lia.
  - rewrite (scan_no_match _ _ _ _ Hno). simpl in Hlen.
    eapply Forall_impl;
      [| apply (IH (List.length s) ltac:(lia) s (S pos) eq_refl)].
    intros m. cbn beta. lia.
Qed.

(** *** Slices at natural positions *)

Lemma skipn_cons_length {A} (l : list A) n c t :
  skipn n l = c :: t -> (n < List.length l)%nat.
Proof.
  intros H. assert (Hl : List.length (skipn n l) = S (List.length t))
    by now rewrite H.
  rewrite length_skipn in Hl. lia.
Qed.

Lemma skipn_cons_next {A} (l : list A) n c t :
  skipn n l = c :: t -> skipn (S n) l = t.
Proof.
  intros H. change (S n) with (1 + n)%nat.
  rewrite <- skipn_skipn, H. reflexivity.
Qed.

Lemma clamp_index_nat n i :
  (i <= n)%nat -> clamp_index (Z.of_nat n) (Z.of_nat i) = Z.of_nat i.
Proof.
  intros H. unfold clamp_index.
  replace (Z.of_nat i <? 0) with false by (symmetry; apply Z.ltb_ge; lia).
  lia.
Qed.

Lemma slice_from_nat w pos :
  (pos <= List.length w)%nat -> slice_from w (Z.of_nat pos) = skipn pos w.
Proof.
  intros H. unfold slice_from, len. rewrite clamp_index_nat by exact H.
  now rewrite Nat2Z.id.
Qed.

Lemma slice_empty w pos :
  (pos <= List.length w)%nat -> slice w (Z.of_nat pos) (Z.of_nat pos) = [].
Proof.
  intros H. unfold slice, len. rewrite clamp_index_nat by exact H.
  now rewrite Z.sub_diag.
Qed.

Lemma slice_step w pos hi c t :
  skipn pos w = c :: t ->
  Z.of_nat pos < hi ->
  slice w (Z.of_nat pos) hi = c :: slice w (Z.of_nat (S pos)) hi.
Proof.
  intros Hs Hhi. pose proof (skipn_cons_length _ _ _ _ Hs) as Hlt.
  unfold slice, len.
  rewrite !clamp_index_nat by lia. rewrite !Nat2Z.id.
  rewrite (skipn_cons_next _ _ _ _ Hs), Hs.
  set (b := clamp_index (Z.of_nat (List.length w)) hi).
  assert (Hb : Z.of_nat pos < b).
  { unfold b, clamp_index.
    replace (hi <? 0) with false by (symmetry; apply Z.ltb_ge; lia). lia. }
  replace (Z.to_nat (b - Z.of_nat pos))
    with (S (Z.to_nat (b - Z.of_nat (S pos)))) by lia.
  reflexivity.
Qed.

(** *** Splicing replacement blocks along the matches of a scan *)

Lemma splice_blocks_keep w ms blocks pos c t :
  skipn pos w = c :: t ->
  Forall (fun m => Z.of_nat (S pos) <= m_start m) ms ->
  splice_blocks w ms blocks (Z.of_nat pos)
  = c :: splice_blocks w ms blocks (Z.of_nat (S pos)).
Proof.
  intros Hs Hms. pose proof (skipn_cons_length _ _ _ _ Hs) as Hlt.
  destruct ms as [|m ms]; [|destruct blocks as [|b bs]]; cbn [splice_blocks].
  - rewrite !slice_from_nat by lia.
    now rewrite (skipn_cons_next _ _ _ _ Hs).
  - rewrite !slice_from_nat by lia.
    now rewrite (skipn_cons_next _ _ _ _ Hs).
  - inversion Hms as [|? ? Hm _]; subst.
    rewrite (slice_step _ _ _ _ _ Hs) by lia. reflexivity.
Qed.

Lemma scan_starts_after p s pos :
  Forall (fun m => Z.of_nat pos <= m_start m) (scan p s pos 0).
Proof.
  eapply Forall_impl; [|apply scan_spans]. intros m. cbn beta. lia.
Qed.

Lemma splice_scan_spliced p (B : str -> Prop) w :
  forall sz pos blocks,
    sz = (List.length w - pos)%nat ->
    (pos <= List.length w)%nat ->
    Forall B blocks ->
    List.length blocks = List.length (scan p (skipn pos w) pos 0) ->
    spliced p B (skipn pos w)
            (splice_blocks w (scan p (skipn pos w) pos 0) blocks
                           (Z.of_nat pos)).
Proof.
  induction sz as [sz IH] using lt_wf_ind.
  intros pos blocks Hlen Hpos HB Hcount.
  destruct (skipn pos w) as [|c t] eqn:Hs.
  - cbn [scan splice_blocks]. rewrite slice_from_nat, Hs by exact Hpos.
    constructor.
  - pose proof (skipn_cons_length _ _ _ _ Hs) as Hlt.
    destruct (match_at_cases p (c :: t)) as [(n & [go gc] & Hm) | Hno].
    + rewrite (scan_match _ _ _ _ _ _ _ Hm) in *.
      destruct blocks as [|b bs]; [discriminate|].
      cbn [splice_blocks m_start m_end].
      rewrite slice_empty by exact Hpos. cbn [app].
      pose proof (match_at_bound _ _ _ _ Hm) as Hb.
      assert (Hl : List.length (c :: t) = (List.length w - pos)%nat)
        by (rewrite <- Hs, length_skipn; reflexivity).
      assert (Hskip : skipn (S n) (c :: t) = skipn (pos + S n) w).
      { rewrite <- Hs, skipn_skipn. f_equal. lia. }
      rewrite Hskip in *.
      eapply spliced_match; [exact Hm | now inversion HB |].
      rewrite Hskip.
      apply (IH (List.length w - (pos + S n))%nat); try lia.
      * now inversion HB.
      * simpl in Hcount. now injection Hcount.
    + rewrite (scan_no_match _ _ _ _ Hno) in *.
      rewrite <- (skipn_cons_next _ _ _ _ Hs) in *.
      rewrite (splice_blocks_keep _ _ _ _ _ _ Hs)
        by apply scan_starts_after.
      apply spliced_keep.
      * exact Hno.
      * apply (IH (List.length w - S pos)%nat); try lia; assumption.
Qed.

Lemma sub_from_match p repl c s n g :
  match_at p (c :: s) = Some (S n, g) ->
  sub_from p repl (c :: s) 0
  = repl ++ sub_from p repl (skipn (S n) (c :: s)) 0.
Proof.
  intros H. cbn [sub_from]. rewrite H, sub_from_skip. reflexivity.
Qed.

Lemma sub_from_no_match p repl c s :
  no_match_at p (c :: s) ->
  sub_from p repl (c :: s) 0 = c :: sub_from p repl s 0.
Proof.
  intros H. cbn [sub_from].
  destruct (match_at p (c :: s)) as [[[|n] g]|] eqn:E; try reflexivity.
  now apply H in E.
Qed.

(** [sub] replaces exactly the matches that [finditer] reports. *)
Lemma sub_from_splice p repl w :
  forall sz pos,
    sz = (List.length w - pos)%nat ->
    (pos <= List.length w)%nat ->
    sub_from p repl (skipn pos w) 0
    = splice_blocks w (scan p (skipn pos w) pos 0)
                    (List.map (fun _ => repl) (scan p (skipn pos w) pos 0))
                    (Z.of_nat pos).
Proof.
  induction sz as [sz IH] using lt_wf_ind.
  intros pos Hlen Hpos.
  destruct (skipn pos w) as [|c t] eqn:Hs.
  - cbn [scan splice_blocks List.map sub_from].
    now rewrite slice_from_nat, Hs by exact Hpos.
  - pose proof (skipn_cons_length _ _ _ _ Hs) as Hlt.
    destruct (match_at_cases p (c :: t)) as [(n & [go gc] & Hm) | Hno].
    + rewrite (scan_match _ _ _ _ _ _ _ Hm), (sub_from_match _ _ _ _ _ _ Hm).
      cbn [splice_blocks List.map m_start m_end].
      rewrite slice_empty by exact Hpos. cbn [app].
      pose proof (match_at_bound _ _ _ _ Hm) as Hb.
      assert (Hl : List.length (c :: t) = (List.length w - pos)%nat)
        by (rewrite <- Hs, length_skipn; reflexivity).
      assert (Hskip : skipn (S n) (c :: t) = skipn (pos + S n) w).
      { rewrite <- Hs, skipn_skipn. f_equal. lia. }
      rewrite Hskip. f_equal.
      apply (IH (List.length w - (pos + S n))%nat); lia.
    + rewrite (scan_no_match _ _ _ _ Hno), (sub_from_no_match _ _ _ _ Hno).
      rewrite <- (skipn_cons_next _ _ _ _ Hs).
      rewrite (splice_blocks_keep _ _ _ _ _ _ Hs)
        by apply scan_starts_after.
      f_equal. apply (IH (List.length w - S pos)%nat); lia.
Qed.

Lemma sub_splice p repl w :
  sub p repl w
  = splice_blocks w (finditer p w)
                  (List.map (fun _ => repl) (finditer p w)) 0.
Proof.
  unfold sub, finditer.
  exact (sub_from_splice p repl w (List.length w - 0)%nat 0%nat
                         eq_refl ltac:(lia)).
Qed.

End RegexProperties.

(** ** Replacing embedded images by text *)

Section SplicingProperties.

Context {LLM : ModelClient}.
Variables CONTEXT_BEFORE_CHARS CONTEXT_AFTER_CHARS MAX_CONTEXT_CHARS : Z.
Variable DESCRIBE_PROMPT : str.

Local Abbreviation replace_loop' :=
  (replace_loop CONTEXT_BEFORE_CHARS CONTEXT_AFTER_CHARS MAX_CONTEXT_CHARS
                DESCRIBE_PROMPT).
Local Abbreviation replace_images_with_text' :=
  (replace_images_with_text CONTEXT_BEFORE_CHARS CONTEXT_AFTER_CHARS
                            MAX_CONTEXT_CHARS DESCRIBE_PROMPT).

Lemma image_block_is_block desc : is_image_block (image_block desc).
Proof.
  destruct desc as [|c desc]; [now left|].
  right. exists (c :: desc). split; [discriminate | reflexivity].
Qed.

(** Describing an image never raises out of the loop. *)
Lemma describe_or_blank (cl : option client) data_url context st :
  exists st' desc,
    match cl with
    | Some c =>
        try_except (describe_image DESCRIBE_PROMPT c data_url context)
                   (fun _ => ret [])
    | None => ret []
    end st = (st', Ok desc).
Proof.
  destruct cl as [c|]; [|unfold ret; eauto].
  unfold try_except, describe_image, bind, call_hist, ret.
  destruct (chat_create _ _ _ _ _); eauto.
Qed.

Lemma replace_loop_run markdown cl ms :
  forall parts last st,
  exists st' parts' last' blocks,
    replace_loop' markdown cl ms parts last st = (st', Ok (parts', last')) /\
    Forall is_image_block blocks /\
    List.length blocks = List.length ms /\
    List.concat (parts' ++ [slice_from markdown last'])
    = List.concat parts ++ splice_blocks markdown ms blocks last.
Proof.
  induction ms as [|m ms IH]; intros parts last st.
  - exists st, parts, last, []. cbn [replace_loop splice_blocks].
    repeat split; [constructor|].
    rewrite concat_app. simpl. now rewrite app_nil_r.
  - cbn [replace_loop]. unfold bind at 1.
    destruct (describe_or_blank cl
                (slice markdown (fst (m_group1 m)) (snd (m_group1 m)))
                (build_surrounding_context CONTEXT_BEFORE_CHARS
                   CONTEXT_AFTER_CHARS MAX_CONTEXT_CHARS markdown
                   (m_start m) (m_end m)) st)
      as (st1 & desc & ->).
    destruct (IH ((parts ++ [slice markdown last (m_start m)])
                  ++ [image_block desc]) (m_end m) st1)
      as (st' & parts' & last' & blocks & Hrun & HB & Hlen & Hout).
    exists st', parts', last', (image_block desc :: blocks).
    split; [exact Hrun | split; [|split]].
    + constructor; [apply image_block_is_block | exact HB].
    + simpl. now rewrite Hlen.
    + rewrite Hout, !concat_app. cbn [splice_blocks List.concat].
      rewrite !app_nil_r, <- !app_assoc. reflexivity.
Qed.

Lemma search_false_scan p s pos :
  search p s = false -> scan p s pos 0 = [].
Proof.
  revert pos. induction s as [|c s IH]; intros pos Hs; [reflexivity|].
  cbn [search] in Hs. cbn [scan].
  destruct (match_at p (c :: s)) as [[[|n] [go gc]]|];
    try discriminate; now apply IH.
Qed.

(** C10: [replace_images_with_text] always returns, and its result is the
    input read from left to right with every character outside a match of
    the data-URI pattern kept as it is and in order, and every match
    replaced by a description block or by the fixed
    "[description unavailable]" block; without a match the input is
    returned unchanged. *)
Theorem replace_images_keeps_text_outside_markers
        (markdown : str) (cl : option client) (st : state) :
  exists st' out,
    replace_images_with_text' markdown cl st = (st', Ok out) /\
    spliced IMAGE_DATAURI_PATTERN is_image_block markdown out /\
    (search IMAGE_DATAURI_PATTERN markdown = false -> out = markdown).
Proof.
  unfold replace_images_with_text.
  pose proof (splice_scan_spliced IMAGE_DATAURI_PATTERN is_image_block
                markdown (List.length markdown - 0)%nat 0%nat) as Hsp.
  cbn [skipn] in Hsp. fold (finditer IMAGE_DATAURI_PATTERN markdown) in Hsp.
  destruct (finditer IMAGE_DATAURI_PATTERN markdown) as [|m ms] eqn:Hms.
  - exists st, markdown. split; [reflexivity | split; [|reflexivity]].
    specialize (Hsp [] eq_refl ltac:(lia) ltac:(constructor) eq_refl).
    cbn [splice_blocks] in Hsp.
    rewrite (slice_from_nat markdown 0 ltac:(lia)) in Hsp. exact Hsp.
  - destruct (replace_loop_run markdown cl (m :: ms) [] 0 st)
      as (st' & parts' & last' & blocks & Hrun & HB & Hlen & Hout).
    exists st', (List.concat (parts' ++ [slice_from markdown last'])).
    split; [|split].
    + unfold bind. rewrite Hrun. reflexivity.
    + rewrite Hout. cbn [List.concat app].
      apply (Hsp blocks eq_refl ltac:(lia) HB Hlen).
    + intros Hno. unfold finditer in Hms.
      rewrite (search_false_scan _ _ 0%nat Hno) in Hms. discriminate.
Qed.

End SplicingProperties.

(** ** Image markers in a context window *)

Section MarkerProperties.

(** *** General facts on the matcher *)

(** The length of a match does not depend on the group offsets, and moves
    with the count it starts from. *)
Lemma match_here_shift p :
  forall s k g g2 d,
    option_map fst (match_here p s (d + k) g2)
    = option_map (Nat.add d) (option_map fst (match_here p s k g)).
Proof.
  induction p as [|it p IH]; intros s k g g2 d.
  - reflexivity.
  - destruct it as [a | a | ws | | ].
    + destruct s as [|c s]; simpl; [reflexivity|].
      destruct (atom_ok a c); [|reflexivity].
      rewrite <- (IH s (S k) g g2 d). do 2 f_equal. lia.
    + revert k. induction s as [|c s IHs]; intros k.
      * rewrite !match_here_star_nil. apply IH.
      * rewrite !match_here_star_cons.
        destruct (atom_ok a c); [|apply IH].
        specialize (IHs (S k)).
        replace (d + S k)%nat with (S (d + k)) in IHs by lia.
        destruct (match_here (Star a :: p) s (S (d + k)) g2) as [r2|];
          destruct (match_here (Star a :: p) s (S k) g) as [r|];
          simpl in IHs; try discriminate; [exact IHs | apply IH].
    + induction ws as [|w ws IHws]; [reflexivity|].
      rewrite !match_here_alt_cons.
      destruct (starts_with w s); [|exact IHws].
      pose proof (IH (skipn (List.length w) s) (k + List.length w)%nat
                     g g2 d) as Hp.
      rewrite Nat.add_assoc in Hp.
      destruct (match_here p _ (d + k + List.length w) g2) as [r2|];
        destruct (match_here p _ (k + List.length w) g) as [r|];
        simpl in Hp; try discriminate; [exact Hp | exact IHws].
    + simpl. apply IH.
    + simpl. apply IH.
Qed.

(** Such a character does not occur in what the pattern consumes. *)
Lemma match_here_avoids x p :
  rejects x p = true ->
  forall s k g n g',
    match_here p s k g = Some (n, g') ->
    Forall (fun c => c <> x) (firstn (n - k) s).
Proof.
  induction p as [|it p IH]; intros Hr s k g n g'.
  - simpl. intros [= <- <-]. rewrite Nat.sub_diag. constructor.
  - cbn [rejects forallb] in Hr. apply andb_prop in Hr as [Hit Hr].
    specialize (IH Hr).
    destruct it as [a | a | ws | | ].
    + destruct s as [|c s]; simpl; [discriminate|].
      destruct (atom_ok a c) eqn:Eac; [|discriminate].
      intros H. pose proof (match_here_bound _ _ _ _ _ _ H) as Hb.
      apply IH in H.
      replace (n - k)%nat with (S (n - S k)) by lia. cbn [firstn].
      constructor; [|exact H].
      intros ->. rewrite Eac in Hit. discriminate.
    + revert k. induction s as [|c s IHs]; intros k.
      * rewrite match_here_star_nil. apply IH.
      * rewrite match_here_star_cons.
        destruct (atom_ok a c) eqn:Eac; [|apply IH].
        destruct (match_here (Star a :: p) s (S k) g) as [r|] eqn:E;
          [|apply IH].
        intros [= ->].
        pose proof (match_here_bound _ _ _ _ _ _ E) as Hb.
        apply IHs in E.
        replace (n - k)%nat with (S (n - S k)) by lia. cbn [firstn].
        constructor; [|exact E].
        intros ->. rewrite Eac in Hit. discriminate.
    + induction ws as [|w ws IHws].
      * rewrite match_here_alt_nil. discriminate.
      * cbn [forallb] in Hit. apply andb_prop in Hit as [Hw Hws].
        rewrite match_here_alt_cons.
        destruct (starts_with w s) eqn:Ew; [|exact (IHws Hws)].
        destruct (match_here p _ _ g) as [r|] eqn:E; [|exact (IHws Hws)].
        intros [= ->].
        pose proof (match_here_bound _ _ _ _ _ _ E) as Hb.
        apply IH in E. rewrite (starts_with_split _ _ Ew), firstn_app.
        rewrite firstn_all2 by lia.
        apply Forall_app. split.
        -- apply Forall_forall. intros c Hc ->.
           apply negb_true_iff in Hw.
           assert (existsb (N.eqb x) w = true); [|congruence].
           apply existsb_exists. exists x. split; [exact Hc|].
           apply N.eqb_refl.
        -- replace (n - k - List.length w)%nat
             with (n - (k + List.length w))%nat by lia.
           exact E.
    + simpl. apply IH.
    + simpl. apply IH.
Qed.

Lemma skipn_nth_error {A} (l : list A) n x t :
  skipn n l = x :: t -> nth_error l n = Some x.
Proof.
  intros H. rewrite <- (Nat.add_0_r n), <- nth_error_skipn, H. reflexivity.
Qed.

Lemma avoided_position x p s k g n g' i :
  rejects x p = true ->
  match_here p s k g = Some (n, g') ->
  (i < n - k)%nat ->
  nth_error s i <> Some x.
Proof.
  intros Hr Hm Hi Hx.
  pose proof (match_here_avoids x p Hr _ _ _ _ _ Hm) as Hall.
  rewrite Forall_forall in Hall. apply (Hall x); [|reflexivity].
  apply (nth_error_In _ i). rewrite nth_error_firstn.
  apply Nat.ltb_lt in Hi. now rewrite Hi.
Qed.

(** *** The shape of the data-URI pattern *)

Lemma datauri_shape :
  IMAGE_DATAURI_PATTERN
  = One (ALit BANG) :: One (ALit LBRACKET) :: Star NOT_RBRACKET
    :: One (ALit RBRACKET) :: DATAURI_TAIL.
Proof. reflexivity. Qed.

Lemma datauri_tail_rejects_bang : rejects BANG DATAURI_TAIL = true.
Proof. reflexivity. Qed.

Lemma not_rbracket_ok c :
  atom_ok NOT_RBRACKET c = negb (N.eqb c RBRACKET).
Proof.
  change (atom_ok NOT_RBRACKET c)
    with (negb (N.leb 93 c && N.leb c 93 || false)).
  change RBRACKET with 93%N. rewrite orb_false_r. f_equal.
  destruct (N.eqb_spec c 93), (N.leb_spec 93 c), (N.leb_spec c 93);
    try reflexivity; lia.
Qed.

(** The star over the alt text runs to the first closing bracket. *)
Lemma alt_rest_step c s k g :
  c <> RBRACKET ->
  match_here ALT_REST (c :: s) k g = match_here ALT_REST s (S k) g.
Proof.
  intros Hc. unfold ALT_REST. rewrite match_here_star_cons, not_rbracket_ok.
  apply N.eqb_neq in Hc. rewrite Hc. cbn [negb].
  destruct (match_here _ s (S k) g); [reflexivity|].
  cbn [match_here atom_ok]. now rewrite Hc.
Qed.

Lemma alt_rest_skip a s k g :
  Forall (fun c => c <> RBRACKET) a ->
  match_here ALT_REST (a ++ s) k g
  = match_here ALT_REST s (k + List.length a) g.
Proof.
  intros Ha. revert k. induction Ha as [|c a Hc _ IH]; intros k.
  - simpl. now rewrite Nat.add_0_r.
  - cbn [app List.length]. rewrite (alt_rest_step _ _ _ _ Hc), IH.
    f_equal. lia.
Qed.

Lemma alt_rest_split s k g r :
  match_here ALT_REST s k g = Some r ->
  exists alt rest,
    s = alt ++ RBRACKET :: rest /\
    Forall (fun c => c <> RBRACKET) alt /\
    match_here DATAURI_TAIL rest (S (k + List.length alt)) g = Some r.
Proof.
  revert k. induction s as [|c s IH]; intros k.
  - discriminate.
  - destruct (N.eqb_spec c RBRACKET) as [->|Hc].
    + unfold ALT_REST. rewrite match_here_star_cons, not_rbracket_ok.
      rewrite N.eqb_refl. cbn [negb match_here atom_ok].
      rewrite N.eqb_refl. intros H.
      exists [], s. cbn [app List.length]. rewrite Nat.add_0_r.
      repeat split; [constructor | exact H].
    + rewrite (alt_rest_step _ _ _ _ Hc). intros H.
      apply IH in H as (alt & rest & -> & Halt & Hm).
      exists (c :: alt), rest. cbn [app List.length].
      repeat split; [now constructor|].
      rewrite <- Hm. f_equal. lia.
Qed.

Lemma datauri_head s n g :
  match_at IMAGE_DATAURI_PATTERN s = Some (n, g) ->
  exists s2,
    s = BANG :: LBRACKET :: s2 /\
    match_here ALT_REST s2 2 (0%nat, 0%nat) = Some (n, g).
Proof.
  unfold match_at. rewrite datauri_shape. fold ALT_REST.
  destruct s as [|c1 [|c2 s2]]; cbn [match_here atom_ok]; try discriminate.
  - destruct (N.eqb c1 BANG); discriminate.
  - destruct (N.eqb_spec c1 BANG) as [->|]; [|discriminate].
    destruct (N.eqb_spec c2 LBRACKET) as [->|]; [|discriminate].
    intros H. now exists s2.
Qed.

Lemma Forall_firstn_of {A} (P : A -> Prop) n (l : list A) :
  Forall P l -> Forall P (firstn n l).
Proof.
  intros H. revert n. induction H; intros [|n]; simpl; auto.
Qed.

(** A marker that starts inside a marker ends with it. *)
Lemma datauri_nested s d nA gA nB gB :
  match_at IMAGE_DATAURI_PATTERN s = Some (nA, gA) ->
  (d < nA)%nat ->
  match_at IMAGE_DATAURI_PATTERN (skipn d s) = Some (nB, gB) ->
  (d + nB <= nA)%nat.
Proof.
  intros HA Hd HB.
  destruct d as [|[|d]].
  - cbn [skipn] in HB. rewrite HA in HB. injection HB as <- _. lia.
  - apply datauri_head in HA as (s2 & -> & _).
    cbn [skipn] in HB. apply datauri_head in HB as (t2 & HB & _).
    discriminate.
  - apply datauri_head in HA as (s2 & -> & HA).
    cbn [skipn] in HB. apply datauri_head in HB as (t2 & Ht & HB).
    pose proof (skipn_nth_error _ _ _ _ Ht) as Hbang.
    pose proof (skipn_cons_next _ _ _ _ Ht) as Ht1.
    pose proof (skipn_nth_error _ _ _ _ Ht1) as Hlb.
    pose proof (skipn_cons_next _ _ _ _ Ht1) as Ht2.
    destruct (alt_rest_split _ _ _ _ HA) as (alt & rest & Hs2 & Halt & Htail).
    destruct (Nat.lt_ge_cases (S d) (List.length alt)) as [Hin | Hout].
    + (* the inner "![" lies in the alt text of the outer marker *)
      rewrite <- (firstn_skipn (S (S d)) s2), Ht2 in HA.
      assert (Hpre : firstn (S (S d)) s2 = firstn (S (S d)) alt).
      { rewrite Hs2, firstn_app.
        replace (S (S d) - List.length alt)%nat with 0%nat by lia.
        cbn [firstn]. now rewrite app_nil_r. }
      rewrite alt_rest_skip in HA
        by (rewrite Hpre; now apply Forall_firstn_of).
      assert (Hlen : List.length (firstn (S (S d)) s2) = S (S d)).
      { rewrite Hpre, length_firstn. lia. }
      rewrite Hlen in HA.
      pose proof (match_here_shift ALT_REST t2 2 (0, 0) (0, 0) (S (S d)))%nat
        as Hshift.
      replace (S (S d) + 2)%nat with (2 + S (S d))%nat in Hshift by lia.
      rewrite HA, HB in Hshift. cbn [option_map fst] in Hshift.
      injection Hshift as ->. lia.
    + (* otherwise it would sit on the bracket or in the data URI *)
      exfalso. rewrite Hs2 in Hbang, Hlb.
      destruct (Nat.eq_dec (S d) (List.length alt)) as [E1 | N1].
      * rewrite nth_error_app2, E1, Nat.sub_diag in Hlb by lia.
        discriminate.
      * destruct (Nat.eq_dec d (List.length alt)) as [E2 | N2].
        -- rewrite nth_error_app2, E2, Nat.sub_diag in Hbang by lia.
           discriminate.
        -- rewrite nth_error_app2 in Hbang by lia.
           replace (d - List.length alt)%nat
             with (S (d - List.length alt - 1)) in Hbang by lia.
           cbn [nth_error] in Hbang.
           apply (avoided_position BANG DATAURI_TAIL rest _ _ _ _
                    (d - List.length alt - 1)
                    datauri_tail_rejects_bang Htail); [lia | exact Hbang].
Qed.

(** Every place where the pattern matches lies in a match of the scan. *)
Lemma scan_covers p :
  forall sz s pos k n g,
    sz = List.length s ->
    match_at p (skipn k s) = Some (S n, g) ->
    exists m i nA gA,
      In m (scan p s pos 0) /\
      m_start m = Z.of_nat (pos + i) /\
      m_end m = Z.of_nat (pos + i + nA) /\
      match_at p (skipn i s) = Some (nA, gA) /\
      (i <= k < i + nA)%nat.
Proof.
  induction sz as [sz IH] using lt_wf_ind. intros s pos k n g Hsz Hk.
  destruct s as [|c t].
  - rewrite skipn_nil in Hk. apply match_at_bound in Hk. simpl in Hk. lia.
  - destruct (match_at_cases p (c :: t)) as [(n0 & [go gc] & Hm) | Hno].
    + rewrite (scan_match _ _ _ _ _ _ _ Hm).
      destruct (Nat.lt_ge_cases k (S n0)) as [Hin | Hout].
      * eexists _, 0%nat, (S n0), (go, gc).
        split; [left; reflexivity|]. cbn [m_start m_end skipn].
        rewrite Nat.add_0_r. repeat split; try assumption; lia.
      * pose proof (match_at_bound _ _ _ _ Hm) as Hb.
        replace k with ((k - S n0) + S n0)%nat in Hk by lia.
        rewrite <- skipn_skipn in Hk.
        destruct (IH (List.length (skipn (S n0) (c :: t)))
                     ltac:(rewrite length_skipn; simpl in *; lia)
                     (skipn (S n0) (c :: t)) (pos + S n0)%nat
                     (k - S n0)%nat n g eq_refl Hk)
          as (m & i & nA & gA & Hin' & Hst & Hen & Hmi & Hik).
        exists m, (i + S n0)%nat, nA, gA.
        split; [right; exact Hin'|].
        rewrite skipn_skipn in Hmi.
        repeat split; try assumption; try lia.
    + rewrite (scan_no_match _ _ _ _ Hno).
      destruct k as [|k]; [now apply Hno in Hk|].
      cbn [skipn] in Hk.
      destruct (IH (List.length t) ltac:(simpl in *; lia) t (S pos) k n g
                   eq_refl Hk)
        as (m & i & nA & gA & Hin' & Hst & Hen & Hmi & Hik).
      exists m, (S i), nA, gA.
      repeat split; try assumption; try lia.
Qed.

Lemma finditer_covers_start p s k n g :
  match_at p (skipn k s) = Some (S n, g) ->
  exists m,
    In m (finditer p s) /\ m_start m <= Z.of_nat k < m_end m.
Proof.
  intros Hk.
  destruct (scan_covers p _ s 0%nat k n g eq_refl Hk)
    as (m & i & nA & gA & Hin & Hst & Hen & _ & Hik).
  exists m. split; [exact Hin|]. lia.
Qed.

Lemma finditer_covers_marker s k n g :
  match_at IMAGE_DATAURI_PATTERN (skipn k s) = Some (S n, g) ->
  exists m,
    In m (finditer IMAGE_DATAURI_PATTERN s) /\
    m_start m <= Z.of_nat k /\ Z.of_nat (k + S n) <= m_end m.
Proof.
  intros Hk.
  destruct (scan_covers IMAGE_DATAURI_PATTERN _ s 0%nat k n g eq_refl Hk)
    as (m & i & nA & gA & Hin & Hst & Hen & Hmi & Hik).
  exists m. split; [exact Hin|].
  replace k with ((k - i) + i)%nat in Hk by lia.
  rewrite <- skipn_skipn in Hk.
  pose proof (datauri_nested _ (k - i)%nat _ _ _ _ Hmi ltac:(lia) Hk).
  lia.
Qed.

End MarkerProperties.

(** ** The context window builder *)

Section ContextProperties.

Variables CONTEXT_BEFORE_CHARS CONTEXT_AFTER_CHARS MAX_CONTEXT_CHARS : Z.

Local Abbreviation build_surrounding_context' :=
  (build_surrounding_context CONTEXT_BEFORE_CHARS CONTEXT_AFTER_CHARS
                             MAX_CONTEXT_CHARS).

(** The truncated context is one character longer than the cap: the
    ellipsis comes on top of the [MAX_CONTEXT_CHARS] characters kept. *)
Lemma context_length_bound markdown start_idx end_idx :
  0 <= MAX_CONTEXT_CHARS ->
  len (build_surrounding_context' markdown start_idx end_idx)
  <= MAX_CONTEXT_CHARS + 1.
Proof.
  intros Hmax. unfold build_surrounding_context.
  set (context := collapse_whitespace _).
  destruct (len context >? MAX_CONTEXT_CHARS) eqn:E.
  - unfold slice_to, clamp_index.
    replace (MAX_CONTEXT_CHARS <? 0) with false
      by (symmetry; apply Z.ltb_ge; lia).
    unfold len. rewrite length_app, length_firstn. simpl. lia.
  - rewrite Z.gtb_ltb in E. apply Z.ltb_ge in E. lia.
Qed.

Lemma context_length_truncated markdown start_idx end_idx :
  0 <= MAX_CONTEXT_CHARS ->
  let before :=
    slice markdown (Z.max 0 (start_idx - CONTEXT_BEFORE_CHARS)) start_idx in
  let after :=
    slice markdown end_idx
          (Z.min (len markdown) (end_idx + CONTEXT_AFTER_CHARS)) in
  MAX_CONTEXT_CHARS
  < len (collapse_whitespace
           (strip_images_from_text before ++ lit " [IMAGE LOCATION] "
            ++ strip_images_from_text after)) ->
  len (build_surrounding_context' markdown start_idx end_idx)
  = MAX_CONTEXT_CHARS + 1.
Proof.
  intros Hmax before after Hlong. unfold build_surrounding_context.
  fold before after.
  set (context := collapse_whitespace _) in *.
  replace (len context >? MAX_CONTEXT_CHARS) with true
    by (symmetry; apply Z.gtb_lt; lia).
  unfold len in *. unfold slice_to, clamp_index, len.
  replace (MAX_CONTEXT_CHARS <? 0) with false
    by (symmetry; apply Z.ltb_ge; lia).
  rewrite length_app, length_firstn. simpl. lia.
Qed.

Lemma strip_images_cleans (text : str) : window_cleaned text.
Proof.
  unfold window_cleaned. cbv zeta.
  split; [apply sub_splice | split; [|split]].
  - intros k n g. apply finditer_covers_marker.
  - unfold strip_images_from_text. apply sub_splice.
  - intros k n g. apply finditer_covers_start.
Qed.

(** C4, as amended: the context is built from the two windows after
    stripping, and stripping replaces every embedded-image marker of a
    window by "[Image]" and every image-link match of the result by
    "[ImageRef]" ([window_cleaned]). *)
Theorem context_windows_cleaned (markdown : str) (start_idx end_idx : Z) :
  let before :=
    slice markdown (Z.max 0 (start_idx - CONTEXT_BEFORE_CHARS)) start_idx in
  let after :=
    slice markdown end_idx
          (Z.min (len markdown) (end_idx + CONTEXT_AFTER_CHARS)) in
  let context :=
    collapse_whitespace
      (strip_images_from_text before ++ lit " [IMAGE LOCATION] "
       ++ strip_images_from_text after) in
  build_surrounding_context' markdown start_idx end_idx
  = (if len context >? MAX_CONTEXT_CHARS
     then slice_to context MAX_CONTEXT_CHARS ++ [ELLIPSIS]
     else context) /\
  window_cleaned before /\ window_cleaned after.
Proof.
  intros before after context.
  split; [reflexivity | split; apply strip_images_cleans].
Qed.

End ContextProperties.

(** *** Two inputs at the default sizes (400, 400, 1000) *)

(** C3: the marker of [crowded_markdown] spans 402..434, inside the
    buffer, and its context has 1001 characters with the maximum set to
    1000. *)
Theorem context_exceeds_cap_by_one :
  finditer IMAGE_DATAURI_PATTERN crowded_markdown
  = [mk_match 402 434 (407, 433)] /\
  len crowded_markdown = 836 /\
  len (build_surrounding_context 400 400 1000 crowded_markdown 402 434)
  = 1001.
Proof. vm_compute. repeat split. Qed.

(** The marker of [reformed_markdown] spans 37..69, inside the buffer, and
    its context contains a match of the data-URI pattern. *)
Lemma context_contains_reformed_marker :
  finditer IMAGE_DATAURI_PATTERN reformed_markdown
  = [mk_match 37 69 (42, 68)] /\
  len reformed_markdown = 69 /\
  build_surrounding_context 400 400 1000 reformed_markdown 37 69
  = lit "![ImageRef](data:image/png;base64,BBBB) [IMAGE LOCATION]" /\
  search IMAGE_DATAURI_PATTERN
         (build_surrounding_context 400 400 1000 reformed_markdown 37 69)
  = true.
Proof. vm_compute. repeat split. Qed.

(* ===================================================================== *)
(** * Runs on a small environment *)
(* ===================================================================== *)

(** The large image at a budget of 10 bytes goes through every step and is
    resized to 5 by 5; the result has 17 bytes. *)
Example cap_large_image :
  Demo.cap Demo.large 10 85 35 4 init
  = (mk_state [EvSave (lit "PNG") None;
               EvSave (lit "JPEG") (Some 85); EvSave (lit "JPEG") (Some 75);
               EvSave (lit "JPEG") (Some 65); EvSave (lit "JPEG") (Some 55);
               EvSave (lit "JPEG") (Some 45); EvSave (lit "JPEG") (Some 35);
               EvResize 5 5; EvSave (lit "JPEG") (Some 70)] [],
     Ok (Demo.zeros 17, lit "image/jpeg")).
Proof. vm_compute. reflexivity. Qed.

Lemma cap_within_budget_or_downscaled_witness :
  exists st' payload mime,
    Demo.cap Demo.large 10 85 35 4 init = (st', Ok (payload, mime)) /\
    exists evs,
      st' = logged init evs /\
      ((resize_count evs = 0%nat /\ blen payload <= 10) \/
       (exists pre w h resized,
           evs = pre ++ [EvResize w h; jpeg_event (Z.max 70 35)] /\
           resize_count pre = 0%nat /\
           @resize_lanczos Demo.pillow
             (@_ensure_rgb Demo.pillow Demo.large) w h = Ok resized /\
           @save_jpeg Demo.pillow resized (Z.max 70 35) = Ok payload)).
Proof.
  eexists _, _, _. split.
  - vm_compute. reflexivity.
  - eapply (@cap_within_budget_or_downscaled Demo.fixed_point Demo.pillow
              Demo.large 10 85 35 4 init).
    vm_compute. reflexivity.
Defined.

Lemma cap_returns_lossless_when_it_fits_witness :
  Demo.cap Demo.small 10 85 35 4 init
  = (logged init [EvSave (lit "PNG") None],
     Ok (Demo.zeros 4, lit "image/png")).
Proof.
  apply (@cap_returns_lossless_when_it_fits Demo.fixed_point Demo.pillow
           Demo.small 10 85 35 4 init (Demo.zeros 4)).
  - reflexivity.
  - vm_compute. discriminate.
Defined.

(** With a budget of 10 bytes and a last payload of 35 the factor is
    0.534521 in millionths, over 0.2, and both edges go from 10 to 5. *)
Lemma cap_downscales_once_above_floor_witness :
  exists evs,
    resize_count evs = 1%nat /\
    Demo.cap Demo.large 10 85 35 4 init
    = (logged init evs, Ok (Demo.zeros 17, lit "image/jpeg")) /\
    evs = (EvSave (lit "PNG") None
           :: List.map jpeg_event [85; 75; 65; 55; 45; 35]
           ++ [EvResize 5 5]) ++ [jpeg_event 70].
Proof.
  destruct (@cap_downscales_once_above_floor Demo.fixed_point Demo.pillow
              Demo.large 10 85 35 4 init (Demo.zeros 100) (Demo.zeros 35))
    as (_ & _ & evs & Hcount & Hrun & Hevs).
  - lia.
  - lia.
  - reflexivity.
  - vm_compute. reflexivity.
  - change (py_range_down 85 (35 - 1) 10) with [85; 75; 65; 55; 45; 35].
    repeat (constructor;
            [eexists; split; [reflexivity | vm_compute; reflexivity]|]).
    constructor.
  - reflexivity.
  - exists evs. split; [exact Hcount|]. split; [|exact Hevs].
    unfold Demo.cap. rewrite Hrun. reflexivity.
Defined.

(** Pages 1 to 3 of the sample document: page 2 cannot be loaded and gets
    the placeholder. *)
Example full_vision_pages_one_to_three :
  snd (Demo.run_full_vision sample_path (Some 1) (Some 3) true init)
  = Ok (lit "## Page 1" ++ [NL; NL] ++ lit "IMAGE: Some text" ++ [NL; NL]
        ++ lit "## Page 2" ++ [NL; NL]
        ++ lit "_Error extracting this page. Try lowering DPI or tokens and re-run._"
        ++ [NL; NL] ++ lit "## Page 3" ++ [NL; NL]
        ++ lit "IMAGE: Some text").
Proof. vm_compute. reflexivity. Qed.

Lemma full_vision_one_fragment_per_page_witness :
  exists frags,
    List.length frags = 3%nat /\
    snd (Demo.run_full_vision sample_path (Some 1) (Some 3) true init)
    = Ok (collapse_blank_lines (strip (join [NL; NL] frags))).
Proof.
  destruct (@full_vision_one_fragment_per_page Demo.fixed_point Demo.pillow
              Demo.pymupdf Demo.model Demo.ambient sample_path
              (Some 1) (Some 3) true init (logged init [EvClient]) tt 4)
    as (frags & st2 & Hrun & _ & Hlen & _).
  - reflexivity.
  - reflexivity.
  - vm_compute. discriminate.
  - exists frags. split; [exact Hlen|].
    unfold Demo.run_full_vision. rewrite Hrun. reflexivity.
Defined.

Lemma full_vision_pages_two_to_three_witness :
  exists f2 f3,
    snd (Demo.run_full_vision sample_path (Some 2) (Some 3) true init)
    = Ok (collapse_blank_lines (strip (join [NL; NL] [f2; f3]))) /\
    starts_with (lit "## Page 2") f2 = true /\
    starts_with (lit "## Page 3") f3 = true.
Proof.
  destruct (@full_vision_pages_two_to_three Demo.fixed_point Demo.pillow
              Demo.pymupdf Demo.model Demo.ambient sample_path
              init (logged init [EvClient]) tt 4)
    as (f2 & f3 & st2 & Hrun & _ & H2 & H3).
  - reflexivity.
  - reflexivity.
  - reflexivity.
  - exists f2, f3. split; [|split; assumption].
    unfold Demo.run_full_vision. rewrite Hrun. reflexivity.
Defined.

Lemma full_vision_empty_range_aborts_witness :
  Demo.run_full_vision sample_path (Some 3) (Some 2) true init
  = (logged init [EvClient; EvOpen sample_path; EvClose],
     Raise (ValueError (lit "Invalid page range: start=3 end=2 (total=4)")))
  /\ exists st' md,
       Demo.run_full_vision sample_path (Some 2) (Some 3) true init
       = (st', Ok md).
Proof.
  split.
  - apply (@full_vision_empty_range_aborts Demo.fixed_point Demo.pillow
             Demo.pymupdf Demo.model Demo.ambient sample_path
             (Some 3) (Some 2) true init (logged init [EvClient]) tt 4).
    + reflexivity.
    + reflexivity.
    + vm_compute. reflexivity.
  - apply (@full_vision_empty_range_aborts Demo.fixed_point Demo.pillow
             Demo.pymupdf Demo.model Demo.ambient sample_path
             (Some 2) (Some 3) true init (logged init [EvClient]) tt 4).
    + reflexivity.
    + reflexivity.
    + vm_compute. discriminate.
Defined.

(** The marker of [reformed_markdown] is replaced by the model's answer and
    the text before it is kept. *)
Example replace_images_sample :
  snd (Demo.replace_images reformed_markdown (Some tt) init)
  = Ok (lit "!![a](u)(data:image/png;base64,BBBB) > Image: image : Some text"
        ++ [NL; NL]).
Proof. vm_compute. reflexivity. Qed.

Lemma replace_images_keeps_text_outside_markers_witness :
  exists st',
    Demo.replace_images (lit "plain text") None init
    = (st', Ok (lit "plain text")).
Proof.
  destruct (@replace_images_keeps_text_outside_markers Demo.model
              400 400 1000 (lit "describe") (lit "plain text") None init)
    as (st' & out & Hrun & _ & Hsame).
  exists st'. unfold Demo.replace_images. rewrite Hrun.
  rewrite (Hsame eq_refl). reflexivity.
Defined.

Lemma context_windows_cleaned_witness :
  exists m,
    In m (finditer IMAGE_DATAURI_PATTERN
                   (slice reformed_markdown 37 (Z.min 69 (37 + 400)))) /\
    m_start m <= 0 /\ 32 <= m_end m.
Proof.
  destruct (context_windows_cleaned 400 400 1000 reformed_markdown 0 37)
    as (_ & _ & _ & Hcover & _).
  destruct (Hcover 0%nat 31%nat (5%nat, 31%nat) eq_refl)
    as (m & Hin & Hs & He).
  exists m. split; [exact Hin | split; assumption].
Defined.

(* ===================================================================== *)
(** * Further properties *)
(* ===================================================================== *)

(** ** More on the image size capper *)

Section CapperMore.

Context {F : PyFloat} {PIL : Pillow}.

Lemma str_eqb_eq a b : str_eqb a b = true <-> a = b.
Proof.
  unfold str_eqb. destruct (list_eq_dec N.eq_dec a b); split;
    try congruence; discriminate.
Qed.

Lemma ensure_rgb_fixed (img : image pixels) :
  mode img = lit "RGB" -> _ensure_rgb img = img.
Proof.
  intros Hm. unfold _ensure_rgb. rewrite Hm. reflexivity.
Qed.

Lemma ensure_rgb_mode (img : image pixels) :
  mode (_ensure_rgb img) = lit "RGB".
Proof.
  unfold _ensure_rgb.
  destruct (mode_in _ _); [reflexivity|].
  destruct (str_eqb (mode img) (lit "RGB")) eqn:E; [|reflexivity].
  now apply str_eqb_eq in E.
Qed.

(** X1: for an image of mode RGBA, LA, P or RGB (the modes for which the
    function does not call [convert], which can raise), the image handed
    to the JPEG encoder has mode RGB and the size of the original, and
    converting it again returns it as it is (the same object, pixels
    included). *)
Theorem ensure_rgb_is_rgb (img : image pixels) :
  mode_in (mode img) ["RGBA"; "LA"; "P"; "RGB"] = true ->
  mode (_ensure_rgb img) = lit "RGB" /\
  width (_ensure_rgb img) = width img /\
  height (_ensure_rgb img) = height img /\
  _ensure_rgb (_ensure_rgb img) = _ensure_rgb img.
Proof.
  intros _.
  split; [apply ensure_rgb_mode|].
  destruct (ensure_rgb_size img) as [Hw Hh].
  split; [exact Hw | split; [exact Hh|]].
  apply ensure_rgb_fixed, ensure_rgb_mode.
Qed.

Lemma jpeg_quality_loop_first_fit img max_bytes over q rest d last st :
  Forall (fun q' => exists d', save_jpeg img q' = Ok d' /\
                               max_bytes < blen d') over ->
  save_jpeg img q = Ok d ->
  blen d <= max_bytes ->
  jpeg_quality_loop img max_bytes (over ++ q :: rest) last st
  = (logged st (List.map jpeg_event (over ++ [q])), Ok (Returned d)).
Proof.
  intros Hover Hq Hfit. revert last st.
  induction Hover as [|q' over (d' & Hd' & Hbig) _ IH]; intros last st;
    cbn [app jpeg_quality_loop]; unfold bind, save, call.
  - rewrite Hq. apply Z.leb_le in Hfit. rewrite Hfit. reflexivity.
  - rewrite Hd'.
    replace (blen d' <=? max_bytes) with false
      by (symmetry; apply Z.leb_gt; lia).
    rewrite IH, logged_logged. reflexivity.
Qed.

(** X2: when the PNG is over budget, the capper returns the JPEG of the
    first quality of the descending sequence whose payload fits: the
    qualities above it were tried and were over budget, the qualities below
    it are not tried, and nothing is resized. *)
Theorem cap_returns_first_fitting_quality
        (img : image pixels) (max_bytes q_start q_min floor : Z)
        (st : state) (png d : bytes) (over rest : list Z) (q : Z) :
  save_png img = Ok png ->
  max_bytes < blen png ->
  py_range_down q_start (q_min - 1) 10 = over ++ q :: rest ->
  Forall (fun q' => exists d', save_jpeg (_ensure_rgb img) q' = Ok d' /\
                               max_bytes < blen d') over ->
  save_jpeg (_ensure_rgb img) q = Ok d ->
  blen d <= max_bytes ->
  image_bytes_with_size_cap img max_bytes q_start q_min floor st
  = (logged st (EvSave (lit "PNG") None
                :: List.map jpeg_event (over ++ [q])),
     Ok (d, lit "image/jpeg")).
Proof.
  intros Hpng Hbig Hqs Hover Hq Hfit.
  unfold image_bytes_with_size_cap, bind at 1, save at 1, call.
  rewrite Hpng.
  replace (blen png <=? max_bytes) with false
    by (symmetry; apply Z.leb_gt; lia).
  unfold bind. rewrite Hqs.
  rewrite (jpeg_quality_loop_first_fit _ _ _ _ _ _ _ _ Hover Hq Hfit).
  unfold ret. rewrite logged_logged. reflexivity.
Qed.

Lemma py_range_down_empty start stop step :
  start <= stop -> py_range_down start stop step = [].
Proof.
  intros H. unfold py_range_down.
  replace (start >? stop) with false
    by (rewrite Z.gtb_ltb; symmetry; apply Z.ltb_ge; lia).
  reflexivity.
Qed.

(** X3: with an empty quality range ([q_start < q_min]) and a PNG over
    budget, the loop body never runs, [data] is not bound, and the capper
    raises [UnboundLocalError] right after the PNG save. *)
Theorem cap_empty_quality_range_raises
        (img : image pixels) (max_bytes q_start q_min floor : Z)
        (st : state) (png : bytes) :
  q_start < q_min ->
  save_png img = Ok png ->
  max_bytes < blen png ->
  image_bytes_with_size_cap img max_bytes q_start q_min floor st
  = (logged st [EvSave (lit "PNG") None],
     Raise (UnboundLocalError (lit "data"))).
Proof.
  intros Hq Hpng Hbig.
  unfold image_bytes_with_size_cap, bind at 1, save at 1, call.
  rewrite Hpng.
  replace (blen png <=? max_bytes) with false
    by (symmetry; apply Z.leb_gt; lia).
  rewrite py_range_down_empty by lia.
  unfold bind, jpeg_quality_loop, ret, raise. reflexivity.
Qed.

Lemma blen_nonneg b : 0 <= blen b.
Proof. unfold blen. lia. Qed.

(** X4: with a negative budget the capper never returns a payload: every
    run ends in an exception. *)
Theorem cap_negative_budget_never_returns
        (img : image pixels) (max_bytes q_start q_min floor : Z)
        (st : state) :
  max_bytes < 0 ->
  exists st' e,
    image_bytes_with_size_cap img max_bytes q_start q_min floor st
    = (st', Raise e).
Proof.
  intros Hneg.
  unfold image_bytes_with_size_cap, bind at 1, save at 1, call.
  destruct (save_png img) as [png|e]; [|eauto].
  pose proof (blen_nonneg png).
  replace (blen png <=? max_bytes) with false
    by (symmetry; apply Z.leb_gt; lia).
  unfold bind at 1.
  destruct (jpeg_quality_loop _ _ _ _ _) as [st1 r] eqn:Eloop.
  destruct (jpeg_quality_loop_run _ _ _ _ _ _ _ Eloop)
    as (tried & -> & Hfit).
  destruct r as [[p | [last|]] | e]; [| | unfold raise; eauto | eauto].
  - specialize (Hfit p eq_refl). pose proof (blen_nonneg p). lia.
  - destruct (blen last =? 0); [unfold raise; eauto|].
    replace (max_bytes <? 0) with true by (symmetry; apply Z.ltb_lt; lia).
    unfold raise. eauto.
Qed.

(** The MIME tag of a returned payload is one of the two fixed tags. *)
Lemma cap_mime img max_bytes q_start q_min floor st st' payload mime :
  image_bytes_with_size_cap img max_bytes q_start q_min floor st
  = (st', Ok (payload, mime)) ->
  mime = lit "image/png" \/ mime = lit "image/jpeg".
Proof.
  unfold image_bytes_with_size_cap, bind at 1, save at 1, call.
  destruct (save_png img) as [png|e]; [|discriminate].
  destruct (blen png <=? max_bytes).
  - unfold ret. intros [= _ _ <-]. now left.
  - unfold bind at 1.
    destruct (jpeg_quality_loop _ _ _ _ _) as [st1 [[p | [last|]] | e]];
      try discriminate.
    + unfold ret. intros [= _ _ <-]. now right.
    + destruct (blen last =? 0); [discriminate|].
      destruct (max_bytes <? 0); [discriminate|].
      unfold bind at 1, call.
      destruct (resize_lanczos _ _ _); [|discriminate].
      unfold bind, save, call, ret.
      destruct (save_jpeg _ _); [|discriminate].
      intros [= _ _ <-]. now right.
Qed.

End CapperMore.

(** ** What a run logs *)

Section LogDiscipline.

Context {F : PyFloat} {PIL : Pillow} {PDF : PyMuPDF} {LLM : ModelClient}
        {AMB : Ambient}.

Lemma emits_ret {A} P (a : A) : emits P (ret a).
Proof. intros st. exists []. simpl. now rewrite app_nil_r. Qed.

Lemma emits_raise {A} P e : emits P (@raise A e).
Proof. intros st. exists []. simpl. now rewrite app_nil_r. Qed.

Lemma emits_call {A} (P : event -> Prop) ev (ans : outcome A) :
  P ev -> emits P (call ev ans).
Proof. intros H st. exists [ev]. simpl. split; [reflexivity | auto]. Qed.

Lemma emits_call_hist {A} (P : event -> Prop) ev
      (ans : list event -> outcome A) :
  P ev -> emits P (call_hist ev ans).
Proof. intros H st. exists [ev]. simpl. split; [reflexivity | auto]. Qed.

Lemma emits_append_section P x : emits P (append_section x).
Proof. intros st. exists []. simpl. now rewrite app_nil_r. Qed.

Lemma emits_bind {A B} P (m : M A) (f : A -> M B) :
  emits P m -> (forall a, emits P (f a)) -> emits P (bind m f).
Proof.
  intros Hm Hf st. unfold bind.
  destruct (Hm st) as (evs & Hevs & HP).
  destruct (m st) as [st1 [a|e]]; simpl in Hevs.
  - destruct (Hf a st1) as (evs' & Hevs' & HP').
    exists (evs ++ evs'). rewrite Hevs', Hevs, app_assoc.
    split; [reflexivity | now apply Forall_app].
  - exists evs. simpl. auto.
Qed.

Lemma emits_try_except {A} P (m : M A) (h : exn -> M A) :
  emits P m -> (forall e, emits P (h e)) -> emits P (try_except m h).
Proof.
  intros Hm Hh st. unfold try_except.
  destruct (Hm st) as (evs & Hevs & HP).
  destruct (m st) as [st1 [a|e]]; simpl in Hevs.
  - exists evs. simpl. auto.
  - destruct (Hh e st1) as (evs' & Hevs' & HP').
    exists (evs ++ evs'). rewrite Hevs', Hevs, app_assoc.
    split; [reflexivity | now apply Forall_app].
Qed.

Lemma emits_impl {A} (P Q : event -> Prop) (m : M A) :
  (forall ev, P ev -> Q ev) -> emits P m -> emits Q m.
Proof.
  intros HPQ Hm st. destruct (Hm st) as (evs & Hevs & HP).
  exists evs. split; [exact Hevs | eapply Forall_impl; eauto].
Qed.

Lemma emits_for_each {A} (P : A -> event -> Prop) (xs : list A)
      (body : A -> M unit) :
  (forall x, In x xs -> emits (P x) (body x)) ->
  emits (fun ev => exists x, In x xs /\ P x ev) (for_each xs body).
Proof.
  induction xs as [|x xs IH]; intros Hbody; cbn [for_each].
  - apply emits_ret.
  - apply emits_bind.
    + eapply emits_impl; [|apply (Hbody x); now left].
      intros ev Hev. exists x. split; [now left | exact Hev].
    + intros _. eapply emits_impl; [|apply IH].
      * intros ev (y & Hy & Hev). exists y. split; [now right | exact Hev].
      * intros y Hy. apply Hbody. now right.
Qed.

Lemma emits_jpeg_quality_loop (P : event -> Prop) img max_bytes qs last :
  (forall q, P (jpeg_event q)) ->
  emits P (jpeg_quality_loop img max_bytes qs last).
Proof.
  intros HP. revert last. induction qs as [|q qs IH]; intros last; simpl.
  - apply emits_ret.
  - apply emits_bind; [apply emits_call, HP|].
    intros payload. destruct (_ <=? _); [apply emits_ret | apply IH].
Qed.

Lemma emits_cap i img max_bytes q_start q_min floor :
  emits (page_event i)
        (image_bytes_with_size_cap img max_bytes q_start q_min floor).
Proof.
  unfold image_bytes_with_size_cap.
  apply emits_bind; [now apply emits_call|]. intros png.
  destruct (_ <=? _); [apply emits_ret|].
  apply emits_bind; [now apply emits_jpeg_quality_loop|].
  intros [p | [last|]]; [apply emits_ret | | apply emits_raise].
  destruct (_ =? _); [apply emits_raise|].
  destruct (_ <? _); [apply emits_raise|].
  apply emits_bind; [now apply emits_call|]. intros resized.
  apply emits_bind; [now apply emits_call|]. intros payload.
  apply emits_ret.
Qed.

Lemma emits_process_page cl d h i :
  emits (page_event i) (process_page cl d h i).
Proof.
  unfold process_page, page_attempt.
  apply emits_try_except; [|intros e; apply emits_append_section].
  apply emits_bind; [now apply emits_call|]. intros pg.
  apply emits_bind.
  { unfold page_to_capped_data_url.
    apply emits_bind; [now apply emits_call|]. intros img.
    apply emits_bind; [apply emits_cap|]. intros [blob mime].
    apply emits_ret. }
  intros r. apply emits_bind.
  { unfold extract_page_markdown.
    apply emits_bind; [now apply emits_call_hist|]. intros answer.
    apply emits_ret. }
  intros md. apply emits_append_section.
Qed.

Lemma In_py_range i lo hi : In i (py_range lo hi) -> lo <= i < hi.
Proof.
  unfold py_range. rewrite in_map_iff. intros (k & <- & Hk).
  apply in_seq in Hk. lia.
Qed.

(** X5: once the document is open, a run loads only pages of the
    document (indices from 0 to [page_count - 1]), never sets up a second
    client or opens anything else, and closes the document exactly once, as
    its last call; this holds for the aborted run (empty range) and for
    the completed one alike. *)
Theorem full_vision_log_discipline
        (path : str) (start end_ : option Z) (h : bool)
        (st st1 : state) (cl : client) (d : doc) :
  get_openai_client st = (st1, Ok cl) ->
  fitz_open path = Ok d ->
  exists body,
    events (fst (pdf_to_markdown_full_vision path start end_ h st))
    = events st1 ++ [EvOpen path] ++ body ++ [EvClose] /\
    Forall (fun ev => exists i, 0 <= i < page_count d /\ page_event i ev)
           body.
Proof.
  intros Hcl Hopen.
  set (s := clamp_start start). set (e := clamp_end end_ (page_count d)).
  assert (Hstep :
    pdf_to_markdown_full_vision path start end_ h st
    = (if s >? e then
         emit EvClose ;;;
         raise (ValueError (invalid_range_message s e (page_count d)))
       else
         set_sections [] ;;;
         for_each (py_range (s - 1) e) (process_page cl d h) ;;;
         emit EvClose ;;;
         secs <- get_sections ;;
         ret (collapse_blank_lines (strip (join [NL; NL] secs))))
        (logged st1 [EvOpen path])).
  { unfold pdf_to_markdown_full_vision, bind at 1. rewrite Hcl.
    unfold bind at 1, call. rewrite Hopen. reflexivity. }
  rewrite Hstep. clear Hstep.
  destruct (s >? e) eqn:Ese.
  - exists []. split; [|constructor].
    unfold bind, emit, raise. cbn [fst events logged app].
    now rewrite <- app_assoc.
  - unfold bind at 1, set_sections. cbn [events sections logged].
    unfold bind at 1.
    destruct (emits_for_each page_event (py_range (s - 1) e)
                (process_page cl d h)
                (fun i _ => emits_process_page cl d h i)
                (mk_state (events st1 ++ [EvOpen path]) []))
      as (body & Hbody & HP).
    destruct (page_loop_run cl d h (py_range (s - 1) e)
                (mk_state (events st1 ++ [EvOpen path]) []))
      as (frags & st2 & Hrun & _ & _).
    rewrite Hrun in *. cbn [fst events] in Hbody.
    exists body. split.
    + unfold bind, emit, get_sections, ret. cbn [fst events logged].
      rewrite Hbody, <- !app_assoc. reflexivity.
    + eapply Forall_impl; [|exact HP].
      intros ev (i & Hi & Hev). exists i. split; [|exact Hev].
      apply In_py_range in Hi.
      assert (1 <= s) by (unfold s, clamp_start; destruct start; lia).
      assert (e <= page_count d)
        by (unfold e, clamp_end; destruct end_; lia).
      lia.
Qed.

Lemma emits_later_page_work cl pg i :
  emits later_event
        (r <- page_to_capped_data_url pg RENDER_DPI ;;
         extract_page_markdown cl (fst r) (i + 1)).
Proof.
  apply emits_bind.
  { unfold page_to_capped_data_url.
    apply emits_bind; [now apply emits_call|]. intros img.
    apply emits_bind.
    - unfold image_bytes_with_size_cap.
      apply emits_bind; [now apply emits_call|]. intros png.
      destruct (_ <=? _); [apply emits_ret|].
      apply emits_bind; [now apply emits_jpeg_quality_loop|].
      intros [p | [last|]]; [apply emits_ret | | apply emits_raise].
      destruct (_ =? _); [apply emits_raise|].
      destruct (_ <? _); [apply emits_raise|].
      apply emits_bind; [now apply emits_call|]. intros resized.
      apply emits_bind; [now apply emits_call|]. intros payload.
      apply emits_ret.
    - intros [blob mime]. apply emits_ret. }
  intros r. unfold extract_page_markdown.
  apply emits_bind; [now apply emits_call_hist|]. intros answer.
  apply emits_ret.
Qed.

Lemma loaded_pages_app a b :
  loaded_pages (a ++ b) = loaded_pages a ++ loaded_pages b.
Proof.
  induction a as [|ev a IH]; [reflexivity|].
  destruct ev; simpl; rewrite IH; reflexivity.
Qed.

Lemma loaded_pages_later evs :
  Forall later_event evs -> loaded_pages evs = [].
Proof.
  induction 1 as [|ev evs Hev _ IH]; [reflexivity|].
  destruct ev; simpl in *; try contradiction; exact IH.
Qed.

(** One turn of the loop loads its page once, whatever happens next. *)
Lemma process_page_loads cl d h i st :
  exists evs,
    events (fst (process_page cl d h i st)) = events st ++ evs /\
    loaded_pages evs = [i].
Proof.
  unfold process_page, page_attempt, try_except.
  unfold bind at 1, call.
  destruct (load_page d i) as [pg|e].
  - destruct (emits_later_page_work cl pg i (logged st [EvLoadPage i]))
      as (evs & Hevs & Hlater).
    exists (EvLoadPage i :: evs). split.
    + unfold bind in *.
      destruct (page_to_capped_data_url pg RENDER_DPI _)
        as [st1 [r|e]]; cbn [fst] in *.
      * destruct (extract_page_markdown cl (fst r) (i + 1) st1)
          as [st2 [md|e]]; cbn [fst events append_section] in *;
          rewrite Hevs; cbn [events logged]; now rewrite <- app_assoc.
      * cbn [fst events append_section]. rewrite Hevs.
        cbn [events logged]. now rewrite <- app_assoc.
    + cbn [loaded_pages]. now rewrite loaded_pages_later.
  - exists [EvLoadPage i]. split; reflexivity.
Qed.

Lemma page_loop_loads cl d h pages st :
  exists evs,
    events (fst (for_each pages (process_page cl d h) st))
    = events st ++ evs /\
    loaded_pages evs = pages.
Proof.
  revert st. induction pages as [|i pages IH]; intros st.
  - exists []. simpl. now rewrite app_nil_r.
  - cbn [for_each]. unfold bind.
    destruct (process_page_loads cl d h i st) as (evs & Hevs & Hl).
    destruct (page_loop_run cl d h [i] st) as (frags & st1 & Hrun & _ & _).
    cbn [for_each] in Hrun. unfold bind in Hrun.
    destruct (process_page cl d h i st) as [st1' [[]|e]];
      [|discriminate].
    cbn [fst] in Hevs.
    destruct (IH st1') as (evs' & Hevs' & Hl').
    exists (evs ++ evs'). rewrite Hevs', Hevs, app_assoc.
    split; [reflexivity|].
    rewrite loaded_pages_app, Hl, Hl'. reflexivity.
Qed.

(** X6: a completed run loads every requested page exactly once, in
    ascending order, and loads no other page: the load calls of its log are
    the indices [start - 1, ..., end - 1] of the clamped range. *)
Theorem full_vision_loads_each_page_once
        (path : str) (start end_ : option Z) (h : bool)
        (st st1 : state) (cl : client) (d : doc) :
  get_openai_client st = (st1, Ok cl) ->
  fitz_open path = Ok d ->
  clamp_start start <= clamp_end end_ (page_count d) ->
  exists body,
    events (fst (pdf_to_markdown_full_vision path start end_ h st))
    = events st1 ++ [EvOpen path] ++ body ++ [EvClose] /\
    loaded_pages body
    = py_range (clamp_start start - 1) (clamp_end end_ (page_count d)).
Proof.
  intros Hcl Hopen Hse.
  set (s := clamp_start start) in *.
  set (e := clamp_end end_ (page_count d)) in *.
  unfold pdf_to_markdown_full_vision, bind at 1. rewrite Hcl.
  unfold bind at 1, call. rewrite Hopen. fold s e.
  replace (s >? e) with false
    by (rewrite Z.gtb_ltb; symmetry; apply Z.ltb_ge; lia).
  unfold bind at 1, set_sections. cbn [events sections logged].
  unfold bind at 1.
  destruct (page_loop_loads cl d h (py_range (s - 1) e)
              (mk_state (events st1 ++ [EvOpen path]) []))
    as (body & Hbody & Hloads).
  destruct (page_loop_run cl d h (py_range (s - 1) e)
              (mk_state (events st1 ++ [EvOpen path]) []))
    as (frags & st2 & Hrun & _ & _).
  rewrite Hrun in *. cbn [fst events] in Hbody.
  exists body. split; [|exact Hloads].
  unfold bind, emit, get_sections, ret. cbn [fst events logged].
  rewrite Hbody, <- !app_assoc. reflexivity.
Qed.

End LogDiscipline.

(** ** Stripped text *)

Section StrippedText.

Lemma lstrip_fixed c t : isspace c = false -> lstrip (c :: t) = c :: t.
Proof. intros H. simpl. now rewrite H. Qed.

Lemma lstrip_length s : (List.length (lstrip s) <= List.length s)%nat.
Proof.
  induction s as [|c s IH]; simpl; [lia|].
  destruct (isspace c); simpl; lia.
Qed.

Lemma lstrip_head s c t : lstrip s = c :: t -> isspace c = false.
Proof.
  induction s as [|x s IH]; simpl; [discriminate|].
  destruct (isspace x) eqn:E; [exact IH|]. intros [= <- _]. exact E.
Qed.

Lemma lstrip_idempotent s : lstrip (lstrip s) = lstrip s.
Proof.
  destruct (lstrip s) as [|c t] eqn:E; [reflexivity|].
  apply lstrip_fixed. eapply lstrip_head; eassumption.
Qed.

Lemma rstrip_idempotent s : rstrip (rstrip s) = rstrip s.
Proof.
  unfold rstrip. now rewrite rev_involutive, lstrip_idempotent.
Qed.

Lemma rstrip_last u c : isspace c = false -> rstrip (u ++ [c]) = u ++ [c].
Proof.
  intros H. unfold rstrip. rewrite rev_app_distr. cbn [rev app].
  rewrite lstrip_fixed by exact H.
  cbn [rev]. now rewrite rev_involutive.
Qed.

Lemma rstrip_keeps_head c t :
  isspace c = false -> exists t', rstrip (c :: t) = c :: t'.
Proof.
  intros H. unfold rstrip. cbn [rev].
  destruct (lstrip_keeps_tail (rev t) c [] H) as [a' ->].
  exists (rev a'). rewrite rev_app_distr. reflexivity.
Qed.

Lemma strip_trimmed s : trimmed (strip s).
Proof.
  unfold trimmed, strip. split; [|apply rstrip_idempotent].
  destruct (lstrip s) as [|c t] eqn:E; [reflexivity|].
  destruct (rstrip_keeps_head c t (lstrip_head _ _ _ E)) as [t' ->].
  apply lstrip_fixed. eapply lstrip_head; eassumption.
Qed.

(** A trimmed text is empty, or begins and ends with characters that are
    not whitespace. *)
Lemma trimmed_ends s :
  trimmed s <->
  s = [] \/
  (exists c t, s = c :: t /\ isspace c = false) /\
  (exists u c', s = u ++ [c'] /\ isspace c' = false).
Proof.
  split.
  - intros [Hl Hr]. destruct s as [|c t]; [now left|]. right. split.
    + exists c, t. split; [reflexivity|]. eapply lstrip_head; exact Hl.
    + destruct (exists_last (l := c :: t) ltac:(discriminate))
        as (u & c' & Hs).
      exists u, c'. split; [exact Hs|].
      rewrite Hs in Hr. unfold rstrip in Hr.
      rewrite rev_app_distr in Hr. cbn [rev app] in Hr.
      destruct (isspace c') eqn:E; [|reflexivity].
      exfalso. cbn [lstrip] in Hr. rewrite E in Hr.
      apply (f_equal (@List.length _)) in Hr.
      rewrite length_rev, length_app in Hr. simpl in Hr.
      pose proof (lstrip_length (rev u)). rewrite length_rev in *. lia.
  - intros [-> | [(c & t & Hs & Hc) (u & c' & Hs' & Hc')]].
    + split; reflexivity.
    + split.
      * rewrite Hs. now apply lstrip_fixed.
      * rewrite Hs'. now apply rstrip_last.
Qed.

Lemma starts_with_app_last old u c :
  ~ In c old -> starts_with old (u ++ [c]) = starts_with old u.
Proof.
  revert u. induction old as [|a old IH]; intros u Hc; [reflexivity|].
  destruct u as [|b u]; cbn [app starts_with].
  - destruct (N.eqb_spec a c) as [->|]; [|reflexivity].
    exfalso. apply Hc. now left.
  - rewrite IH; [reflexivity|]. intros H. apply Hc. now right.
Qed.

Lemma replace_from_last old new t c :
  old <> [] ->
  ~ In c old ->
  forall skip,
    (skip <= List.length t)%nat ->
    replace_from old new (t ++ [c]) skip
    = replace_from old new t skip ++ [c].
Proof.
  intros Hne Hc. induction t as [|x t IH]; intros skip Hskip.
  - assert (skip = 0%nat) by (simpl in Hskip; lia). subst skip.
    pose proof (starts_with_app_last old [] c Hc) as H.
    cbn [app] in H. cbn [app replace_from]. rewrite H.
    destruct old as [|a old]; [congruence | reflexivity].
  - cbn [app replace_from]. destruct skip as [|k].
    + change (x :: t ++ [c]) with ((x :: t) ++ [c]).
      rewrite (starts_with_app_last old (x :: t) c Hc).
      destruct (starts_with old (x :: t)) eqn:E.
      * apply starts_with_length in E. simpl in E.
        rewrite IH by lia. now rewrite app_assoc.
      * rewrite IH by lia. reflexivity.
    + apply IH. simpl in Hskip. lia.
Qed.

Lemma replace_newlines_trimmed s :
  trimmed s -> trimmed (replace s [NL; NL; NL] [NL; NL]).
Proof.
  rewrite !trimmed_ends.
  intros [-> | [(c & t & Hs & Hc) (u & c' & Hs' & Hc')]]; [now left|].
  right.
  assert (Hnl : forall x, isspace x = false -> ~ In x [NL; NL; NL]).
  { intros x Hx [<- | [<- | [<- | []]]]; discriminate. }
  assert (Hhead : forall t0,
             replace (c :: t0) [NL; NL; NL] [NL; NL]
             = c :: replace t0 [NL; NL; NL] [NL; NL]).
  { intros t0. unfold replace. cbn [replace_from starts_with].
    destruct (N.eqb_spec NL c) as [<-|]; [discriminate | reflexivity]. }
  split.
  - exists c. rewrite Hs, Hhead. eauto.
  - exists (replace u [NL; NL; NL] [NL; NL]), c'. split; [|exact Hc'].
    rewrite Hs'. unfold replace.
    apply replace_from_last; [discriminate | now apply Hnl | lia].
Qed.

Lemma collapse_blank_lines_trimmed s :
  trimmed s -> trimmed (collapse_blank_lines s).
Proof.
  funelim (collapse_blank_lines s); intros Ht.
  - match goal with IH : _ -> trimmed (collapse_blank_lines _) |- _ =>
      apply IH end.
    now apply replace_newlines_trimmed.
  - exact Ht.
Qed.

End StrippedText.

(** ** More on the page orchestrator *)

Section OrchestratorMore.

Context {F : PyFloat} {PIL : Pillow} {PDF : PyMuPDF} {LLM : ModelClient}
        {AMB : Ambient}.

Lemma full_vision_returns_normalised
        (path : str) (start end_ : option Z) (h : bool)
        (st st' : state) (md : str) :
  pdf_to_markdown_full_vision path start end_ h st = (st', Ok md) ->
  contains [NL; NL; NL] md = false /\ trimmed md.
Proof.
  unfold pdf_to_markdown_full_vision, bind at 1.
  destruct (get_openai_client st) as [st1 [cl|e]]; [|discriminate].
  unfold bind at 1, call.
  destruct (fitz_open path) as [d|e]; [|discriminate].
  destruct (_ >? _).
  - unfold bind, emit, raise. cbn. discriminate.
  - unfold bind at 1, set_sections. unfold bind at 1.
    destruct (page_loop_run cl d h
                (py_range (clamp_start start - 1)
                          (clamp_end end_ (page_count d)))
                (mk_state (events (logged st1 [EvOpen path])) []))
      as (frags & st2 & Hrun & _ & _).
    rewrite Hrun. unfold bind, emit, get_sections, ret.
    intros [= _ <-]. split.
    + apply collapse_blank_lines_clean.
    + apply collapse_blank_lines_trimmed, strip_trimmed.
Qed.

(** X7: a text the orchestrator returns never contains three consecutive
    newlines and has no whitespace at its ends. *)
Theorem full_vision_output_normal_form
        (path : str) (start end_ : option Z) (h : bool)
        (st st' : state) (md : str) :
  pdf_to_markdown_full_vision path start end_ h st = (st', Ok md) ->
  contains [NL; NL; NL] md = false /\ trimmed md.
Proof. apply full_vision_returns_normalised. Qed.

Lemma digits_no_space d :
  Forall (fun c => isspace c = false) (lit (NilEmpty.string_of_uint d)).
Proof.
  induction d; cbn [NilEmpty.string_of_uint lit list_ascii_of_string List.map];
    constructor; auto.
Qed.

Lemma nilzero_no_space d :
  lit (NilZero.string_of_uint d) <> [] /\
  Forall (fun c => isspace c = false) (lit (NilZero.string_of_uint d)).
Proof.
  destruct d;
    (split; [cbn; discriminate|]);
    [repeat constructor | ..];
    match goal with
    | |- Forall _ (lit (NilZero.string_of_uint ?x)) =>
        exact (digits_no_space x)
    end.
Qed.

Lemma str_of_int_no_space n :
  str_of_int n <> [] /\ Forall (fun c => isspace c = false) (str_of_int n).
Proof.
  unfold str_of_int, NilZero.string_of_int.
  destruct (Z.to_int n) as [d|d].
  - apply nilzero_no_space.
  - destruct (nilzero_no_space d) as [_ H].
    split; [cbn; discriminate|]. constructor; [reflexivity | exact H].
Qed.

(** The heading of a page begins with "#" and ends with a digit. *)
Lemma page_heading_ends n :
  exists p c',
    page_heading n = (char_of "#" :: p) ++ [c'] /\ isspace c' = false.
Proof.
  destruct (str_of_int_no_space n) as [Hne Hall].
  destruct (exists_last Hne) as (u & c' & Hu).
  exists (lit "# Page " ++ u), c'. split.
  - unfold page_heading. rewrite Hu.
    change (lit "## Page ") with (char_of "#" :: lit "# Page ").
    cbn [app]. now rewrite <- app_assoc.
  - rewrite Hu in Hall. apply Forall_app in Hall as [_ Hc].
    now inversion Hc.
Qed.

Lemma headed_fragments pages frags :
  Forall2 (fun i frag =>
             frag = page_placeholder (i + 1) \/
             exists md, frag = page_fragment true (i + 1) md)
          pages frags ->
  Forall2 (fun i frag => starts_with (page_heading (i + 1)) frag = true)
          pages frags.
Proof.
  induction 1 as [|i frag pages frags Hfrag _ IH]; constructor;
    [|exact IH].
  destruct (page_heading_ends (i + 1)) as (p & c' & Hh & Hc').
  exact (heading_starts_fragment (i + 1) frag (char_of "#") c' p
           Hh eq_refl Hc' Hfrag).
Qed.

(** X8: with page headings enabled, every fragment of a completed run
    begins with the heading of its own page, "## Page N", whether the page
    was transcribed or got the placeholder. *)
Theorem full_vision_headings_on_every_page
        (path : str) (start end_ : option Z)
        (st st1 : state) (cl : client) (d : doc) :
  get_openai_client st = (st1, Ok cl) ->
  fitz_open path = Ok d ->
  clamp_start start <= clamp_end end_ (page_count d) ->
  exists frags st2,
    pdf_to_markdown_full_vision path start end_ true st
    = (logged st2 [EvClose],
       Ok (collapse_blank_lines (strip (join [NL; NL] frags)))) /\
    sections st2 = frags /\
    Forall2 (fun i frag => starts_with (page_heading (i + 1)) frag = true)
            (py_range (clamp_start start - 1)
                      (clamp_end end_ (page_count d)))
            frags.
Proof.
  intros Hcl Hopen Hse.
  destruct (full_vision_run path start end_ true st st1 cl d Hcl Hopen)
    as [_ Hrun].
  destruct (Hrun Hse) as (frags & st2 & Hpages & Hsec & Heq).
  exists frags, st2. split; [exact Heq | split; [exact Hsec|]].
  apply headed_fragments. eapply pages_run_shape; eassumption.
Qed.

Lemma rstrip_drops_space u c : isspace c = true -> rstrip (u ++ [c]) = rstrip u.
Proof.
  intros H. unfold rstrip. rewrite rev_app_distr. cbn [rev app lstrip].
  now rewrite H.
Qed.

Lemma heading_alone n :
  page_fragment true n [] = page_heading n.
Proof.
  unfold page_fragment, strip.
  destruct (page_heading_ends n) as (p & c' & Hh & Hc').
  rewrite Hh. cbn [app]. rewrite lstrip_fixed by reflexivity.
  change (char_of "#" :: (p ++ [c']) ++ [NL; NL])
    with ((char_of "#" :: p ++ [c']) ++ [NL; NL]).
  change [NL; NL] with ([NL] ++ [NL]). rewrite app_assoc.
  rewrite !rstrip_drops_space by reflexivity.
  change (char_of "#" :: p ++ [c']) with ((char_of "#" :: p) ++ [c']).
  now apply rstrip_last.
Qed.

(** X9: a missing answer, or an answer of whitespace only, gives the
    empty page text; with headings enabled the fragment of such a page is
    exactly its heading. *)
Theorem extract_blank_answer
        (cl : client) (data_url : str) (page_num : Z) (st : state)
        (answer : option str) :
  let text :=
    USER_INSTRUCTION ++ lit " (Page " ++ str_of_int page_num ++ lit ")" in
  chat_create (events st) cl SYSTEM_PROMPT text data_url = Ok answer ->
  strip (match answer with Some c => c | None => [] end) = [] ->
  extract_page_markdown cl data_url page_num st
  = (logged st [EvChat text], Ok []) /\
  page_fragment true page_num [] = page_heading page_num.
Proof.
  intros text Hanswer Hblank. split; [|apply heading_alone].
  unfold extract_page_markdown, bind, call_hist, ret. fold text.
  rewrite Hanswer, Hblank. reflexivity.
Qed.

(** X10: set-up failures abort before any page work: without an endpoint
    the run raises [RuntimeError] having made no call at all, and a
    document that cannot be opened makes the run raise right after the
    open, with nothing to close. *)
Theorem full_vision_setup_failures
        (path : str) (start end_ : option Z) (h : bool) (st : state) :
  (PROJECT_ENDPOINT = None \/ PROJECT_ENDPOINT = Some [] ->
   pdf_to_markdown_full_vision path start end_ h st
   = (st, Raise (RuntimeError
                   (lit "PROJECT_ENDPOINT env var is required but missing."))))
  /\
  (forall st1 cl e,
      get_openai_client st = (st1, Ok cl) ->
      fitz_open path = Raise e ->
      pdf_to_markdown_full_vision path start end_ h st
      = (logged st1 [EvOpen path], Raise e)).
Proof.
  split.
  - intros H. unfold pdf_to_markdown_full_vision, bind at 1,
      get_openai_client.
    destruct H as [-> | ->]; reflexivity.
  - intros st1 cl e Hcl Hopen.
    unfold pdf_to_markdown_full_vision, bind at 1. rewrite Hcl.
    unfold bind at 1, call. rewrite Hopen. reflexivity.
Qed.

End OrchestratorMore.

(** ** The page data URL *)

Section DataUrl.

Context {F : PyFloat} {PIL : Pillow} {PDF : PyMuPDF} {AMB : Ambient}.

(** X11: a data URL returned for a page is "data:image/png;base64," or
    "data:image/jpeg;base64," followed by the base64 text of the capped
    payload, and the size returned with it is the size of the rendered
    image, also when the payload is that of a downscaled image. *)
Theorem page_data_url_shape
        (pg : page) (dpi : Z) (st st' : state) (url : str) (size : Z * Z) :
  page_to_capped_data_url pg dpi st = (st', Ok (url, size)) ->
  exists img blob mime st1,
    rasterize pg dpi = Ok img /\
    size = (width img, height img) /\
    image_bytes_with_size_cap img MAX_IMAGE_BYTES JPEG_QUALITY_START
      MIN_JPEG_QUALITY DOWNSCALE_FLOOR_PX (logged st [EvRasterize dpi])
    = (st1, Ok (blob, mime)) /\
    (url = lit "data:image/png;base64," ++ b64encode blob \/
     url = lit "data:image/jpeg;base64," ++ b64encode blob).
Proof.
  unfold page_to_capped_data_url, bind at 1, call.
  destruct (rasterize pg dpi) as [img|e]; [|discriminate].
  unfold bind.
  destruct (image_bytes_with_size_cap _ _ _ _ _ _)
    as [st1 [[blob mime]|e]] eqn:Ecap; [|discriminate].
  unfold ret. intros [= _ <- <-].
  exists img, blob, mime, st1.
  split; [reflexivity | split; [reflexivity | split; [exact Ecap|]]].
  destruct (cap_mime _ _ _ _ _ _ _ _ _ Ecap) as [-> | ->];
    [left | right]; reflexivity.
Qed.

End DataUrl.

(** ** Stripping images and collapsing whitespace *)

Section ContextHelpers.

Lemma match_here_needs_head x p s k g r :
  match_here (One (ALit x) :: p) s k g = Some r -> exists t, s = x :: t.
Proof.
  destruct s as [|c s]; cbn [match_here atom_ok]; [discriminate|].
  destruct (N.eqb_spec c x) as [->|]; [eauto | discriminate].
Qed.

Lemma sub_without_head x p repl s :
  ~ In x s -> sub (One (ALit x) :: p) repl s = s.
Proof.
  unfold sub. induction s as [|c s IH]; intros Hx; [reflexivity|].
  rewrite sub_from_no_match.
  - rewrite IH; [reflexivity|]. intros H. apply Hx. now right.
  - intros n g Hm. unfold match_at in Hm.
    apply match_here_needs_head in Hm as [t [= -> _]].
    apply Hx. now left.
Qed.

Lemma image_link_shape :
  IMAGE_LINK_PATTERN = One (ALit BANG) :: skipn 1 IMAGE_LINK_PATTERN.
Proof. reflexivity. Qed.

(** X12: a text without an exclamation mark has no image markup, and
    stripping images returns it unchanged. *)
Theorem strip_images_without_bang (text : str) :
  ~ In BANG text -> strip_images_from_text text = text.
Proof.
  intros H. unfold strip_images_from_text.
  rewrite datauri_shape, sub_without_head by exact H.
  rewrite image_link_shape. now apply sub_without_head.
Qed.

Lemma lstrip_suffix s : skipn (List.length s - List.length (lstrip s)) s = lstrip s.
Proof.
  induction s as [|c s IH]; [reflexivity|].
  cbn [lstrip]. destruct (isspace c).
  - pose proof (lstrip_length s).
    replace (List.length (c :: s) - List.length (lstrip s))%nat
      with (S (List.length s - List.length (lstrip s)))
      by (cbn [List.length]; lia).
    exact IH.
  - now rewrite Nat.sub_diag.
Qed.

Lemma star_space_run s :
  forall k g,
    match_here [Star ASpace] s k g
    = Some ((k + (List.length s - List.length (lstrip s)))%nat, g).
Proof.
  induction s as [|c s IH]; intros k g.
  - rewrite match_here_star_nil. cbn. now rewrite Nat.add_0_r.
  - rewrite match_here_star_cons. cbn [atom_ok lstrip].
    destruct (isspace c).
    + rewrite IH. pose proof (lstrip_length s).
      do 2 f_equal. cbn [List.length]. lia.
    + cbn [match_here]. rewrite Nat.sub_diag, Nat.add_0_r. reflexivity.
Qed.

Lemma match_here_one_cons a p c s k g :
  match_here (One a :: p) (c :: s) k g
  = if atom_ok a c then match_here p s (S k) g else None.
Proof. reflexivity. Qed.

Lemma sub_whitespace_space repl c s :
  isspace c = true ->
  sub_from WHITESPACE_PATTERN repl (c :: s) 0
  = repl ++ sub_from WHITESPACE_PATTERN repl (lstrip s) 0.
Proof.
  intros Hc.
  assert (Hm : match_at WHITESPACE_PATTERN (c :: s)
               = Some (S (List.length s - List.length (lstrip s)),
                       (0%nat, 0%nat))).
  { unfold match_at, WHITESPACE_PATTERN, plus.
    rewrite match_here_one_cons. cbn [atom_ok]. rewrite Hc.
    now rewrite star_space_run. }
  rewrite (sub_from_match _ _ _ _ _ _ Hm). cbn [skipn].
  now rewrite lstrip_suffix.
Qed.

Lemma sub_whitespace_other repl c s :
  isspace c = false ->
  sub_from WHITESPACE_PATTERN repl (c :: s) 0
  = c :: sub_from WHITESPACE_PATTERN repl s 0.
Proof.
  intros Hc. apply sub_from_no_match. intros n g.
  unfold match_at, WHITESPACE_PATTERN, plus.
  rewrite match_here_one_cons. cbn [atom_ok]. now rewrite Hc.
Qed.

Lemma sub_whitespace_single_spaced :
  forall sz s,
    List.length s = sz ->
    single_spaced (sub WHITESPACE_PATTERN [SPACE] s) /\
    (List.length (sub WHITESPACE_PATTERN [SPACE] s) <= List.length s)%nat.
Proof.
  unfold sub.
  induction sz as [sz IH] using lt_wf_ind. intros s Hsz.
  destruct s as [|c s]; [cbn; auto|].
  destruct (isspace c) eqn:Hc.
  - rewrite (sub_whitespace_space _ _ _ Hc). cbn [app single_spaced].
    pose proof (lstrip_length s) as Hl.
    destruct (IH (List.length (lstrip s)) ltac:(simpl in Hsz; lia)
                 (lstrip s) eq_refl) as [Hss Hlen].
    split; [split; [|exact Hss] | simpl; lia].
    intros _. split; [reflexivity|].
    destruct (lstrip s) as [|d t] eqn:E; [exact I|].
    rewrite (sub_whitespace_other _ _ _ (lstrip_head _ _ _ E)).
    eapply lstrip_head; exact E.
  - rewrite (sub_whitespace_other _ _ _ Hc). cbn [single_spaced].
    destruct (IH (List.length s) ltac:(simpl in Hsz; lia) s eq_refl)
      as [Hss Hlen].
    split; [split; [|exact Hss] | simpl; lia].
    intros H. rewrite Hc in H. discriminate.
Qed.

Lemma single_spaced_lstrip s : single_spaced s -> single_spaced (lstrip s).
Proof.
  induction s as [|c s IH]; [auto|]. intros Hcs. cbn [lstrip].
  destruct (isspace c) eqn:E; [|exact Hcs].
  apply IH. exact (proj2 Hcs).
Qed.

Lemma single_spaced_app_l a b : single_spaced (a ++ b) -> single_spaced a.
Proof.
  induction a as [|c a IH]; [intros; exact I|].
  cbn [app single_spaced]. intros [Hc Hs]. split; [|now apply IH].
  intros Hsp. destruct (Hc Hsp) as [-> Hnext]. split; [reflexivity|].
  destruct a; [exact I | exact Hnext].
Qed.

Lemma single_spaced_snoc a e :
  single_spaced a -> isspace e = false -> single_spaced (a ++ [e]).
Proof.
  intros Ha He. induction a as [|c a IH]; cbn [app single_spaced].
  - split; [|exact I]. intros H. rewrite He in H. discriminate.
  - destruct Ha as [Hc Ha]. split; [|now apply IH].
    intros Hsp. destruct (Hc Hsp) as [-> Hnext]. split; [reflexivity|].
    destruct a; [exact He | exact Hnext].
Qed.

Lemma lstrip_split s : exists pre, s = pre ++ lstrip s.
Proof.
  exists (firstn (List.length s - List.length (lstrip s)) s).
  transitivity
    (firstn (List.length s - List.length (lstrip s)) s
     ++ skipn (List.length s - List.length (lstrip s)) s).
  - symmetry. apply firstn_skipn.
  - f_equal. apply lstrip_suffix.
Qed.

Lemma rstrip_split s : exists post, s = rstrip s ++ post.
Proof.
  destruct (lstrip_split (rev s)) as [pre Hpre].
  exists (rev pre). unfold rstrip.
  rewrite <- rev_app_distr, <- Hpre. now rewrite rev_involutive.
Qed.

Lemma single_spaced_strip s : single_spaced s -> single_spaced (strip s).
Proof.
  intros H. unfold strip.
  destruct (rstrip_split (lstrip s)) as [post Hpost].
  apply (single_spaced_app_l _ post). rewrite <- Hpost.
  now apply single_spaced_lstrip.
Qed.

Lemma strip_length s : (List.length (strip s) <= List.length s)%nat.
Proof.
  unfold strip, rstrip. rewrite length_rev.
  pose proof (lstrip_length (rev (lstrip s))).
  pose proof (lstrip_length s). rewrite length_rev in *. lia.
Qed.

Lemma collapse_whitespace_single_spaced (text : str) :
  single_spaced (collapse_whitespace text).
Proof.
  unfold collapse_whitespace.
  destruct (sub_whitespace_single_spaced _ text eq_refl) as [Hss _].
  change (lit " ") with [SPACE]. now apply single_spaced_strip.
Qed.

Lemma collapse_whitespace_trimmed (text : str) :
  trimmed (collapse_whitespace text).
Proof. unfold collapse_whitespace. apply strip_trimmed. Qed.

(** X13: collapsed text is compact: its only whitespace characters are
    single spaces between other characters, it has no whitespace at its
    ends, and it is never longer than the text it comes from. *)
Theorem collapse_whitespace_compact (text : str) :
  single_spaced (collapse_whitespace text) /\
  trimmed (collapse_whitespace text) /\
  len (collapse_whitespace text) <= len text.
Proof.
  split; [apply collapse_whitespace_single_spaced|].
  split; [apply collapse_whitespace_trimmed|].
  unfold collapse_whitespace.
  destruct (sub_whitespace_single_spaced _ text eq_refl) as [_ Hlen].
  change (lit " ") with [SPACE].
  unfold len. pose proof (strip_length (sub WHITESPACE_PATTERN [SPACE] text)).
  lia.
Qed.

Lemma sub_whitespace_fixed s :
  single_spaced s -> sub WHITESPACE_PATTERN [SPACE] s = s.
Proof.
  unfold sub. induction s as [|c s IH]; [reflexivity|].
  intros [Hc Hs]. destruct (isspace c) eqn:E.
  - destruct (Hc eq_refl) as [-> Hnext].
    rewrite (sub_whitespace_space _ _ _ E). cbn [app]. f_equal.
    destruct s as [|d t]; [reflexivity|].
    rewrite lstrip_fixed by exact Hnext. now apply IH.
  - rewrite (sub_whitespace_other _ _ _ E). f_equal. now apply IH.
Qed.

Lemma strip_fixed s : trimmed s -> strip s = s.
Proof. intros [Hl Hr]. unfold strip. now rewrite Hl, Hr. Qed.

(** X14: collapsing whitespace twice is collapsing it once. *)
Theorem collapse_whitespace_idempotent (text : str) :
  collapse_whitespace (collapse_whitespace text) = collapse_whitespace text.
Proof.
  pose proof (collapse_whitespace_single_spaced text) as Hss.
  pose proof (collapse_whitespace_trimmed text) as Htr.
  set (t := collapse_whitespace text) in *.
  unfold collapse_whitespace. change (lit " ") with [SPACE].
  rewrite (sub_whitespace_fixed t Hss). now apply strip_fixed.
Qed.

End ContextHelpers.

(** ** The context and the replacement of images *)

Section ImagesMore.

Context {LLM : ModelClient}.
Variables CONTEXT_BEFORE_CHARS CONTEXT_AFTER_CHARS MAX_CONTEXT_CHARS : Z.
Variable DESCRIBE_PROMPT : str.

Local Abbreviation context_of :=
  (build_surrounding_context CONTEXT_BEFORE_CHARS CONTEXT_AFTER_CHARS
                             MAX_CONTEXT_CHARS).
Local Abbreviation replace_all :=
  (replace_images_with_text CONTEXT_BEFORE_CHARS CONTEXT_AFTER_CHARS
                            MAX_CONTEXT_CHARS DESCRIBE_PROMPT).
Local Abbreviation asked :=
  (chat_event CONTEXT_BEFORE_CHARS CONTEXT_AFTER_CHARS MAX_CONTEXT_CHARS).
Local Abbreviation blocks_of :=
  (described CONTEXT_BEFORE_CHARS CONTEXT_AFTER_CHARS MAX_CONTEXT_CHARS
             DESCRIBE_PROMPT).

(** X15: the context sent with an image is compact (single spaces only,
    no whitespace at its ends: in particular no line break), and with a
    non-negative maximum it has at most one character more than the
    maximum. *)
Theorem context_is_compact (markdown : str) (start_idx end_idx : Z) :
  single_spaced (context_of markdown start_idx end_idx) /\
  trimmed (context_of markdown start_idx end_idx) /\
  (0 <= MAX_CONTEXT_CHARS ->
   len (context_of markdown start_idx end_idx) <= MAX_CONTEXT_CHARS + 1).
Proof.
  split; [|split; [|apply context_length_bound]];
    unfold build_surrounding_context;
    set (context := collapse_whitespace _);
    assert (Hss : single_spaced context)
      by apply collapse_whitespace_single_spaced;
    assert (Htr : trimmed context) by apply collapse_whitespace_trimmed;
    (destruct (len context >? MAX_CONTEXT_CHARS); [|assumption]);
    unfold slice_to;
    set (k := Z.to_nat (clamp_index (len context) MAX_CONTEXT_CHARS)).
  - apply single_spaced_snoc; [|reflexivity].
    apply (single_spaced_app_l _ (skipn k context)).
    now rewrite firstn_skipn.
  - apply trimmed_ends. right. split.
    + apply trimmed_ends in Htr.
      destruct Htr as [-> | [(c & t & Hc & Hsp) _]].
      * rewrite firstn_nil. exists ELLIPSIS, []. now split.
      * rewrite Hc. destruct k as [|k'].
        -- exists ELLIPSIS, []. now split.
        -- cbn [firstn app]. eauto.
    + exists (firstn k context), ELLIPSIS. now split.
Qed.

Lemma slice_from_zero (w : str) : slice_from w 0 = w.
Proof. exact (slice_from_nat w 0 ltac:(lia)). Qed.

Lemma replace_loop_without_client markdown ms :
  forall parts last st,
  exists parts' last',
    replace_loop CONTEXT_BEFORE_CHARS CONTEXT_AFTER_CHARS MAX_CONTEXT_CHARS
      DESCRIBE_PROMPT markdown None ms parts last st
    = (st, Ok (parts', last')) /\
    List.concat (parts' ++ [slice_from markdown last'])
    = List.concat parts
      ++ splice_blocks markdown ms
           (List.map (fun _ => UNAVAILABLE_BLOCK) ms) last.
Proof.
  induction ms as [|m ms IH]; intros parts last st.
  - exists parts, last. cbn [replace_loop splice_blocks List.map].
    split; [reflexivity|].
    rewrite concat_app. simpl. now rewrite app_nil_r.
  - cbn [replace_loop]. unfold bind at 1, ret at 1.
    destruct (IH ((parts ++ [slice markdown last (m_start m)])
                  ++ [image_block []]) (m_end m) st)
      as (parts' & last' & Hrun & Hout).
    exists parts', last'. split; [exact Hrun|].
    rewrite Hout, !concat_app. cbn [splice_blocks List.map List.concat].
    rewrite !app_nil_r, <- !app_assoc. reflexivity.
Qed.

Lemma replace_loop_with_client markdown (c : client) ms :
  forall parts last st,
  exists parts' last',
    replace_loop CONTEXT_BEFORE_CHARS CONTEXT_AFTER_CHARS MAX_CONTEXT_CHARS
      DESCRIBE_PROMPT markdown (Some c) ms parts last st
    = (logged st (List.map (asked markdown) ms), Ok (parts', last')) /\
    List.concat (parts' ++ [slice_from markdown last'])
    = List.concat parts
      ++ splice_blocks markdown ms (blocks_of markdown c (events st) ms)
                       last.
Proof.
  induction ms as [|m ms IH]; intros parts last st.
  - exists parts, last. cbn [replace_loop splice_blocks List.map described].
    rewrite logged_nil. split; [reflexivity|].
    rewrite concat_app. simpl. now rewrite app_nil_r.
  - cbn [replace_loop]. unfold bind at 1.
    set (data_url := slice markdown (fst (m_group1 m)) (snd (m_group1 m))).
    set (context := build_surrounding_context _ _ _ markdown _ _).
    assert (Hdesc :
      try_except (describe_image DESCRIBE_PROMPT c data_url context)
                 (fun _ => ret []) st
      = (logged st [asked markdown m],
         Ok (answer_text CONTEXT_BEFORE_CHARS CONTEXT_AFTER_CHARS
               MAX_CONTEXT_CHARS DESCRIBE_PROMPT markdown c (events st) m))).
    { unfold try_except, describe_image, bind, call_hist, ret, answer_text,
        chat_event. fold data_url context.
      destruct (chat_create _ _ _ _ _) as [[a|]|e]; reflexivity. }
    rewrite Hdesc.
    destruct (IH ((parts ++ [slice markdown last (m_start m)])
                  ++ [image_block
                        (answer_text CONTEXT_BEFORE_CHARS CONTEXT_AFTER_CHARS
                           MAX_CONTEXT_CHARS DESCRIBE_PROMPT markdown c
                           (events st) m)])
                 (m_end m) (logged st [asked markdown m]))
      as (parts' & last' & Hrun & Hout).
    exists parts', last'. split.
    + rewrite Hrun, logged_logged. reflexivity.
    + rewrite Hout, !concat_app.
      cbn [splice_blocks List.map List.concat described events logged].
      rewrite !app_nil_r, <- !app_assoc. reflexivity.
Qed.

Lemma replace_all_with_client markdown (c : client) st :
  replace_all markdown (Some c) st
  = (logged st (List.map (asked markdown)
                         (finditer IMAGE_DATAURI_PATTERN markdown)),
     Ok (splice_blocks markdown (finditer IMAGE_DATAURI_PATTERN markdown)
           (blocks_of markdown c (events st)
                      (finditer IMAGE_DATAURI_PATTERN markdown)) 0)).
Proof.
  unfold replace_images_with_text.
  destruct (finditer IMAGE_DATAURI_PATTERN markdown) as [|m ms] eqn:Hms.
  - cbn [List.map described splice_blocks]. unfold ret.
    rewrite logged_nil, slice_from_zero. reflexivity.
  - destruct (replace_loop_with_client markdown c (m :: ms) [] 0 st)
      as (parts' & last' & Hrun & Hout).
    unfold bind. rewrite Hrun. unfold ret. cbn [fst snd].
    rewrite Hout. reflexivity.
Qed.

Lemma replace_all_without_client markdown st :
  replace_all markdown None st
  = (st, Ok (sub IMAGE_DATAURI_PATTERN UNAVAILABLE_BLOCK markdown)).
Proof.
  rewrite sub_splice. unfold replace_images_with_text.
  destruct (finditer IMAGE_DATAURI_PATTERN markdown) as [|m ms] eqn:Hms.
  - cbn [List.map splice_blocks]. unfold ret.
    rewrite slice_from_zero. reflexivity.
  - destruct (replace_loop_without_client markdown (m :: ms) [] 0 st)
      as (parts' & last' & Hrun & Hout).
    unfold bind. rewrite Hrun. unfold ret. cbn [fst snd].
    rewrite Hout. reflexivity.
Qed.

(** X16: without a client no call is made, and the result is the input
    with every match of the data-URI pattern replaced by the fixed
    "[description unavailable]" block, as [re.sub] would give. *)
Theorem replace_images_without_client (markdown : str) (st : state) :
  replace_all markdown None st
  = (st, Ok (sub IMAGE_DATAURI_PATTERN UNAVAILABLE_BLOCK markdown)).
Proof. apply replace_all_without_client. Qed.

(** X17: with a client the model is asked exactly once per image, in the
    order of the images, each time with the context of that image; the
    result is the input with each image replaced by the block of its own
    answer. *)
Theorem replace_images_asks_once_per_image
        (markdown : str) (c : client) (st : state) :
  let images := finditer IMAGE_DATAURI_PATTERN markdown in
  replace_all markdown (Some c) st
  = (logged st (List.map (asked markdown) images),
     Ok (splice_blocks markdown images
           (blocks_of markdown c (events st) images) 0)).
Proof. apply replace_all_with_client. Qed.

Lemma described_blank markdown (c : client) ms :
  (forall hist text url,
      match chat_create hist c DESCRIBE_PROMPT text url with
      | Ok (Some a) => strip a = []
      | _ => True
      end) ->
  forall hist,
    blocks_of markdown c hist ms = List.map (fun _ => UNAVAILABLE_BLOCK) ms.
Proof.
  intros Hblank. induction ms as [|m ms IH]; intros hist; [reflexivity|].
  cbn [described List.map]. rewrite IH. f_equal.
  unfold answer_text.
  match goal with |- context [chat_create ?h ?c ?p ?t ?u] =>
    specialize (Hblank h t u); destruct (chat_create h c p t u) as [[a|]|e]
  end; [rewrite Hblank | |]; reflexivity.
Qed.

(** X18: a model that raises on every call, or answers nothing but
    whitespace, gives the same text as no client at all: every image is
    replaced by the fixed "[description unavailable]" block. *)
Theorem replace_images_blank_model
        (markdown : str) (c : client) (st : state) :
  (forall hist text url,
      match chat_create hist c DESCRIBE_PROMPT text url with
      | Ok (Some a) => strip a = []
      | _ => True
      end) ->
  snd (replace_all markdown (Some c) st)
  = Ok (sub IMAGE_DATAURI_PATTERN UNAVAILABLE_BLOCK markdown).
Proof.
  intros Hblank. rewrite replace_all_with_client. cbn [snd].
  rewrite (described_blank markdown c _ Hblank), sub_splice. reflexivity.
Qed.

End ImagesMore.

(** ** The image pipeline and the two command lines *)

Section Pipelines.

Context {F : PyFloat} {PIL : Pillow} {PDF : PyMuPDF} {LLM : ModelClient}
        {AMB : Ambient} {P4 : PyMuPDF4LLM} {OS : OsFiles}.
Variables CONTEXT_BEFORE_CHARS CONTEXT_AFTER_CHARS MAX_CONTEXT_CHARS : Z.
Variable DESCRIBE_PROMPT : str.

Local Abbreviation image_pipeline :=
  (pdf_to_markdown_with_image_text CONTEXT_BEFORE_CHARS CONTEXT_AFTER_CHARS
                                   MAX_CONTEXT_CHARS DESCRIBE_PROMPT).
Local Abbreviation describe_main' :=
  (describe_main CONTEXT_BEFORE_CHARS CONTEXT_AFTER_CHARS MAX_CONTEXT_CHARS
                 DESCRIBE_PROMPT).

(** The pipeline after a successful conversion: the client is set up,
    or replaced by [None] when that fails, and the images are replaced. *)
Lemma image_pipeline_converted path md st :
  to_markdown path = Ok md ->
  image_pipeline path st
  = match get_openai_client (logged st [EvOpen path]) with
    | (st1, Ok c) =>
        replace_images_with_text CONTEXT_BEFORE_CHARS CONTEXT_AFTER_CHARS
          MAX_CONTEXT_CHARS DESCRIBE_PROMPT md (Some c) st1
    | (st1, Raise _) =>
        (st1, Ok (sub IMAGE_DATAURI_PATTERN UNAVAILABLE_BLOCK md))
    end.
Proof.
  intros Hmd.
  unfold pdf_to_markdown_with_image_text, convert_pdf_to_markdown,
    bind at 1, call.
  rewrite Hmd. unfold bind at 1, try_except, bind at 1.
  destruct (get_openai_client _) as [st1 [c|e]]; unfold ret.
  - reflexivity.
  - now rewrite replace_all_without_client.
Qed.

Lemma image_pipeline_survives_the_model_aux path md st :
  to_markdown path = Ok md ->
  exists st' out, image_pipeline path st = (st', Ok out).
Proof.
  intros Hmd. rewrite (image_pipeline_converted path md st Hmd).
  destruct (get_openai_client _) as [st1 [c|e]]; [|eauto].
  rewrite replace_all_with_client. eauto.
Qed.

(** X19: when the conversion succeeds the image pipeline always returns a
    text, whatever the client set-up and the model do; when the client
    cannot be set up, no model call is made and every image is replaced by
    the fixed "[description unavailable]" block.  A conversion that raises
    makes the pipeline raise before anything else is done. *)
Theorem image_pipeline_survives_the_model (path : str) (st : state) :
  (forall md,
      to_markdown path = Ok md ->
      (exists st' out, image_pipeline path st = (st', Ok out)) /\
      (forall st1 e,
          get_openai_client (logged st [EvOpen path]) = (st1, Raise e) ->
          image_pipeline path st
          = (st1, Ok (sub IMAGE_DATAURI_PATTERN UNAVAILABLE_BLOCK md)))) /\
  (forall e,
      to_markdown path = Raise e ->
      image_pipeline path st = (logged st [EvOpen path], Raise e)).
Proof.
  split.
  - intros md Hmd. rewrite (image_pipeline_converted path md st Hmd).
    split.
    + destruct (get_openai_client _) as [st1 [c|e]]; [|eauto].
      rewrite replace_all_with_client. eauto.
    + intros st1 e ->. reflexivity.
  - intros e He.
    unfold pdf_to_markdown_with_image_text, convert_pdf_to_markdown,
      bind at 1, call.
    now rewrite He.
Qed.

(** X20: how the first command line can end.  It exits with status 1 only
    for a missing input file, having done nothing; with status 2 exactly
    when the orchestrator raises (nothing is written then); an uncaught
    exception can only come from writing the output; and a file it writes
    holds the orchestrator's text, without three consecutive newlines or
    whitespace at its ends, at the requested path or at the default one. *)
Theorem vision_main_endings (args : vision_args) (st st' : state)
        (f : finish) :
  vision_main args st = (st', f) ->
  let run :=
    pdf_to_markdown_full_vision (va_input_pdf args) (va_start args)
      (va_end args) (negb (va_no_page_headings args)) st in
  let output_path :=
    output_or (va_output args)
      (fst (splitext (abspath (va_input_pdf args))) ++ lit "_vision.md") in
  match f with
  | Exit code =>
      (code = 1 /\ isfile (va_input_pdf args) = false /\ st' = st) \/
      (code = 2 /\ isfile (va_input_pdf args) = true /\
       exists e, run = (st', Raise e))
  | Written path content =>
      isfile (va_input_pdf args) = true /\
      path = output_path /\
      run = (st', Ok content) /\
      write_text path content = Ok tt /\
      contains [NL; NL; NL] content = false /\ trimmed content
  | Uncaught e =>
      isfile (va_input_pdf args) = true /\
      exists content,
        run = (st', Ok content) /\ write_text output_path content = Raise e
  end.
Proof.
  unfold vision_main.
  destruct (isfile (va_input_pdf args)); cbn [negb].
  - destruct (pdf_to_markdown_full_vision _ _ _ _ st)
      as [st1 [md|e]] eqn:Erun.
    + unfold write_output.
      destruct (write_text _ md) as [[]|e] eqn:Ew; intros [= <- <-].
      * destruct (full_vision_returns_normalised _ _ _ _ _ _ _ Erun)
          as [Hclean Htrim].
        cbv zeta.
        split; [reflexivity | split; [reflexivity | split; [reflexivity|]]].
        split; [exact Ew | split; [exact Hclean | exact Htrim]].
      * cbv zeta. split; [reflexivity|]. exists md. now split.
    + intros [= <- <-]. cbv zeta. right.
      split; [reflexivity | split; [reflexivity|]]. now exists e.
  - intros [= <- <-]. cbv zeta. left. repeat split.
Qed.

(** X21: an empty page range makes the first command line exit with
    status 2 after the document was opened and closed; no page is loaded
    and no file is written. *)
Theorem vision_main_invalid_range (args : vision_args) (st st1 : state)
        (cl : client) (d : doc) :
  isfile (va_input_pdf args) = true ->
  get_openai_client st = (st1, Ok cl) ->
  fitz_open (va_input_pdf args) = Ok d ->
  clamp_end (va_end args) (page_count d) < clamp_start (va_start args) ->
  vision_main args st
  = (logged st1 [EvOpen (va_input_pdf args); EvClose], Exit 2).
Proof.
  intros Hfile Hcl Hopen Hrange. unfold vision_main.
  rewrite Hfile. cbn [negb].
  destruct (full_vision_run (va_input_pdf args) (va_start args)
              (va_end args) (negb (va_no_page_headings args))
              st st1 cl d Hcl Hopen) as [Hbad _].
  rewrite (Hbad Hrange). reflexivity.
Qed.

(** X22: how the second command line can end.  It exits only with status
    1, for a missing input file; a model that fails never makes it fail:
    an uncaught exception is either the conversion's or the one raised
    when writing the output. *)
Theorem describe_main_endings (args : describe_args) (st st' : state)
        (f : finish) :
  describe_main' args st = (st', f) ->
  match f with
  | Exit code =>
      code = 1 /\ isfile (da_input_pdf args) = false /\ st' = st
  | Written path content =>
      isfile (da_input_pdf args) = true /\
      image_pipeline (da_input_pdf args) st = (st', Ok content) /\
      write_text path content = Ok tt
  | Uncaught e =>
      isfile (da_input_pdf args) = true /\
      (to_markdown (da_input_pdf args) = Raise e \/
       exists path content,
         image_pipeline (da_input_pdf args) st = (st', Ok content) /\
         write_text path content = Raise e)
  end.
Proof.
  unfold describe_main.
  destruct (isfile (da_input_pdf args)); cbn [negb].
  - destruct (to_markdown (da_input_pdf args)) as [md|e0] eqn:Emd.
    + destruct (image_pipeline_survives_the_model_aux _ _ st Emd)
        as (st1 & out & Hrun).
      rewrite Hrun. unfold write_output.
      destruct (write_text _ out) as [[]|e] eqn:Ew; intros [= <- <-].
      * split; [reflexivity | split; [reflexivity | exact Ew]].
      * split; [reflexivity|]. right. eauto.
    + assert (Hrun : image_pipeline (da_input_pdf args) st
                     = (logged st [EvOpen (da_input_pdf args)], Raise e0)).
      { unfold pdf_to_markdown_with_image_text, convert_pdf_to_markdown,
          bind at 1, call. now rewrite Emd. }
      rewrite Hrun. intros [= <- <-]. split; [reflexivity|]. now left.
  - intros [= <- <-]. repeat split.
Qed.

End Pipelines.

(** ** Normalising the image lines of an answer *)

Section ImageLines.

(** Group marks do not change what a pattern matches. *)
Lemma match_here_ungroup p :
  forall s k g g2,
    option_map fst (match_here (ungroup p) s k g2)
    = option_map fst (match_here p s k g).
Proof.
  induction p as [|it p IH]; intros s k g g2.
  - reflexivity.
  - destruct it as [a | a | ws | | ]; cbn [ungroup].
    + destruct s as [|c s]; simpl; [reflexivity|].
      destruct (atom_ok a c); [apply IH | reflexivity].
    + revert k. induction s as [|c s IHs]; intros k.
      * rewrite !match_here_star_nil. apply IH.
      * rewrite !match_here_star_cons.
        destruct (atom_ok a c); [|apply IH].
        specialize (IHs (S k)).
        destruct (match_here (Star a :: ungroup p) s (S k) g2) as [r2|];
          destruct (match_here (Star a :: p) s (S k) g) as [r|];
          simpl in IHs; try discriminate; [exact IHs | apply IH].
    + induction ws as [|w ws IHws]; [reflexivity|].
      rewrite !match_here_alt_cons.
      destruct (starts_with w s); [|exact IHws].
      pose proof (IH (skipn (List.length w) s) (k + List.length w)%nat
                     g g2) as Hp.
      destruct (match_here (ungroup p) _ _ g2) as [r2|];
        destruct (match_here p _ _ g) as [r|];
        simpl in Hp; try discriminate; [exact Hp | exact IHws].
    + simpl. apply IH.
    + simpl. apply IH.
Qed.

Lemma star_alone_matches a s :
  forall k g, exists r, match_here [Star a] s k g = Some r.
Proof.
  induction s as [|c s IH]; intros k g.
  - rewrite match_here_star_nil. cbn. eauto.
  - rewrite match_here_star_cons.
    destruct (atom_ok a c); [|cbn; eauto].
    destruct (IH (S k) g) as [r ->]. eauto.
Qed.

(** A pattern that matches still matches with a star added at its end. *)
Lemma match_here_extend a p :
  forall s k g r,
    match_here p s k g = Some r ->
    exists r', match_here (p ++ [Star a]) s k g = Some r'.
Proof.
  induction p as [|it p IH]; intros s k g r.
  - intros _. apply star_alone_matches.
  - destruct it as [b | b | ws | | ]; cbn [app].
    + destruct s as [|c s]; simpl; [discriminate|].
      destruct (atom_ok b c); [apply IH | discriminate].
    + revert k r. induction s as [|c s IHs]; intros k r.
      * rewrite !match_here_star_nil. apply IH.
      * rewrite !match_here_star_cons.
        destruct (atom_ok b c); [|apply IH].
        destruct (match_here (Star b :: p) s (S k) g) as [r1|] eqn:E.
        -- intros _. destruct (IHs (S k) r1 E) as [r' ->]. eauto.
        -- intros H.
           destruct (match_here (Star b :: p ++ [Star a]) s (S k) g);
             [eauto | now apply IH in H].
    + induction ws as [|w ws IHws].
      * rewrite match_here_alt_nil. discriminate.
      * rewrite !match_here_alt_cons.
        destruct (starts_with w s); [|exact IHws].
        destruct (match_here p _ _ g) as [r1|] eqn:E.
        -- intros _. destruct (IH _ _ _ _ E) as [r' ->]. eauto.
        -- intros H.
           destruct (match_here (p ++ [Star a]) _ _ g); [eauto|].
           now apply IHws.
    + simpl. apply IH.
    + simpl. apply IH.
Qed.

(** After a match of a pattern that ends with a star, the text does not go
    on with a character of that star. *)
Lemma match_here_trailing_star a p :
  forall s k g n g',
    match_here (p ++ [Star a]) s k g = Some (n, g') ->
    match skipn (n - k) s with
    | c :: _ => atom_ok a c = false
    | [] => True
    end.
Proof.
  induction p as [|it p IH]; intros s k g n g'.
  - cbn [app]. revert k. induction s as [|c s IHs]; intros k.
    + intros _. now rewrite skipn_nil.
    + rewrite match_here_star_cons.
      destruct (atom_ok a c) eqn:Eac.
      * destruct (star_alone_matches a s (S k) g) as [r Hr].
        rewrite Hr. intros [= ->].
        pose proof (match_here_bound _ _ _ _ _ _ Hr) as Hb.
        apply IHs in Hr.
        replace (n - k)%nat with (S (n - S k)) by lia. exact Hr.
      * cbn [match_here]. intros [= <- <-].
        rewrite Nat.sub_diag. exact Eac.
  - destruct it as [b | b | ws | | ]; cbn [app].
    + destruct s as [|c s]; simpl; [discriminate|].
      destruct (atom_ok b c); [|discriminate].
      intros H. pose proof (match_here_bound _ _ _ _ _ _ H) as Hb.
      apply IH in H.
      replace (n - k)%nat with (S (n - S k)) by lia. exact H.
    + revert k. induction s as [|c s IHs]; intros k.
      * rewrite match_here_star_nil. apply IH.
      * rewrite match_here_star_cons.
        destruct (atom_ok b c); [|apply IH].
        destruct (match_here (Star b :: p ++ [Star a]) s (S k) g)
          as [r|] eqn:E; [|apply IH].
        intros [= ->].
        pose proof (match_here_bound _ _ _ _ _ _ E) as Hb.
        apply IHs in E.
        replace (n - k)%nat with (S (n - S k)) by lia. exact E.
    + induction ws as [|w ws IHws].
      * rewrite match_here_alt_nil. discriminate.
      * rewrite match_here_alt_cons.
        destruct (starts_with w s) eqn:Ew; [|exact IHws].
        destruct (match_here (p ++ [Star a]) _ _ g) as [r|] eqn:E;
          [|exact IHws].
        intros [= ->].
        pose proof (match_here_bound _ _ _ _ _ _ E) as Hb.
        apply IH in E. rewrite skipn_skipn in E.
        replace (n - (k + List.length w) + List.length w)%nat
          with (n - k)%nat in E by lia.
        exact E.
    + simpl. apply IH.
    + simpl. apply IH.
Qed.

(** A line with an image prefix is also matched by the pattern that strips
    the prefix, and what is left has no whitespace in front. *)
Lemma prefix_strips line r :
  match_at IMAGE_PREFIX_PATTERN line = Some r ->
  exists n g,
    match_at IMAGE_PREFIX_STRIP_PATTERN line = Some (n, g) /\
    lstrip (skipn n line) = skipn n line.
Proof.
  intros Hm. unfold match_at in *.
  pose proof (match_here_ungroup IMAGE_PREFIX_PATTERN line 0
                (0, 0)%nat (0, 0)%nat) as Hu.
  rewrite Hm in Hu. change (ungroup IMAGE_PREFIX_PATTERN)
    with IMAGE_PREFIX_CORE in Hu.
  destruct (match_here IMAGE_PREFIX_CORE line 0 (0, 0)%nat)
    as [r0|] eqn:Ecore; [|discriminate].
  destruct (match_here_extend ASpace _ _ _ _ _ Ecore) as [[n g] Hs].
  change (IMAGE_PREFIX_CORE ++ [Star ASpace])
    with IMAGE_PREFIX_STRIP_PATTERN in Hs.
  exists n, g. split; [exact Hs|].
  change IMAGE_PREFIX_STRIP_PATTERN
    with (IMAGE_PREFIX_CORE ++ [Star ASpace]) in Hs.
  apply match_here_trailing_star in Hs. rewrite Nat.sub_0_r in Hs.
  destruct (skipn n line) as [|c t]; [reflexivity|].
  now apply lstrip_fixed.
Qed.

(** A normalised image line is matched again, up to its seventh
    character. *)
Lemma image_line_again rest :
  lstrip rest = rest ->
  (exists r, match_at IMAGE_PREFIX_PATTERN (lit "IMAGE: " ++ rest) = Some r)
  /\ exists g,
      match_at IMAGE_PREFIX_STRIP_PATTERN (lit "IMAGE: " ++ rest)
      = Some (7%nat, g).
Proof.
  intros Hrest.
  assert (Hstar : forall k g,
             match_here [Star ASpace] rest k g = Some (k, g)).
  { intros k g. rewrite star_space_run, Hrest, Nat.sub_diag, Nat.add_0_r.
    reflexivity. }
  unfold match_at, IMAGE_PREFIX_PATTERN, IMAGE_PREFIX_STRIP_PATTERN,
    IMAGE_WORDS.
  change (lit "IMAGE: " ++ rest)
    with (73 :: 77 :: 65 :: 71 :: 69 :: 58 :: 32 :: rest)%N.
  cbn [app literal lit List.map list_ascii_of_string].
  split.
  - eexists.
    rewrite match_here_star_cons.
    change (atom_ok ASpace 73%N) with false. cbv iota.
    change (match_here (GOpen :: ?p) ?s ?k ?g)
      with (match_here p s k (k, snd g)).
    rewrite !match_here_alt_cons.
    change (starts_with (lit "image") _) with false.
    change (starts_with (lit "Image") _) with false.
    change (starts_with (lit "IMAGE") _) with true.
    cbv iota. cbn [skipn List.length lit List.map list_ascii_of_string
                   Nat.add app].
    change (match_here (GClose :: ?p) ?s ?k ?g)
      with (match_here p s k (fst g, k)).
    rewrite match_here_star_cons.
    change (atom_ok ASpace 58%N) with false. cbv iota.
    cbn [literal lit List.map list_ascii_of_string app].
    rewrite match_here_one_cons.
    change (atom_ok (ALit (N_of_ascii ":")) 58%N) with true. cbv iota.
    reflexivity.
  - eexists.
    rewrite match_here_star_cons.
    change (atom_ok ASpace 73%N) with false. cbv iota.
    rewrite !match_here_alt_cons.
    change (starts_with (lit "image") _) with false.
    change (starts_with (lit "Image") _) with false.
    change (starts_with (lit "IMAGE") _) with true.
    cbv iota. cbn [skipn List.length lit List.map list_ascii_of_string
                   Nat.add app].
    rewrite match_here_star_cons.
    change (atom_ok ASpace 58%N) with false. cbv iota.
    cbn [literal lit List.map list_ascii_of_string app].
    rewrite match_here_one_cons.
    change (atom_ok (ALit (N_of_ascii ":")) 58%N) with true. cbv iota.
    rewrite match_here_star_cons.
    change (atom_ok ASpace 32%N) with true. cbv iota.
    rewrite Hstar. reflexivity.
Qed.

(** X23: a line is either left as it is (it has no image prefix), or
    becomes "IMAGE: " followed by a final part of the line that has no
    whitespace in front. *)
Theorem normalize_line_shape (line : str) :
  (match_at IMAGE_PREFIX_PATTERN line = None /\
   normalize_line line = line) \/
  (exists n,
      normalize_line line = lit "IMAGE: " ++ skipn n line /\
      lstrip (skipn n line) = skipn n line).
Proof.
  unfold normalize_line.
  destruct (match_at IMAGE_PREFIX_PATTERN line) as [r|] eqn:E;
    [right | now left].
  destruct (prefix_strips line r E) as (n & g & Hs & Hl).
  exists n. unfold sub_at_start. rewrite Hs. split; [reflexivity | exact Hl].
Qed.

(** X24: normalising a line twice is normalising it once. *)
Theorem normalize_line_idempotent (line : str) :
  normalize_line (normalize_line line) = normalize_line line.
Proof.
  unfold normalize_line at 2 3.
  destruct (match_at IMAGE_PREFIX_PATTERN line) as [r|] eqn:E.
  - destruct (prefix_strips line r E) as (n & g & Hs & Hl).
    unfold sub_at_start. rewrite Hs. cbn [app].
    destruct (image_line_again (skipn n line) Hl) as [[r' Hp] [g' Hs']].
    unfold normalize_line, sub_at_start. rewrite Hp, Hs'. reflexivity.
  - unfold normalize_line. now rewrite E.
Qed.

End ImageLines.

(* ===================================================================== *)
(** * Further runs on the small environment *)
(* ===================================================================== *)

(** An image with an alpha band comes back as an RGB image of the same
    size. *)
Lemma ensure_rgb_is_rgb_witness :
  mode (@_ensure_rgb Demo.pillow Sample.alpha_image) = lit "RGB" /\
  width (@_ensure_rgb Demo.pillow Sample.alpha_image) = 3 /\
  height (@_ensure_rgb Demo.pillow Sample.alpha_image) = 2 /\
  @_ensure_rgb Demo.pillow (@_ensure_rgb Demo.pillow Sample.alpha_image)
  = @_ensure_rgb Demo.pillow Sample.alpha_image.
Proof.
  apply (ensure_rgb_is_rgb (PIL:=Demo.pillow) Sample.alpha_image).
  reflexivity.
Defined.

(** At a budget of 80 bytes the large image is returned as the JPEG of
    quality 75, the second of the sequence. *)
Lemma cap_returns_first_fitting_quality_witness :
  Demo.cap Demo.large 80 85 35 4 init
  = (logged init (EvSave (lit "PNG") None
                  :: List.map jpeg_event ([85] ++ [75])),
     Ok (Demo.zeros 75, lit "image/jpeg")).
Proof.
  apply (cap_returns_first_fitting_quality (F:=Demo.fixed_point)
           (PIL:=Demo.pillow) Demo.large 80 85 35 4 init
           (Demo.zeros 100) (Demo.zeros 75) [85] [65; 55; 45; 35] 75).
  - reflexivity.
  - vm_compute. reflexivity.
  - vm_compute. reflexivity.
  - constructor; [|constructor].
    eexists. split; [reflexivity | vm_compute; reflexivity].
  - reflexivity.
  - vm_compute. discriminate.
Defined.

Lemma cap_empty_quality_range_raises_witness :
  Demo.cap Demo.large 50 30 35 4 init
  = (logged init [EvSave (lit "PNG") None],
     Raise (UnboundLocalError (lit "data"))).
Proof.
  apply (cap_empty_quality_range_raises (F:=Demo.fixed_point)
           (PIL:=Demo.pillow) Demo.large 50 30 35 4 init (Demo.zeros 100)).
  - lia.
  - reflexivity.
  - vm_compute. reflexivity.
Defined.

Lemma cap_negative_budget_never_returns_witness :
  exists st' e, Demo.cap Demo.large (-1) 85 35 4 init = (st', Raise e).
Proof.
  apply (cap_negative_budget_never_returns (F:=Demo.fixed_point)
           (PIL:=Demo.pillow) Demo.large (-1) 85 35 4 init).
  lia.
Defined.

Lemma page_data_url_shape_witness :
  @page_to_capped_data_url Demo.fixed_point Demo.pillow Demo.pymupdf
    Demo.ambient 0 RENDER_DPI init
  = (logged init [EvRasterize 280; EvSave (lit "PNG") None],
     Ok (lit "data:image/png;base64,AAAA", (10, 10)))
  /\ exists blob,
      lit "data:image/png;base64,AAAA"
      = lit "data:image/png;base64," ++ @b64encode Demo.ambient blob \/
      lit "data:image/png;base64,AAAA"
      = lit "data:image/jpeg;base64," ++ @b64encode Demo.ambient blob.
Proof.
  assert (Hrun :
    @page_to_capped_data_url Demo.fixed_point Demo.pillow Demo.pymupdf
      Demo.ambient 0 RENDER_DPI init
    = (logged init [EvRasterize 280; EvSave (lit "PNG") None],
       Ok (lit "data:image/png;base64,AAAA", (10, 10))))
    by (vm_compute; reflexivity).
  split; [exact Hrun|].
  destruct (page_data_url_shape _ _ _ _ _ _ Hrun)
    as (img & blob & mime & st1 & _ & _ & _ & Hurl).
  exists blob. exact Hurl.
Defined.

Lemma full_vision_log_discipline_witness :
  exists body,
    events (fst (Demo.run_full_vision sample_path (Some 1) (Some 3) true
                   init))
    = [EvClient] ++ [EvOpen sample_path] ++ body ++ [EvClose] /\
    Forall (fun ev => exists i, 0 <= i < 4 /\ page_event i ev) body.
Proof.
  apply (full_vision_log_discipline (F:=Demo.fixed_point)
           (PIL:=Demo.pillow) (PDF:=Demo.pymupdf) (LLM:=Demo.model)
           (AMB:=Demo.ambient) sample_path (Some 1) (Some 3) true init
           (logged init [EvClient]) tt 4); reflexivity.
Defined.

Lemma full_vision_loads_each_page_once_witness :
  exists body,
    events (fst (Demo.run_full_vision sample_path (Some 1) (Some 3) true
                   init))
    = [EvClient] ++ [EvOpen sample_path] ++ body ++ [EvClose] /\
    loaded_pages body = [0; 1; 2].
Proof.
  apply (full_vision_loads_each_page_once (F:=Demo.fixed_point)
           (PIL:=Demo.pillow) (PDF:=Demo.pymupdf) (LLM:=Demo.model)
           (AMB:=Demo.ambient) sample_path (Some 1) (Some 3) true init
           (logged init [EvClient]) tt 4).
  - reflexivity.
  - reflexivity.
  - vm_compute. discriminate.
Defined.

Lemma full_vision_output_normal_form_witness :
  exists st' md,
    Demo.run_full_vision sample_path (Some 1) (Some 3) true init
    = (st', Ok md) /\
    contains [NL; NL; NL] md = false /\ trimmed md.
Proof.
  eexists _, _. split.
  - vm_compute. reflexivity.
  - eapply (full_vision_output_normal_form (F:=Demo.fixed_point)
              (PIL:=Demo.pillow) (PDF:=Demo.pymupdf) (LLM:=Demo.model)
              (AMB:=Demo.ambient) sample_path (Some 1) (Some 3) true init).
    vm_compute. reflexivity.
Defined.

Lemma full_vision_headings_on_every_page_witness :
  exists frags,
    snd (Demo.run_full_vision sample_path (Some 1) (Some 3) true init)
    = Ok (collapse_blank_lines (strip (join [NL; NL] frags))) /\
    Forall2 (fun i frag => starts_with (page_heading (i + 1)) frag = true)
            [0; 1; 2] frags.
Proof.
  destruct (full_vision_headings_on_every_page (F:=Demo.fixed_point)
              (PIL:=Demo.pillow) (PDF:=Demo.pymupdf) (LLM:=Demo.model)
              (AMB:=Demo.ambient) sample_path (Some 1) (Some 3) init
              (logged init [EvClient]) tt 4)
    as (frags & st2 & Hrun & _ & Hheads).
  - reflexivity.
  - reflexivity.
  - vm_compute. discriminate.
  - exists frags. split; [|exact Hheads].
    unfold Demo.run_full_vision. rewrite Hrun. reflexivity.
Defined.

Lemma extract_blank_answer_witness :
  @extract_page_markdown Sample.blank_model Demo.ambient tt (lit "url") 1
    init
  = (logged init [EvChat (lit "user (Page 1)")], Ok []).
Proof.
  apply (extract_blank_answer (LLM:=Sample.blank_model) (AMB:=Demo.ambient)
           tt (lit "url") 1 init (Some (lit "  "))); reflexivity.
Defined.

Lemma full_vision_setup_failures_witness :
  @pdf_to_markdown_full_vision Demo.fixed_point Demo.pillow Demo.pymupdf
    Demo.model Sample.no_endpoint sample_path None None true init
  = (init, Raise (RuntimeError
                    (lit "PROJECT_ENDPOINT env var is required but missing.")))
  /\
  @pdf_to_markdown_full_vision Demo.fixed_point Demo.pillow
    Sample.no_document Demo.model Demo.ambient sample_path None None true
    init
  = (logged init [EvClient; EvOpen sample_path], Raise (LibraryError 2)).
Proof.
  split.
  - apply (proj1 (full_vision_setup_failures (F:=Demo.fixed_point)
                    (PIL:=Demo.pillow) (PDF:=Demo.pymupdf) (LLM:=Demo.model)
                    (AMB:=Sample.no_endpoint) sample_path None None true
                    init)).
    left. reflexivity.
  - apply (proj2 (full_vision_setup_failures (F:=Demo.fixed_point)
                    (PIL:=Demo.pillow) (PDF:=Sample.no_document)
                    (LLM:=Demo.model) (AMB:=Demo.ambient) sample_path None
                    None true init)
             (logged init [EvClient]) tt (LibraryError 2)); reflexivity.
Defined.

Lemma strip_images_without_bang_witness :
  strip_images_from_text (lit "plain text") = lit "plain text".
Proof.
  apply (strip_images_without_bang (lit "plain text")).
  intros H. vm_compute in H.
  repeat (destruct H as [H|H]; [discriminate H|]). exact H.
Defined.

Lemma context_is_compact_witness :
  len (build_surrounding_context 400 400 1000 reformed_markdown 37 69)
  <= 1000 + 1.
Proof.
  apply (context_is_compact 400 400 1000 reformed_markdown 37 69). lia.
Defined.

Lemma replace_images_blank_model_witness :
  snd (@replace_images_with_text 400 400 1000 Sample.blank_model
         (lit "describe") Sample.converted (Some tt) init)
  = Ok (sub IMAGE_DATAURI_PATTERN UNAVAILABLE_BLOCK Sample.converted).
Proof.
  apply (replace_images_blank_model (LLM:=Sample.blank_model) 400 400 1000
           (lit "describe") Sample.converted tt init).
  intros hist text url. reflexivity.
Defined.

Lemma image_pipeline_survives_the_model_witness :
  @pdf_to_markdown_with_image_text Demo.model Sample.no_endpoint
    Sample.converter 400 400 1000 (lit "describe") sample_path init
  = (logged init [EvOpen sample_path],
     Ok (sub IMAGE_DATAURI_PATTERN UNAVAILABLE_BLOCK Sample.converted))
  /\
  @pdf_to_markdown_with_image_text Demo.model Demo.ambient
    Sample.no_converter 400 400 1000 (lit "describe") sample_path init
  = (logged init [EvOpen sample_path], Raise (LibraryError 4)).
Proof.
  split.
  - destruct (image_pipeline_survives_the_model (LLM:=Demo.model)
                (AMB:=Sample.no_endpoint) (P4:=Sample.converter)
                400 400 1000 (lit "describe") sample_path init)
      as [Hconv _].
    destruct (Hconv Sample.converted eq_refl) as [_ Hnone].
    apply (Hnone (logged init [EvOpen sample_path])
                 (RuntimeError
                    (lit "PROJECT_ENDPOINT env var is required but missing."))).
    reflexivity.
  - apply (proj2 (image_pipeline_survives_the_model (LLM:=Demo.model)
                    (AMB:=Demo.ambient) (P4:=Sample.no_converter)
                    400 400 1000 (lit "describe") sample_path init)).
    reflexivity.
Defined.

Lemma vision_main_endings_witness :
  exists st' content,
    Sample.vision_main
      (mk_vision_args sample_path None (Some 1) (Some 3) false) init
    = (st', Written (lit "/work/doc_vision.md") content) /\
    contains [NL; NL; NL] content = false /\ trimmed content.
Proof.
  eexists _, _. split.
  - vm_compute. reflexivity.
  - eapply (vision_main_endings (F:=Demo.fixed_point) (PIL:=Demo.pillow)
              (PDF:=Demo.pymupdf) (LLM:=Demo.model) (AMB:=Demo.ambient)
              (OS:=Sample.files)
              (mk_vision_args sample_path None (Some 1) (Some 3) false)
              init _ (Written _ _)).
    vm_compute. reflexivity.
Defined.

Lemma vision_main_invalid_range_witness :
  Sample.vision_main
    (mk_vision_args sample_path None (Some 3) (Some 2) false) init
  = (logged init [EvClient; EvOpen sample_path; EvClose], Exit 2).
Proof.
  apply (vision_main_invalid_range (F:=Demo.fixed_point) (PIL:=Demo.pillow)
           (PDF:=Demo.pymupdf) (LLM:=Demo.model) (AMB:=Demo.ambient)
           (OS:=Sample.files)
           (mk_vision_args sample_path None (Some 3) (Some 2) false)
           init (logged init [EvClient]) tt 4).
  - reflexivity.
  - reflexivity.
  - reflexivity.
  - vm_compute. reflexivity.
Defined.

Lemma describe_main_endings_witness :
  exists st' content,
    Sample.describe_main (mk_describe_args sample_path None) init
    = (st', Written (lit "/work/doc.md") content) /\
    Sample.image_pipeline sample_path init = (st', Ok content).
Proof.
  eexists _, _. split.
  - vm_compute. reflexivity.
  - eapply (describe_main_endings (LLM:=Demo.model) (AMB:=Demo.ambient)
              (P4:=Sample.converter) (OS:=Sample.files)
              400 400 1000 (lit "describe")
              (mk_describe_args sample_path None) init _ (Written _ _)).
    vm_compute. reflexivity.
Defined.
